(** * Godot 3 to Godot 4 GDScript migration scripts

    A shallow embedding of [scripts/migrate_godot3_to_4.py] (class
    [GodotMigrator]) and [scripts/fix_connect_calls.py], and the
    properties of their rewrite engine.

    Texts are [string]s, that is sequences of 8-bit characters (the
    UTF-8 bytes of the file).  The character classes [\w], [\s] and [\d]
    are those of CPython on the ASCII range; a byte above 127 belongs to
    none of them.  Python exceptions are values of [exn], carried by
    [outcome]. *)

From Stdlib Require Import String Ascii List Bool Arith Lia DecimalString
  DecimalNat.
Import ListNotations.
Local Open Scope list_scope.
Local Open Scope string_scope.

(* ================================================================= *)
(** ** Python exceptions *)

Inductive exn : Type :=
| ReError (msg : string)      (* re.error *)
| IndexError (msg : string).  (* IndexError *)

Inductive outcome (A : Type) : Type :=
| Returned (a : A)
| Raised (e : exn).
Arguments Returned {A} a.
Arguments Raised {A} e.

Definition obind {A B} (m : outcome A) (k : A -> outcome B) : outcome B :=
  match m with
  | Returned a => k a
  | Raised e => Raised e
  end.

Declare Scope outcome_scope.
Delimit Scope outcome_scope with outcome.
Notation "x <- m ;; k" := (obind m (fun x => k))
  (at level 61, m at next level, right associativity) : outcome_scope.
Notation "' p <- m ;; k" := (obind m (fun x => match x with p => k end))
  (at level 61, p pattern, m at next level, right associativity) : outcome_scope.

(* ================================================================= *)
(** ** Python [str] operations *)

Module Text.

Definition code (c : ascii) : nat := nat_of_ascii c.

Definition between (lo hi : nat) (c : ascii) : bool :=
  (lo <=? code c)%nat && (code c <=? hi)%nat.

(** The classes below are those of [re] and [str] on the ASCII range.
    On a [str] CPython also counts characters beyond ASCII among the
    blanks (U+0085, U+00A0, U+2028, ...), the digits (the decimal
    digits of other scripts) and the word characters (letters such as
    [é]); here a byte above 127 is in none of the classes, so a text
    is in the scope of the model where no such character stands at a
    place a class is asked about.  For a text of ASCII characters only,
    [ascii_text], there is no difference. *)

(** [str.isspace] and [\s] on ASCII: TAB, LF, VT, FF, CR, FS, GS, RS, US
    and space. *)
Definition is_space (c : ascii) : bool := between 9 13 c || between 28 32 c.

(** [\d] on ASCII. *)
Definition is_digit (c : ascii) : bool := between 48 57 c.

(** [\w] on ASCII: letters, digits and the underscore. *)
Definition is_word (c : ascii) : bool :=
  between 97 122 c || between 65 90 c || is_digit c || (code c =? 95)%nat.

(** A character of the ASCII range. *)
Definition is_ascii (c : ascii) : bool := (code c <? 128)%nat.

(** [[^x]]: every character but [x] (newline included). *)
Definition is_not (x : ascii) (c : ascii) : bool := negb (Ascii.eqb c x).

Definition newline : ascii := "010"%char.
Definition dquote : ascii := ascii_of_nat 34.

(** A string made of one character. *)
Definition chr (c : ascii) : string := String c EmptyString.

Definition nl : string := chr newline.
Definition tab : string := chr "009".

(** [s.startswith(p)] *)
Definition startswith (p s : string) : bool := prefix p s.

(** [sub in s] *)
Fixpoint contains (sub s : string) : bool :=
  startswith sub s ||
  match s with
  | EmptyString => false
  | String _ s' => contains sub s'
  end.

(** [s[n:]] *)
Fixpoint drop (n : nat) (s : string) : string :=
  match n, s with
  | S n', String _ s' => drop n' s'
  | _, _ => s
  end.

(** [s[:n]] *)
Fixpoint take (n : nat) (s : string) : string :=
  match n, s with
  | S n', String c s' => String c (take n' s')
  | _, _ => EmptyString
  end.

(** [s.replace(old, new)] for a non-empty [old]: the occurrences are
    taken from left to right and do not overlap.  [skip] counts the
    characters of the current occurrence still to be passed over. *)
Fixpoint replace_go (old new : string) (skip : nat) (s : string) : string :=
  match s with
  | EmptyString => EmptyString
  | String c s' =>
      match skip with
      | S k => replace_go old new k s'
      | O =>
          if startswith old s
          then new ++ replace_go old new (pred (String.length old)) s'
          else String c (replace_go old new 0 s')
      end
  end.

(** With an empty [old], [new] is put before every character and at the end. *)
Fixpoint interleave (new s : string) : string :=
  match s with
  | EmptyString => new
  | String c s' => new ++ String c (interleave new s')
  end.

Definition replace (old new s : string) : string :=
  match old with
  | EmptyString => interleave new s
  | String _ _ => replace_go old new 0 s
  end.

(** [s.strip()] *)
Fixpoint lstrip (s : string) : string :=
  match s with
  | EmptyString => EmptyString
  | String c s' => if is_space c then lstrip s' else s
  end.

Fixpoint rstrip (s : string) : string :=
  match s with
  | EmptyString => EmptyString
  | String c s' =>
      match rstrip s' with
      | EmptyString => if is_space c then EmptyString else chr c
      | String _ _ as r => String c r
      end
  end.

Definition strip (s : string) : string := rstrip (lstrip s).

(** [str(n)] for a length *)
Definition str_of_nat (n : nat) : string :=
  NilEmpty.string_of_uint (Nat.to_uint n).

(** [s * n] *)
Fixpoint times (s : string) (n : nat) : string :=
  match n with
  | O => EmptyString
  | S n' => s ++ times s n'
  end.

(** Every character of [s] is in the class [cls]. *)
Fixpoint all (cls : ascii -> bool) (s : string) : bool :=
  match s with
  | EmptyString => true
  | String c s' => cls c && all cls s'
  end.

(** A text of ASCII characters only. *)
Definition ascii_text (s : string) : bool := all is_ascii s.

(** Number of occurrences of the character [x] in [s]. *)
Fixpoint count_char (x : ascii) (s : string) : nat :=
  match s with
  | EmptyString => 0
  | String c s' => (if Ascii.eqb c x then 1 else 0) + count_char x s'
  end.

(** The character before the position reached after reading [w], when
    [prv] was the one before [w]. *)
Fixpoint last_char (w : string) (prv : option ascii) : option ascii :=
  match w with
  | EmptyString => prv
  | String c w' => last_char w' (Some c)
  end.

(** [s.endswith(suf)] *)
Fixpoint ends_with (suf s : string) : bool :=
  String.eqb suf s ||
  match s with
  | EmptyString => false
  | String _ s' => ends_with suf s'
  end.

End Text.
Import Text.

(* ================================================================= *)
(** ** The fragment of [re] the scripts use

    Every pattern of the two scripts is a sequence of literals, greedy
    repetitions of one character class ([\w+], [\s*], [[^x]+] ...), the
    word boundary [\b], capturing groups and one optional group.  The
    matcher is the backtracking matcher of [re] in continuation-passing
    style: a greedy repetition first takes as many characters as it can
    and gives them back one by one while the rest of the pattern fails. *)

Module Re.

Inductive regex : Type :=
| Lit (l : string)                        (* literal text *)
| Rep (cls : ascii -> bool) (min : nat)   (* cls* (min = 0), cls+ (min = 1) *)
| Bound                                   (* \b *)
| Group (i : nat) (r : regex)             (* ( r ), the i-th group *)
| Opt (r : regex)                         (* r? *)
| Cat (r1 r2 : regex).

Fixpoint seq (rs : list regex) : regex :=
  match rs with
  | [] => Lit EmptyString
  | [r] => r
  | r :: rs' => Cat r (seq rs')
  end.

(** Number of groups of a pattern ([Pattern.groups]). *)
Fixpoint ngroups (r : regex) : nat :=
  match r with
  | Group i r' => Nat.max i (ngroups r')
  | Opt r' => ngroups r'
  | Cat r1 r2 => Nat.max (ngroups r1) (ngroups r2)
  | _ => 0
  end.

(** The groups of a match: index 0 is the whole match, [None] a group
    that did not take part in it. *)
Definition groups : Type := list (option string).

Fixpoint set_group (i : nat) (v : string) (g : groups) : groups :=
  match g, i with
  | [], _ => []
  | _ :: g', O => Some v :: g'
  | x :: g', S i' => x :: set_group i' v g'
  end.

(** Where the matcher stands: the character before the position (for
    [\b]), the text from the position on, the number of characters
    taken since the start of the match, and the groups set so far. *)
Record cursor : Type := Cursor {
  prev : option ascii;
  rest : string;
  pos : nat;
  caps : groups
}.

Definition first_char (s : string) : option ascii :=
  match s with
  | EmptyString => None
  | String c _ => Some c
  end.

Definition word_at (c : option ascii) : bool :=
  match c with
  | Some c => is_word c
  | None => false
  end.

(** The literal [l] read at the cursor. *)
Fixpoint read_lit (l : string) (prv : option ascii) (s : string) (n : nat)
  : option (option ascii * string * nat) :=
  match l with
  | EmptyString => Some (prv, s, n)
  | String a l' =>
      match s with
      | String c s' => if Ascii.eqb a c then read_lit l' (Some c) s' (S n) else None
      | EmptyString => None
      end
  end.

Section Matcher.
Context {R : Type}.

(** Greedy repetition of a class, at least [min] times. *)
Fixpoint rep (cls : ascii -> bool) (min : nat) (prv : option ascii)
    (s : string) (n : nat) (g : groups) (k : cursor -> option R) : option R :=
  let stop :=
    match min with
    | O => k (Cursor prv s n g)
    | S _ => None
    end in
  match s with
  | EmptyString => stop
  | String c s' =>
      if cls c then
        match rep cls (pred min) (Some c) s' (S n) g k with
        | Some r => Some r
        | None => stop
        end
      else stop
  end.

Fixpoint exec (r : regex) (cu : cursor) (k : cursor -> option R) : option R :=
  match r with
  | Lit l =>
      match read_lit l (prev cu) (rest cu) (pos cu) with
      | Some (p, s, n) => k (Cursor p s n (caps cu))
      | None => None
      end
  | Rep cls min => rep cls min (prev cu) (rest cu) (pos cu) (caps cu) k
  | Bound =>
      if xorb (word_at (prev cu)) (word_at (first_char (rest cu)))
      then k cu else None
  | Group i r' =>
      exec r' cu (fun cu' =>
        k (Cursor (prev cu') (rest cu') (pos cu')
             (set_group i (take (pos cu' - pos cu) (rest cu)) (caps cu'))))
  | Opt r' =>
      match exec r' cu k with
      | Some x => Some x
      | None => k cu
      end
  | Cat r1 r2 => exec r1 cu (fun cu' => exec r2 cu' k)
  end.

End Matcher.

(** One attempt at one position: the length of the match and its groups.
    With [must_advance] an empty match is refused (the matcher then
    backtracks), as [re] does right after an empty match. *)
Definition match_at (r : regex) (must_advance : bool) (prv : option ascii)
    (s : string) : option (nat * groups) :=
  exec r (Cursor prv s 0 (repeat None (S (ngroups r))))
    (fun cu =>
       if must_advance && (pos cu =? 0)%nat then None
       else Some (pos cu, set_group 0 (take (pos cu) s) (caps cu))).

(** [re.search]: the first position, from the left, with a match. *)
Fixpoint search_go (r : regex) (prv : option ascii) (s : string) : option groups :=
  match match_at r false prv s with
  | Some (_, g) => Some g
  | None =>
      match s with
      | EmptyString => None
      | String c s' => search_go r (Some c) s'
      end
  end.

Definition search (r : regex) (s : string) : option groups :=
  search_go r None s.

(** Truth value of the result of [re.search] in a condition. *)
Definition found (m : option groups) : bool :=
  match m with
  | Some _ => true
  | None => false
  end.

(** [m.group(i)] *)
Definition group (m : groups) (i : nat) : outcome (option string) :=
  match nth_error m i with
  | Some v => Returned v
  | None => Raised (IndexError "no such group")
  end.

(** The tuple [re.findall] yields for a match: groups 1.., an unmatched
    group as the empty string. *)
Definition group_tuple (g : groups) : list string :=
  map (fun v => match v with Some t => t | None => EmptyString end) (tl g).

(** [re.findall]: the matches from left to right, not overlapping.
    [skip] counts the characters of the last match still to pass. *)
Fixpoint findall_go (r : regex) (skip : nat) (prv : option ascii) (s : string)
  : list (list string) :=
  let next (skip' : nat) :=
    match s with
    | EmptyString => []
    | String c s' => findall_go r skip' (Some c) s'
    end in
  match skip with
  | S k => next k
  | O =>
      match match_at r false prv s with
      | None => next 0
      | Some (S n, g) => group_tuple g :: next n
      | Some (O, g) =>
          group_tuple g ::
          match match_at r true prv s with
          | Some (S n, g') => group_tuple g' :: next n
          | _ => next 0
          end
      end
  end.

Definition findall (r : regex) (s : string) : list (list string) :=
  findall_go r 0 None s.

(** [re.subn] with a function as replacement: every match is replaced
    by what [repl] returns for it; the count of replacements comes with
    the new text. *)
Section Subn.
Variable r : regex.
Variable repl : groups -> outcome string.
Local Open Scope outcome_scope.

Fixpoint subn_go (skip : nat) (prv : option ascii) (s : string)
  : outcome (string * nat) :=
  let next (skip' : nat) :=
    match s with
    | EmptyString => Returned (EmptyString, 0)
    | String c s' => subn_go skip' (Some c) s'
    end in
  let copy :=
    match s with
    | EmptyString => Returned (EmptyString, 0)
    | String c s' =>
        '(out, n) <- subn_go 0 (Some c) s' ;;
        Returned (String c out, n)
    end in
  let hit (g : groups) (rest : outcome (string * nat)) :=
    piece <- repl g ;;
    '(out, n) <- rest ;;
    Returned (piece ++ out, S n) in
  match skip with
  | S k => next k
  | O =>
      match match_at r false prv s with
      | None => copy
      | Some (S n, g) => hit g (next n)
      | Some (O, g) =>
          hit g
            match match_at r true prv s with
            | Some (S n, g') => hit g' (next n)
            | _ => copy
            end
      end
  end.

Definition subn_with : string -> outcome (string * nat) := subn_go 0 None.

End Subn.

(** Replacement templates: literal text and [\i] group references. *)
Inductive titem : Type :=
| TLit (t : string)
| TRef (i : nat).

Definition template : Type := list titem.

(** A reference to a group the pattern does not have is refused when
    the template is compiled. *)
Definition template_ok (r : regex) (t : template) : bool :=
  forallb (fun it =>
             match it with
             | TLit _ => true
             | TRef i => (i <=? ngroups r)%nat
             end) t.

(** A group that did not take part in the match expands to nothing. *)
Fixpoint expand (t : template) (g : groups) : string :=
  match t with
  | [] => EmptyString
  | TLit l :: t' => l ++ expand t' g
  | TRef i :: t' =>
      match nth i g None with
      | Some v => v ++ expand t' g
      | None => expand t' g
      end
  end.

(** [re.subn] and [re.sub] with a template. *)
Definition subn (r : regex) (t : template) (s : string) : outcome (string * nat) :=
  if template_ok r t
  then subn_with r (fun g => Returned (expand t g)) s
  else Raised (ReError "invalid group reference").

Definition sub (r : regex) (t : template) (s : string) : outcome string :=
  obind (subn r t s) (fun res => Returned (fst res)).

(** The matches of a pattern, as a relation between the cursor before
    and the cursor after: what the matcher may hand to its continuation. *)
Inductive matches : regex -> cursor -> cursor -> Prop :=
| matches_lit l cu p s n :
    read_lit l (prev cu) (rest cu) (pos cu) = Some (p, s, n) ->
    matches (Lit l) cu (Cursor p s n (caps cu))
| matches_rep cls min cu w s :
    rest cu = w ++ s ->
    all cls w = true ->
    min <= String.length w ->
    matches (Rep cls min) cu
      (Cursor (last_char w (prev cu)) s (pos cu + String.length w) (caps cu))
| matches_bound cu :
    xorb (word_at (prev cu)) (word_at (first_char (rest cu))) = true ->
    matches Bound cu cu
| matches_group i r cu cu' :
    matches r cu cu' ->
    matches (Group i r) cu
      (Cursor (prev cu') (rest cu') (pos cu')
         (set_group i (take (pos cu' - pos cu) (rest cu)) (caps cu')))
| matches_opt_some r cu cu' :
    matches r cu cu' ->
    matches (Opt r) cu cu'
| matches_opt_none r cu :
    matches (Opt r) cu cu
| matches_cat r1 r2 cu cu1 cu2 :
    matches r1 cu cu1 ->
    matches r2 cu1 cu2 ->
    matches (Cat r1 r2) cu cu2.

(** The text a total call of [sub] returns. *)
Definition sub_value (r : regex) (t : template) (s : string) : string :=
  match sub r t s with
  | Returned s' => s'
  | Raised _ => s
  end.

(** The class [cls] does not go on at the head of [s]. *)
Definition stops (cls : ascii -> bool) (s : string) : Prop :=
  match s with
  | EmptyString => True
  | String c _ => cls c = false
  end.

(** [repl] returns on the groups of every match of [r]. *)
Definition repl_total (r : regex) (repl : groups -> outcome string) : Prop :=
  forall adv prv s n g,
    match_at r adv prv s = Some (n, g) -> exists piece, repl g = Returned piece.

(** From [cu] to [cu'] the matcher has taken the text [w]. *)
Definition spans (cu : cursor) (w : string) (cu' : cursor) : Prop :=
  rest cu = w ++ rest cu' /\ pos cu' = pos cu + String.length w.

(** Every match of the pattern has the character [x] in it: some
    literal of the pattern that no match can skip has it. *)
Fixpoint demands (x : ascii) (r : regex) : bool :=
  match r with
  | Lit l => negb (count_char x l =? 0)%nat
  | Group _ r' => demands x r'
  | Cat r1 r2 => demands x r1 || demands x r2
  | Rep _ _ | Bound | Opt _ => false
  end.

End Re.

(* ================================================================= *)
(** ** [GodotMigrator] in [migrate_godot3_to_4.py] *)

Module Migrate.
Import Re.

(** The two variables [migrate_file] updates while it goes through its
    rules. *)
Record locals : Type := Locals {
  l_content : string;
  l_changes : list string
}.

Definition M (A : Type) : Type := locals -> outcome (A * locals).

Definition ret {A} (a : A) : M A := fun st => Returned (a, st).

Definition bind {A B} (m : M A) (k : A -> M B) : M B :=
  fun st =>
    match m st with
    | Returned (a, st') => k a st'
    | Raised e => Raised e
    end.

Definition lift {A} (o : outcome A) : M A :=
  fun st =>
    match o with
    | Returned a => Returned (a, st)
    | Raised e => Raised e
    end.

Definition get_content : M string := fun st => Returned (l_content st, st).

Definition set_content (c : string) : M unit :=
  fun st => Returned (tt, Locals c (l_changes st)).

(** [local_changes.append(msg)] *)
Definition append_change (msg : string) : M unit :=
  fun st => Returned (tt, Locals (l_content st) (l_changes st ++ [msg])%list).

Definition when (b : bool) (m : M unit) : M unit :=
  if b then m else ret tt.

Fixpoint for_each {A} (l : list A) (body : A -> M unit) : M unit :=
  match l with
  | [] => ret tt
  | x :: l' => bind (body x) (fun _ => for_each l' body)
  end.

Declare Scope migrate_scope.
Delimit Scope migrate_scope with migrate.
Notation "x <- m ;; k" := (bind m (fun x => k))
  (at level 61, m at next level, right associativity) : migrate_scope.
Notation "m ;; k" := (bind m (fun _ => k))
  (at level 61, right associativity) : migrate_scope.
Local Open Scope migrate_scope.

Definition nonempty {A} (l : list A) : bool :=
  match l with
  | [] => false
  | _ :: _ => true
  end.

(** *** The patterns *)

(* \b(\w+)\.instance\( *)
Definition instance_pattern : regex :=
  seq [Bound; Group 1 (Rep is_word 1); Lit ".instance("].

(* \s*randomize\(\)\s*\n *)
Definition randomize_pattern : regex :=
  seq [Rep is_space 0; Lit "randomize()"; Rep is_space 0; Lit (chr newline)].

(* export\((\w+)\)\s+var\s+(\w+) *)
Definition export_pattern : regex :=
  seq [Lit "export("; Group 1 (Rep is_word 1); Lit ")"; Rep is_space 1;
       Lit "var"; Rep is_space 1; Group 2 (Rep is_word 1)].

(* export\(\w+,\s*\d+ *)
Definition export_range_pattern : regex :=
  seq [Lit "export("; Rep is_word 1; Lit ","; Rep is_space 0; Rep is_digit 1].

(* r'\b' + old + r'\b' *)
Definition whole_word (old : string) : regex := seq [Bound; Lit old; Bound].

(* move_and_slide\([^)]+\) *)
Definition move_and_slide_pattern : regex :=
  seq [Lit "move_and_slide("; Rep (is_not ")") 1; Lit ")"].

(** *** The rules, in the order of [migrate_file] *)

(* 1. File API: File.new() -> FileAccess.open() *)
Definition flag_file_api : M unit :=
  content <- get_content ;;
  when (contains "File.new()" content || contains "var file = File" content)
    (append_change "⚠️  MANUAL: File API needs migration to FileAccess").

(* 2. instance() -> instantiate() *)
Definition rule_instance : M unit :=
  let pattern := instance_pattern in
  content <- get_content ;;
  when (found (search pattern content)) (
    content <- lift (sub pattern [TRef 1; TLit ".instantiate("] content) ;;
    set_content content ;;
    append_change "instance() → instantiate()").

(** A rule of the form
    [if old in content: content = content.replace(old, new); append(msg)]. *)
Definition rule_replace (old new msg : string) : M unit :=
  content <- get_content ;;
  when (contains old content) (
    set_content (replace old new content) ;;
    append_change msg).

(* 3. rand_range() -> randf_range() *)
Definition rule_rand_range : M unit :=
  rule_replace "rand_range(" "randf_range(" "rand_range() → randf_range()".

(* 4. Remove randomize() calls *)
Definition rule_randomize : M unit :=
  let pattern := randomize_pattern in
  content <- get_content ;;
  when (found (search pattern content)) (
    content <- lift (sub pattern [] content) ;;
    set_content content ;;
    append_change "Removed randomize() call (automatic in Godot 4)").

(* 5. deg2rad() -> deg_to_rad() *)
Definition rule_deg2rad : M unit :=
  rule_replace "deg2rad(" "deg_to_rad(" "deg2rad() → deg_to_rad()".

(* 6. rad2deg() -> rad_to_deg() *)
Definition rule_rad2deg : M unit :=
  rule_replace "rad2deg(" "rad_to_deg(" "rad2deg() → rad_to_deg()".

(* 7. Button constants *)
Definition rule_button_left : M unit :=
  rule_replace "BUTTON_LEFT" "MOUSE_BUTTON_LEFT" "BUTTON_LEFT → MOUSE_BUTTON_LEFT".

Definition rule_button_right : M unit :=
  rule_replace "BUTTON_RIGHT" "MOUSE_BUTTON_RIGHT" "BUTTON_RIGHT → MOUSE_BUTTON_RIGHT".

Definition rule_button_middle : M unit :=
  rule_replace "BUTTON_MIDDLE" "MOUSE_BUTTON_MIDDLE" "BUTTON_MIDDLE → MOUSE_BUTTON_MIDDLE".

(* 8. export syntax - simple cases: export(int) -> @export *)
Definition export_message (n : nat) : string :=
  "export(Type) → @export (" ++ str_of_nat n ++ " occurrences)".

Definition rule_export : M unit :=
  let pattern := export_pattern in
  content <- get_content ;;
  let matches := findall pattern content in
  when (nonempty matches) (
    content <- lift (sub pattern [TLit "@export var "; TRef 2] content) ;;
    set_content content ;;
    append_change (export_message (List.length matches))).

(* export(int, range, ...) -> @export_range(...): flagged *)
Definition flag_export_range : M unit :=
  content <- get_content ;;
  when (found (search export_range_pattern content))
    (append_change "⚠️  MANUAL: export() with range needs @export_range()").

(* 9. Export flags - common patterns *)
Definition rule_export_nodepath : M unit :=
  rule_replace "export(NodePath)" "@export" "export(NodePath) → @export".

Definition rule_export_packedscene : M unit :=
  rule_replace "export(PackedScene)" "@export" "export(PackedScene) → @export".

(* 10. Node type renames *)
Definition node_renames : list (string * string) :=
  [("KinematicBody2D", "CharacterBody2D");
   ("KinematicBody", "CharacterBody3D");
   ("Spatial", "Node3D")].

(** The body of the loop, for one pair of [node_renames].  The names
    of the table are plain words: [old] is its own pattern, and [new],
    having no backslash, is a template that [re.sub] copies as it is. *)
Definition rename_node (old new : string) : M unit :=
  content <- get_content ;;
  when (contains old content) (
    let pattern := whole_word old in
    when (found (search pattern content)) (
      content <- lift (sub pattern [TLit new] content) ;;
      set_content content ;;
      append_change (old ++ " → " ++ new))).

Definition rule_node_renames : M unit :=
  for_each node_renames (fun '(old, new) => rename_node old new).

(* 11. move_and_slide() changes *)
Definition flag_move_and_slide : M unit :=
  let pattern := move_and_slide_pattern in
  content <- get_content ;;
  when (found (search pattern content))
    (append_change
       "⚠️  MANUAL: move_and_slide() API changed - now uses velocity property").

(* 13. Flag super() calls needed *)
Definition flag_super_ready : M unit :=
  content <- get_content ;;
  when (found (search (Lit "func _ready(") content)
        && negb (contains "super._ready()" content))
    (append_change
       "⚠️  CONSIDER: Add super._ready() call if extending custom class").

Definition flag_super_process : M unit :=
  content <- get_content ;;
  when (found (search (Lit "func _process(") content)
        && negb (contains "super._process(" content))
    (append_change
       "⚠️  CONSIDER: Add super._process() call if extending custom class").

(* 14. Tween changes *)
Definition flag_tween : M unit :=
  content <- get_content ;;
  when (contains "Tween.new()" content || contains "$Tween" content)
    (append_change "⚠️  MANUAL: Tween is no longer a node - use create_tween()").

(* 15. get_tree().get_root() -> get_tree().root *)
Definition rule_get_root : M unit :=
  rule_replace "get_tree().get_root()" "get_tree().root"
    "get_tree().get_root() → get_tree().root".

(* 16. OS.get_screen_size() -> DisplayServer.screen_get_size() *)
Definition rule_screen_size : M unit :=
  rule_replace "OS.get_screen_size(" "DisplayServer.screen_get_size("
    "OS.get_screen_size() → DisplayServer.screen_get_size()".

(* 17. yield() -> await *)
Definition flag_yield : M unit :=
  content <- get_content ;;
  when (contains "yield(" content)
    (append_change "⚠️  MANUAL: yield() → await (syntax change required)").

(* 18. weakref() *)
Definition flag_weakref : M unit :=
  content <- get_content ;;
  when (contains "weakref(" content)
    (append_change "⚠️  MANUAL: WeakRef.get_ref() → WeakRef.get()").

(* 20. Global scope changes *)
Definition rule_var2str : M unit :=
  rule_replace "var2str(" "var_to_str(" "var2str() → var_to_str()".

Definition rule_str2var : M unit :=
  rule_replace "str2var(" "str_to_var(" "str2var() → str_to_var()".

(* 21. Physics/Collision changes *)
Definition flag_extents : M unit :=
  content <- get_content ;;
  when (contains ".extents" content)
    (append_change
       "⚠️  MANUAL: .extents → .size (and multiply by 2 for collision shapes)").

(** The body of [migrate_file] between the reading of the file and the
    return. *)
Definition rules : M unit :=
  flag_file_api ;;
  rule_instance ;;
  rule_rand_range ;;
  rule_randomize ;;
  rule_deg2rad ;;
  rule_rad2deg ;;
  rule_button_left ;;
  rule_button_right ;;
  rule_button_middle ;;
  rule_export ;;
  flag_export_range ;;
  rule_export_nodepath ;;
  rule_export_packedscene ;;
  rule_node_renames ;;
  flag_move_and_slide ;;
  flag_super_ready ;;
  flag_super_process ;;
  flag_tween ;;
  rule_get_root ;;
  rule_screen_size ;;
  flag_yield ;;
  flag_weakref ;;
  rule_var2str ;;
  rule_str2var ;;
  flag_extents.

(** [migrate_file], from the text read from [file_path] on: the new
    content ([None] when it is the original one) and the list of
    changes. *)
Definition migrate_file (text : string) : outcome (option string * list string) :=
  let original_content := text in
  match rules (Locals text []) with
  | Returned (_, st) =>
      if negb (String.eqb (l_content st) original_content)
      then Returned (Some (l_content st), l_changes st)
      else Returned (None, l_changes st)
  | Raised e => Raised e
  end.

(** *** [migrate_directory] *)

(** What [migrate_directory] does to the outside: lines printed and
    files written. *)
Inductive effect : Type :=
| Printed (line : string)
| Written (path : string) (text : string).

Record tally : Type := Tally {
  files_changed : nat;
  total_changes : nat;
  effects : list effect
}.

Definition say (line : string) (t : tally) : tally :=
  Tally (files_changed t) (total_changes t) (effects t ++ [Printed line])%list.

Definition write_file (path text : string) (t : tally) : tally :=
  Tally (files_changed t) (total_changes t) (effects t ++ [Written path text])%list.

(** The marker of the changes left to the user. *)
Definition warning_sign : string := "⚠️".

(** The body of [for change in changes]. *)
Definition report_change (t : tally) (change : string) : tally :=
  let t := say ("   • " ++ change) t in
  if negb (startswith warning_sign change)
  then Tally (files_changed t) (total_changes t + 1) (effects t)
  else t.

(** The body of [for file_path in sorted(gd_files)]; a file is given by
    its path relative to the directory and its text. *)
Definition visit (dry_run : bool) (t : tally) (file : string * string)
  : outcome tally :=
  let '(rel_path, text) := file in
  obind (migrate_file text) (fun '(new_content, changes) =>
    if nonempty changes then
      let t := say (chr newline ++ "📄 " ++ rel_path) t in
      let t := fold_left report_change changes t in
      match new_content with
      | Some new_text =>
          let t := Tally (files_changed t + 1) (total_changes t) (effects t) in
          if negb dry_run
          then Returned (say "   ✅ File updated" (write_file rel_path new_text t))
          else Returned (say "   🔍 File would be updated (dry run)" t)
      | None => Returned t
      end
    else Returned t).

Fixpoint visit_all (dry_run : bool) (t : tally) (files : list (string * string))
  : outcome tally :=
  match files with
  | [] => Returned t
  | file :: files' =>
      obind (visit dry_run t file) (fun t' => visit_all dry_run t' files')
  end.

(** [migrate_directory]: [gd_files] is [sorted(directory.rglob("*.gd"))]
    with the text of each file. *)
Definition migrate_directory (gd_files : list (string * string)) (dry_run : bool)
  : outcome tally :=
  let t := Tally 0 0 [] in
  let t := say ("Found " ++ str_of_nat (List.length gd_files)
                ++ " GDScript files to migrate") t in
  let t := say (times "=" 60) t in
  obind (visit_all dry_run t gd_files) (fun t =>
    let t := say (chr newline ++ times "=" 60) t in
    let t := say "Summary:" t in
    let t := say ("  Files scanned: " ++ str_of_nat (List.length gd_files)) t in
    let t := say ("  Files modified: " ++ str_of_nat (files_changed t)) t in
    let t := say ("  Automatic changes: " ++ str_of_nat (total_changes t)) t in
    let t := say ("  Mode: " ++ (if dry_run then "DRY RUN" else "APPLIED")) t in
    Returned t).

(** *** The rules as a catalog

    A rule either rewrites the content and records one change, or only
    flags the content for the user. *)
Inductive entry : Type :=
| Mechanical (m : M unit)
| Advisory (detect : string -> bool) (msg : string).

Definition flag (detect : string -> bool) (msg : string) : M unit :=
  content <- get_content ;;
  when (detect content) (append_change msg).

Definition step (e : entry) : M unit :=
  match e with
  | Mechanical m => m
  | Advisory detect msg => flag detect msg
  end.

Fixpoint run (es : list entry) : M unit :=
  match es with
  | [] => ret tt
  | e :: es' => step e ;; run es'
  end.

Definition catalog : list entry :=
  [ Advisory (fun content =>
       contains "File.new()" content || contains "var file = File" content)
      "⚠️  MANUAL: File API needs migration to FileAccess";
    Mechanical rule_instance;
    Mechanical rule_rand_range;
    Mechanical rule_randomize;
    Mechanical rule_deg2rad;
    Mechanical rule_rad2deg;
    Mechanical rule_button_left;
    Mechanical rule_button_right;
    Mechanical rule_button_middle;
    Mechanical rule_export;
    Advisory (fun content => found (search export_range_pattern content))
      "⚠️  MANUAL: export() with range needs @export_range()";
    Mechanical rule_export_nodepath;
    Mechanical rule_export_packedscene;
    Mechanical (rename_node "KinematicBody2D" "CharacterBody2D");
    Mechanical (rename_node "KinematicBody" "CharacterBody3D");
    Mechanical (rename_node "Spatial" "Node3D");
    Advisory (fun content => found (search move_and_slide_pattern content))
      "⚠️  MANUAL: move_and_slide() API changed - now uses velocity property";
    Advisory (fun content =>
       found (search (Lit "func _ready(") content)
       && negb (contains "super._ready()" content))
      "⚠️  CONSIDER: Add super._ready() call if extending custom class";
    Advisory (fun content =>
       found (search (Lit "func _process(") content)
       && negb (contains "super._process(" content))
      "⚠️  CONSIDER: Add super._process() call if extending custom class";
    Advisory (fun content =>
       contains "Tween.new()" content || contains "$Tween" content)
      "⚠️  MANUAL: Tween is no longer a node - use create_tween()";
    Mechanical rule_get_root;
    Mechanical rule_screen_size;
    Advisory (fun content => contains "yield(" content)
      "⚠️  MANUAL: yield() → await (syntax change required)";
    Advisory (fun content => contains "weakref(" content)
      "⚠️  MANUAL: WeakRef.get_ref() → WeakRef.get()";
    Mechanical rule_var2str;
    Mechanical rule_str2var;
    Advisory (fun content => contains ".extents" content)
      "⚠️  MANUAL: .extents → .size (and multiply by 2 for collision shapes)" ].

(** A change left to the user, as [migrate_directory] tells it. *)
Definition is_advisory (change : string) : bool := startswith warning_sign change.

(** The flags of [es] raised by the content [c]. *)
Fixpoint flags_of (es : list entry) (c : string) : list string :=
  match es with
  | [] => []
  | Mechanical _ :: es' => flags_of es' c
  | Advisory detect msg :: es' =>
      if detect c then msg :: flags_of es' c else flags_of es' c
  end.

(** The rewriting rules of [es], without the flags. *)
Fixpoint mechanical_only (es : list entry) : list entry :=
  match es with
  | [] => []
  | Mechanical m :: es' => Mechanical m :: mechanical_only es'
  | Advisory _ _ :: es' => mechanical_only es'
  end.

(** What a rewriting rule is: when it fires on the content it rewrites
    it and records one change without the warning sign; otherwise it
    leaves both variables alone.  It never raises. *)
Definition is_rule (m : M unit) : Prop :=
  exists (fires : string -> bool) (rewrite msg : string -> string),
    (forall c, is_advisory (msg c) = false) /\
    forall st,
      m st = Returned (tt,
        if fires (l_content st)
        then Locals (rewrite (l_content st))
                    (l_changes st ++ [msg (l_content st)])%list
        else st).

Definition well_formed (e : entry) : Prop :=
  match e with
  | Mechanical m => is_rule m
  | Advisory _ msg => is_advisory msg = true
  end.

(** The changes of a list that [migrate_directory] counts. *)
Definition automatic (changes : list string) : list string :=
  filter (fun change => negb (is_advisory change)) changes.

(** The files written in the course of a run. *)
Definition writes (t : tally) : list (string * string) :=
  flat_map (fun e => match e with
                     | Written path text => [(path, text)]
                     | Printed _ => []
                     end)
    (effects t).

(** The changes [migrate_file] reports for a text. *)
Definition changes_of (text : string) : list string :=
  match migrate_file text with
  | Returned (_, changes) => changes
  | Raised _ => []
  end.

(** A list of changes with flags only. *)
Definition all_advisory (changes : list string) : Prop :=
  Forall (fun change => is_advisory change = true) changes.

(** A simple typed-export declaration, followed by [post]. *)
Definition declaration (type ws1 ws2 name post : string) : string :=
  "export(" ++ type ++ ")" ++ ws1 ++ "var" ++ ws2 ++ name ++ post.

(** A step edits the content exactly when it records a change without
    the warning sign. *)
Definition records_edits (m : M unit) : Prop :=
  forall st st',
    m st = Returned (tt, st') ->
    (l_content st' <> l_content st <->
     exists msg, l_changes st' = (l_changes st ++ [msg])%list
                 /\ is_advisory msg = false).

(** The content [migrate_file] returns for a text. *)
Definition new_content_of (text : string) : option string :=
  match migrate_file text with
  | Returned (content, _) => content
  | Raised _ => None
  end.

(** The content a rule of the form [rule_replace old new] leaves. *)
Definition replaced (old new content : string) : string :=
  if contains old content then replace old new content else content.

(** The rules that rename a function: what is looked for, what is put
    there, and the change recorded. *)
Definition function_renames : list (string * string * string) :=
  [ ("rand_range(", "randf_range(", "rand_range() → randf_range()");
    ("deg2rad(", "deg_to_rad(", "deg2rad() → deg_to_rad()");
    ("rad2deg(", "rad_to_deg(", "rad2deg() → rad_to_deg()");
    ("OS.get_screen_size(", "DisplayServer.screen_get_size(",
     "OS.get_screen_size() → DisplayServer.screen_get_size()");
    ("var2str(", "var_to_str(", "var2str() → var_to_str()");
    ("str2var(", "str_to_var(", "str2var() → str_to_var()") ].

(** The text of a file after [migrate_file]: the new content, or the
    text as it was. *)
Definition migrated (text : string) : string :=
  match new_content_of text with
  | Some content => content
  | None => text
  end.

(** The files of a listing whose content [migrate_file] changes, with
    their new content. *)
Fixpoint rewritten (files : list (string * string)) : list (string * string) :=
  match files with
  | [] => []
  | (rel_path, text) :: files' =>
      match new_content_of text with
      | Some new_text => (rel_path, new_text) :: rewritten files'
      | None => rewritten files'
      end
  end.

(** The characters one of which every rule of the catalog needs to
    fire: [( . B K S F T]. *)
Definition trigger (c : ascii) : bool :=
  existsb (Ascii.eqb c) ["("; "."; "B"; "K"; "S"; "F"; "T"]%char.

Definition quiet (text : string) : bool := all (fun c => negb (trigger c)) text.

(** An occurrence of [old] in the content with no letter, digit or
    underscore right before it or right after it. *)
Definition standalone (old content : string) : Prop :=
  exists pre post,
    content = pre ++ old ++ post /\
    word_at (last_char pre None) = false /\
    word_at (first_char post) = false.

(** A call of [move_and_slide] with something between its
    parentheses, up to the first closing one. *)
Definition with_arguments (content : string) : Prop :=
  exists pre args post,
    content = pre ++ "move_and_slide(" ++ args ++ ")" ++ post /\
    args <> EmptyString /\ all (is_not ")") args = true.

End Migrate.

(* ================================================================= *)
(** ** [fix_connect_calls.py] *)

Module FixConnect.
Import Re.
Local Open Scope outcome_scope.

Definition q : string := chr dquote.

(* \.connect\("([^"]+)",\s*(\w+),\s*"([^"]+)"(\s*,\s*\[[^\]]*\])?\) *)
Definition pattern : regex :=
  seq [Lit (".connect(" ++ q); Group 1 (Rep (is_not dquote) 1); Lit (q ++ ",");
       Rep is_space 0; Group 2 (Rep is_word 1); Lit ","; Rep is_space 0;
       Lit q; Group 3 (Rep (is_not dquote) 1); Lit q;
       Opt (Group 4 (seq [Rep is_space 0; Lit ","; Rep is_space 0; Lit "[";
                          Rep (is_not "]") 0; Lit "]"]));
       Lit ")"].

(** A group in an f-string. *)
Definition fmt (v : option string) : string :=
  match v with
  | Some t => t
  | None => "None"
  end.

(** Truth value of a group. *)
Definition truthy (v : option string) : bool :=
  match v with
  | Some (String _ _) => true
  | _ => false
  end.

Definition replacer (m : groups) : outcome string :=
  signal_name <- group m 1 ;;
  object_name <- group m 2 ;;
  method_name <- group m 3 ;;
  g4 <- group m 4 ;;
  params <- (if truthy g4 then obind (group m 4) (fun v => Returned (fmt v))
             else Returned EmptyString) ;;
  match params with
  | String _ _ =>
      (* With parameters *)
      Returned (".connect(" ++ q ++ fmt signal_name ++ q ++ ", Callable("
                ++ fmt object_name ++ ", " ++ q ++ fmt method_name ++ q
                ++ ").bind(" ++ drop 1 (strip params))
  | EmptyString =>
      (* Without parameters *)
      Returned (".connect(" ++ q ++ fmt signal_name ++ q ++ ", Callable("
                ++ fmt object_name ++ ", " ++ q ++ fmt method_name ++ q ++ "))")
  end.

Definition fix_connect_calls (content : string) : outcome (string * nat) :=
  '(new_content, count) <- subn_with pattern replacer content ;;
  Returned (new_content, count).

(** A call without the list of parameters, followed by [post]. *)
Definition call (sig ws1 obj ws2 meth post : string) : string :=
  ".connect(" ++ q ++ sig ++ q ++ "," ++ ws1 ++ obj ++ "," ++ ws2
  ++ q ++ meth ++ q ++ ")" ++ post.

(** What the call is to become. *)
Definition callable (sig obj meth post : string) : string :=
  ".connect(" ++ q ++ sig ++ q ++ ", Callable(" ++ obj ++ ", "
  ++ q ++ meth ++ q ++ "))" ++ post.

(** A call with the bracketed list of parameters, followed by [post]. *)
Definition call_with_params
    (sig ws1 obj ws2 meth ws3 ws4 inner post : string) : string :=
  ".connect(" ++ q ++ sig ++ q ++ "," ++ ws1 ++ obj ++ "," ++ ws2
  ++ q ++ meth ++ q ++ ws3 ++ "," ++ ws4 ++ "[" ++ inner ++ "]" ++ ")" ++ post.

(** The text of its group 4. *)
Definition params_text (ws3 ws4 inner : string) : string :=
  ws3 ++ "," ++ ws4 ++ "[" ++ inner ++ "]".

(** What [replacer] makes of it. *)
Definition bound_callable (sig obj meth ws4 inner post : string) : string :=
  ".connect(" ++ q ++ sig ++ q ++ ", Callable(" ++ obj ++ ", "
  ++ q ++ meth ++ q ++ ").bind(" ++ ws4 ++ "[" ++ inner ++ "]" ++ post.

(** *** [main] of [fix_connect_calls.py]

    The loop over [sorted(gd_files)]; a file is given by its path
    relative to the parent of the directory and its text. *)
Record fix_tally : Type := FixTally {
  total_fixed : nat;       (* total_changes *)
  files_modified : nat;
  fix_effects : list Migrate.effect
}.

Definition fix_visit (t : fix_tally) (file : string * string) : outcome fix_tally :=
  let '(rel_path, content) := file in
  '(new_content, count) <- fix_connect_calls content ;;
  if (0 <? count)%nat then
    Returned
      (FixTally (total_fixed t + count) (files_modified t + 1)
         (fix_effects t
          ++ [Migrate.Written rel_path new_content;
              Migrate.Printed ("✅ " ++ rel_path ++ ": " ++ str_of_nat count
                               ++ " connect() calls fixed")])%list)
  else Returned t.

Fixpoint fix_visit_all (t : fix_tally) (files : list (string * string))
  : outcome fix_tally :=
  match files with
  | [] => Returned t
  | file :: files' => t' <- fix_visit t file ;; fix_visit_all t' files'
  end.

Definition fix_main (gd_files : list (string * string)) : outcome fix_tally :=
  t <- fix_visit_all (FixTally 0 0 []) gd_files ;;
  Returned
    (FixTally (total_fixed t) (files_modified t)
       (fix_effects t
        ++ [Migrate.Printed (chr newline ++ "📊 Summary: "
                             ++ str_of_nat (total_fixed t) ++ " calls fixed in "
                             ++ str_of_nat (files_modified t) ++ " files")])%list).

(** The files written by a run. *)
Definition fix_writes (t : fix_tally) : list (string * string) :=
  flat_map (fun e => match e with
                     | Migrate.Written path text => [(path, text)]
                     | Migrate.Printed _ => []
                     end)
    (fix_effects t).

(** The number of matches of the pattern in a text. *)
Definition matches_in (content : string) : nat :=
  List.length (findall pattern content).

(** The text [fix_connect_calls] returns. *)
Definition fixed (content : string) : string :=
  match fix_connect_calls content with
  | Returned (new_content, _) => new_content
  | Raised _ => content
  end.

(** The files of a listing with a match, with their new text. *)
Fixpoint fixed_files (files : list (string * string)) : list (string * string) :=
  match files with
  | [] => []
  | (rel_path, content) :: files' =>
      if (0 <? matches_in content)%nat
      then (rel_path, fixed content) :: fixed_files files'
      else fixed_files files'
  end.

End FixConnect.

(* ================================================================= *)
(** * Properties *)

(** ** Strings *)

Module TextFacts.

Lemma app_nil_r (s : string) : s ++ EmptyString = s.
Proof. induction s as [|c s IH]; simpl; [reflexivity | now rewrite IH]. Qed.

Lemma app_assoc (a b c : string) : (a ++ b) ++ c = a ++ (b ++ c).
Proof. induction a as [|x a IH]; simpl; [reflexivity | now rewrite IH]. Qed.

Lemma length_app (a b : string) :
  String.length (a ++ b) = String.length a + String.length b.
Proof. induction a as [|x a IH]; simpl; [reflexivity | now rewrite IH]. Qed.

Lemma take_app (w s : string) : take (String.length w) (w ++ s) = w.
Proof. induction w as [|x w IH]; simpl; [now destruct s | now rewrite IH]. Qed.

Lemma drop_app (w s : string) : drop (String.length w) (w ++ s) = s.
Proof. induction w as [|x w IH]; simpl; [reflexivity | exact IH]. Qed.

Lemma take_drop (n : nat) (s : string) : take n s ++ drop n s = s.
Proof.
  revert s; induction n as [|n IH]; intros [|c s]; simpl; try reflexivity.
  now rewrite IH.
Qed.

Lemma count_char_app (x : ascii) (a b : string) :
  count_char x (a ++ b) = count_char x a + count_char x b.
Proof. induction a as [|c a IH]; simpl; [reflexivity | rewrite IH; lia]. Qed.

Lemma all_app (cls : ascii -> bool) (a b : string) :
  all cls (a ++ b) = all cls a && all cls b.
Proof.
  induction a as [|c a IH]; simpl; [reflexivity|].
  now rewrite IH, andb_assoc.
Qed.

Lemma count_char_all (cls : ascii -> bool) (x : ascii) (s : string) :
  cls x = false -> all cls s = true -> count_char x s = 0.
Proof.
  intros Hx; induction s as [|c s IH]; simpl; [reflexivity|].
  intros H; apply andb_true_iff in H as [Hc Hs].
  destruct (Ascii.eqb_spec c x) as [->|_]; [congruence | now rewrite IH].
Qed.

Lemma nonempty_length (s : string) : s <> EmptyString -> 1 <= String.length s.
Proof. destruct s; [congruence | simpl; lia]. Qed.

Lemma startswith_nil (s : string) : startswith EmptyString s = true.
Proof. now destruct s. Qed.

Lemma word_not_space (c : ascii) : is_word c = true -> is_space c = false.
Proof.
  destruct c as [[] [] [] [] [] [] [] []]; vm_compute; congruence.
Qed.

Lemma lstrip_spaces (w : string) (c : ascii) (t : string) :
  all is_space w = true -> is_space c = false ->
  lstrip (w ++ String c t) = String c t.
Proof.
  intros Hw Hc; induction w as [|x w IH]; simpl in *.
  - now rewrite Hc.
  - apply andb_true_iff in Hw as [Hx Hw]. rewrite Hx. now apply IH.
Qed.

Lemma rstrip_nonempty (s : string) (c : ascii) :
  is_space c = false -> rstrip (s ++ chr c) = s ++ chr c.
Proof.
  intros Hc; induction s as [|x s IH]; simpl.
  - now rewrite Hc.
  - rewrite IH. destruct (s ++ chr c) eqn:E; [now destruct s | reflexivity].
Qed.

Lemma prefix_app (old s : string) : prefix old (old ++ s) = true.
Proof.
  induction old as [|a old IH]; cbn [append prefix]; [now destruct s|].
  destruct (ascii_dec a a) as [_|N]; [exact IH | now destruct N].
Qed.

Lemma contains_prefix (old s : string) : contains old (old ++ s) = true.
Proof.
  destruct (old ++ s) eqn:E; cbn [contains]; unfold startswith;
    rewrite <- E, prefix_app; reflexivity.
Qed.

Lemma replace_go_skip (old new w : string) :
  forall s,
    replace_go old new (String.length w) (w ++ s) = replace_go old new 0 s.
Proof.
  induction w as [|c w IH]; intros s; cbn [append String.length].
  - reflexivity.
  - cbn [replace_go]. apply IH.
Qed.

(** An occurrence at the position is replaced, and the scan goes on
    after it. *)
Lemma replace_go_hit (a : ascii) (old' new s : string) :
  replace_go (String a old') new 0 (String a old' ++ s)
  = new ++ replace_go (String a old') new 0 s.
Proof.
  cbn [append replace_go]. unfold startswith.
  change (String a (old' ++ s)) with (String a old' ++ s).
  rewrite prefix_app. cbn [String.length pred]. now rewrite replace_go_skip.
Qed.

End TextFacts.

(** ** The matcher *)

Module ReFacts.
Import Re TextFacts.

Lemma read_lit_spec (l : string) :
  forall p s n p' s' n',
    read_lit l p s n = Some (p', s', n') ->
    s = l ++ s' /\ n' = n + String.length l /\ p' = last_char l p.
Proof.
  induction l as [|a l IH]; simpl; intros p s n p' s' n' H.
  - inversion H; subst. repeat split. lia.
  - destruct s as [|c s]; [discriminate|].
    destruct (Ascii.eqb_spec a c) as [->|_]; [|discriminate].
    apply IH in H as (-> & -> & ->). repeat split. lia.
Qed.

Lemma read_lit_app (l : string) :
  forall p s n,
    read_lit l p (l ++ s) n = Some (last_char l p, s, n + String.length l).
Proof.
  induction l as [|a l IH]; simpl; intros p s n.
  - now rewrite Nat.add_0_r.
  - rewrite Ascii.eqb_refl, IH. do 2 f_equal. lia.
Qed.

Section Exec.
Context {R : Type}.

Lemma rep_sound (cls : ascii -> bool) (k : cursor -> option R) (g : groups) (x : R) :
  forall s min prv n,
    rep cls min prv s n g k = Some x ->
    exists w s',
      s = w ++ s' /\ all cls w = true /\ min <= String.length w /\
      k (Cursor (last_char w prv) s' (n + String.length w) g) = Some x.
Proof.
  assert (Hstop : forall s min prv n,
    match min with O => k (Cursor prv s n g) | S _ => None end = Some x ->
    exists w s',
      s = w ++ s' /\ all cls w = true /\ min <= String.length w /\
      k (Cursor (last_char w prv) s' (n + String.length w) g) = Some x).
  { intros s [|m] prv n H; [|discriminate].
    exists EmptyString, s. simpl. rewrite Nat.add_0_r. auto. }
  induction s as [|c s IH]; intros min prv n H; simpl in H.
  - now apply Hstop.
  - destruct (cls c) eqn:Hc; [|now apply Hstop].
    destruct (rep cls (pred min) (Some c) s (S n) g k) eqn:E.
    + inversion H; subst r.
      apply IH in E as (w & s' & -> & Hw & Hmin & Hk).
      exists (String c w), s'. simpl. rewrite Hc, Hw.
      repeat split; [lia|].
      now replace (n + S (String.length w)) with (S n + String.length w) by lia.
    + now apply Hstop.
Qed.

Lemma rep_greedy (cls : ascii -> bool) (k : cursor -> option R) (g : groups)
    (s' : string) (x : R) :
  stops cls s' ->
  forall w min prv n,
    all cls w = true ->
    min <= String.length w ->
    k (Cursor (last_char w prv) s' (n + String.length w) g) = Some x ->
    rep cls min prv (w ++ s') n g k = Some x.
Proof.
  intros Hs'. induction w as [|c w IH]; intros min prv n Hw Hmin Hk; simpl in *.
  - assert (min = 0) as -> by lia. rewrite Nat.add_0_r in Hk.
    destruct s' as [|c s']; simpl in *; [assumption|]. now rewrite Hs'.
  - apply andb_true_iff in Hw as [Hc Hw]. rewrite Hc.
    rewrite (IH (pred min) (Some c) (S n)); auto; [lia|].
    now replace (S n + String.length w) with (n + S (String.length w)) by lia.
Qed.

Lemma exec_sound (r : regex) :
  forall (cu : cursor) (k : cursor -> option R) (x : R),
    exec r cu k = Some x ->
    exists cu', matches r cu cu' /\ k cu' = Some x.
Proof.
  induction r as [l|cls min| |i r IH|r IH|r1 IH1 r2 IH2]; intros cu k x H; simpl in H.
  - destruct (read_lit l (prev cu) (rest cu) (pos cu)) as [[[p s] n]|] eqn:E;
      [|discriminate].
    eexists; split; [apply matches_lit; eassumption | assumption].
  - apply rep_sound in H as (w & s' & Hs & Hw & Hmin & Hk).
    eexists; split; [eapply matches_rep; eassumption | assumption].
  - destruct (xorb _ _) eqn:E; [|discriminate].
    eexists; split; [apply matches_bound; assumption | assumption].
  - apply IH in H as (cu' & Hm & Hk).
    eexists; split; [apply matches_group; eassumption | assumption].
  - destruct (exec r cu k) eqn:E.
    + inversion H; subst. apply IH in E as (cu' & Hm & Hk).
      eexists; split; [apply matches_opt_some; eassumption | assumption].
    + eexists; split; [apply matches_opt_none | assumption].
  - apply IH1 in H as (cu1 & Hm1 & H). apply IH2 in H as (cu2 & Hm2 & H).
    eexists; split; [eapply matches_cat; eassumption | assumption].
Qed.

End Exec.

Lemma set_group_length (i : nat) (v : string) (g : groups) :
  List.length (set_group i v g) = List.length g.
Proof.
  revert i; induction g as [|y g IH]; intros [|i]; simpl; auto.
Qed.

(** A match takes a piece [w] off the text and keeps the number of
    groups. *)
Lemma matches_span (r : regex) (cu cu' : cursor) :
  matches r cu cu' ->
  exists w,
    rest cu = w ++ rest cu' /\ pos cu' = pos cu + String.length w /\
    List.length (caps cu') = List.length (caps cu).
Proof.
  induction 1 as [l cu p s n H|cls min cu w s Hs Hw Hmin|cu H|i r cu cu' H IH
                 |r cu cu' H IH|r cu|r1 r2 cu cu1 cu2 H1 IH1 H2 IH2]; simpl.
  - apply read_lit_spec in H as (Hs & Hn & _). now exists l.
  - now exists w.
  - exists EmptyString. simpl. auto.
  - destruct IH as (w & Hs & Hn & Hg). exists w.
    now rewrite set_group_length.
  - assumption.
  - exists EmptyString. simpl. auto.
  - destruct IH1 as (w1 & Hs1 & Hn1 & Hg1), IH2 as (w2 & Hs2 & Hn2 & Hg2).
    exists (w1 ++ w2). rewrite app_assoc, length_app, <- Hs2.
    repeat split; [assumption | lia | congruence].
Qed.

(** What a successful attempt at a position says. *)
Lemma match_at_sound (r : regex) (adv : bool) (prv : option ascii) (s : string)
    (n : nat) (g : groups) :
  match_at r adv prv s = Some (n, g) ->
  exists cu',
    matches r (Cursor prv s 0 (repeat None (S (ngroups r)))) cu' /\
    n = pos cu' /\ g = set_group 0 (take n s) (caps cu') /\
    (adv = true -> n <> 0).
Proof.
  unfold match_at. intros H. apply exec_sound in H as (cu' & Hm & H).
  exists cu'. split; [assumption|].
  destruct adv; simpl in H.
  - destruct (Nat.eqb_spec (pos cu') 0); [discriminate|].
    inversion H; subst. auto.
  - inversion H; subst. repeat split. discriminate.
Qed.

Lemma match_at_groups (r : regex) (adv : bool) (prv : option ascii) (s : string)
    (n : nat) (g : groups) :
  match_at r adv prv s = Some (n, g) ->
  List.length g = S (ngroups r) /\ n <= String.length s.
Proof.
  intros H. apply match_at_sound in H as (cu' & Hm & -> & -> & _).
  apply matches_span in Hm as (w & Hs & Hn & Hg).
  cbn [rest pos caps] in Hs, Hn, Hg.
  rewrite set_group_length, Hg, repeat_length. split; [reflexivity|].
  rewrite Hs, length_app. lia.
Qed.

(** *** The scans of [findall] and [subn] *)

Section Scan.
Variable r : regex.
Variable repl : groups -> outcome string.

Ltac use_total H E :=
  let piece := fresh "piece" in
  let Hp := fresh "Hp" in
  destruct (H _ _ _ _ _ E) as [piece Hp]; rewrite Hp; cbn [obind].

(** [subn] makes as many replacements as [findall] finds matches, and
    returns when [repl] does. *)
Lemma subn_go_findall :
  repl_total r repl ->
  forall s skip prv,
    exists out,
      subn_go r repl skip prv s
      = Returned (out, List.length (findall_go r skip prv s)).
Proof.
  intros H. induction s as [|c s IH]; intros skip prv.
  - cbn [subn_go findall_go]. destruct skip as [|k]; [|eexists; reflexivity].
    destruct (match_at r false prv EmptyString) as [[[|n] g]|] eqn:E.
    + use_total H E.
      destruct (match_at r true prv EmptyString) as [[[|n'] g']|] eqn:E';
        try (eexists; reflexivity).
      use_total H E'. eexists; reflexivity.
    + use_total H E. eexists; reflexivity.
    + eexists; reflexivity.
  - cbn [subn_go findall_go]. destruct skip as [|k]; [|apply IH].
    destruct (match_at r false prv (String c s)) as [[[|n] g]|] eqn:E.
    + use_total H E.
      destruct (match_at r true prv (String c s)) as [[[|n'] g']|] eqn:E'.
      * destruct (IH 0 (Some c)) as [out ->]. eexists; reflexivity.
      * use_total H E'. destruct (IH n' (Some c)) as [out ->].
        eexists; reflexivity.
      * destruct (IH 0 (Some c)) as [out ->]. eexists; reflexivity.
    + use_total H E. destruct (IH n (Some c)) as [out ->]. eexists; reflexivity.
    + destruct (IH 0 (Some c)) as [out ->]. eexists; reflexivity.
Qed.

Ltac split_bind H :=
  match type of H with
  | context [obind (repl ?g) _] =>
      let E := fresh "E" in
      destruct (repl g) as [?|?] eqn:E; cbn [obind] in H; [|discriminate]
  | context [obind (subn_go ?a ?b ?c ?d ?e) _] =>
      let E := fresh "E" in
      destruct (subn_go a b c d e) as [[? ?]|?] eqn:E; cbn [obind] in H;
      [|discriminate]
  | context [match_at ?a true ?b ?c] =>
      destruct (match_at a true b c) as [[[|?] ?]|]
  end.

(** Without a replacement the text is returned as it is. *)
Lemma subn_go_zero :
  forall s skip prv out,
    subn_go r repl skip prv s = Returned (out, 0) -> out = drop skip s.
Proof.
  induction s as [|c s IH]; intros skip prv out H; cbn [subn_go] in H.
  - destruct skip as [|k]; [|now inversion H].
    destruct (match_at r false prv EmptyString) as [[[|n] g]|];
      [| |now inversion H]; repeat split_bind H; inversion H.
  - destruct skip as [|k]; [|cbn [drop]; now apply IH in H].
    destruct (match_at r false prv (String c s)) as [[[|n] g]|].
    + repeat split_bind H; inversion H.
    + repeat split_bind H; inversion H.
    + repeat split_bind H. inversion H; subst. cbn [drop].
      f_equal. now apply (IH 0 (Some c)).
Qed.

(** When every replacement has one more [x] than the text it replaces,
    the new text has as many more [x] as there were replacements. *)
Lemma subn_go_count (x : ascii) :
  (forall adv prv s n g piece,
      match_at r adv prv s = Some (n, g) -> repl g = Returned piece ->
      count_char x piece = count_char x (take n s) + 1) ->
  forall s skip prv out cnt,
    subn_go r repl skip prv s = Returned (out, cnt) ->
    count_char x out = count_char x (drop skip s) + cnt.
Proof.
  intros Hhit. induction s as [|c s IH]; intros skip prv out cnt H;
    cbn [subn_go] in H.
  - destruct skip as [|k]; [|now inversion H].
    destruct (match_at r false prv EmptyString) as [[[|n] g]|] eqn:E;
      [| |now inversion H].
    + split_bind H. pose proof (Hhit _ _ _ _ _ _ E E0) as H0.
      destruct (match_at r true prv EmptyString) as [[[|n'] g']|] eqn:E'.
      * inversion H; subst. rewrite count_char_app, H0. simpl. lia.
      * split_bind H. pose proof (Hhit _ _ _ _ _ _ E' E1) as H1.
        inversion H; subst. rewrite !count_char_app, H0, H1. simpl. lia.
      * inversion H; subst. rewrite count_char_app, H0. simpl. lia.
    + split_bind H. pose proof (Hhit _ _ _ _ _ _ E E0) as H0.
      inversion H; subst. rewrite count_char_app, H0. simpl. lia.
  - destruct skip as [|k]; [|cbn [drop]; now apply IH in H].
    assert (Hs : forall n, count_char x (String c s)
                 = count_char x (take (S n) (String c s))
                   + count_char x (drop n s)).
    { intros n. rewrite <- (take_drop (S n) (String c s)) at 1.
      now rewrite count_char_app. }
    destruct (match_at r false prv (String c s)) as [[[|n] g]|] eqn:E.
    + split_bind H. pose proof (Hhit _ _ _ _ _ _ E E0) as H0.
      destruct (match_at r true prv (String c s)) as [[[|n'] g']|] eqn:E'.
      * repeat split_bind H. inversion H; subst.
        apply IH in E1. rewrite count_char_app, H0. simpl in *. lia.
      * split_bind H. pose proof (Hhit _ _ _ _ _ _ E' E1) as H1.
        repeat split_bind H. inversion H; subst.
        apply IH in E2. rewrite !count_char_app, H0, H1.
        cbn [drop]. rewrite (Hs n'). simpl in *. lia.
      * repeat split_bind H. inversion H; subst.
        apply IH in E1. rewrite count_char_app, H0. simpl in *. lia.
    + split_bind H. pose proof (Hhit _ _ _ _ _ _ E E0) as H0.
      repeat split_bind H. inversion H; subst.
      apply IH in E1. rewrite count_char_app, H0.
      cbn [drop]. rewrite (Hs n). lia.
    + repeat split_bind H. inversion H; subst.
      apply IH in E0. simpl in *. lia.
Qed.

(** Past the characters of a match the scan goes on from the next one. *)
Lemma subn_go_skip (w : string) :
  forall s prv,
    subn_go r repl (String.length w) prv (w ++ s)
    = subn_go r repl 0 (last_char w prv) s.
Proof.
  induction w as [|c w IH]; intros s prv; [reflexivity|].
  cbn [String.length append subn_go last_char]. apply IH.
Qed.

Lemma findall_go_skip (w : string) :
  forall s prv,
    findall_go r (String.length w) prv (w ++ s)
    = findall_go r 0 (last_char w prv) s.
Proof.
  induction w as [|c w IH]; intros s prv; [reflexivity|].
  cbn [String.length append findall_go last_char]. apply IH.
Qed.

(** A match at the position: its replacement, then the scan goes on
    after it. *)
Lemma subn_go_hit (w s : string) (prv : option ascii) (g : groups)
    (piece : string) :
  match_at r false prv (w ++ s) = Some (String.length w, g) ->
  w <> EmptyString ->
  repl g = Returned piece ->
  subn_go r repl 0 prv (w ++ s)
  = obind (subn_go r repl 0 (last_char w prv) s)
      (fun res => Returned (piece ++ fst res, S (snd res))).
Proof.
  intros H Hw Hp. destruct w as [|c w]; [congruence|].
  cbn [append String.length last_char] in *. cbn [subn_go].
  rewrite H, Hp. cbn [obind]. rewrite subn_go_skip.
  now destruct (subn_go r repl 0 (last_char w (Some c)) s) as [[out n]|e].
Qed.

Lemma findall_go_hit (w s : string) (prv : option ascii) (g : groups) :
  match_at r false prv (w ++ s) = Some (String.length w, g) ->
  w <> EmptyString ->
  findall_go r 0 prv (w ++ s)
  = group_tuple g :: findall_go r 0 (last_char w prv) s.
Proof.
  intros H Hw. destruct w as [|c w]; [congruence|].
  cbn [append String.length last_char] in *. cbn [findall_go].
  rewrite H. now rewrite findall_go_skip.
Qed.

End Scan.

Lemma template_total (r : regex) (t : template) :
  repl_total r (fun g => Returned (expand t g)).
Proof. intros adv prv s n g _. eexists; reflexivity. Qed.

(** With a template that fits the pattern, [sub] returns. *)
Lemma sub_returns (r : regex) (t : template) (s : string) :
  template_ok r t = true -> sub r t s = Returned (sub_value r t s).
Proof.
  intros H. unfold sub_value.
  unfold sub, subn, subn_with. rewrite H.
  destruct (subn_go_findall r _ (template_total r t) s 0 None) as [out ->].
  reflexivity.
Qed.

Lemma subn_returns (r : regex) (t : template) (s : string) :
  template_ok r t = true ->
  subn r t s = Returned (sub_value r t s, List.length (findall r s)).
Proof.
  intros H. unfold sub_value, sub, subn, subn_with, findall. rewrite H.
  destruct (subn_go_findall r _ (template_total r t) s 0 None) as [out ->].
  reflexivity.
Qed.

(** *** Taking a match apart *)

Lemma spans_refl (cu : cursor) : spans cu EmptyString cu.
Proof. split; simpl; [reflexivity | lia]. Qed.

Lemma spans_trans (cu cu1 cu2 : cursor) (w1 w2 : string) :
  spans cu w1 cu1 -> spans cu1 w2 cu2 -> spans cu (w1 ++ w2) cu2.
Proof.
  intros [H1 N1] [H2 N2]. split.
  - now rewrite app_assoc, <- H2.
  - rewrite length_app. lia.
Qed.

Lemma spans_take (cu cu' : cursor) (w : string) :
  spans cu w cu' -> take (pos cu' - pos cu) (rest cu) = w.
Proof.
  intros [-> ->]. replace (pos cu + String.length w - pos cu)
    with (String.length w) by lia. apply take_app.
Qed.

Lemma spans_unique (cu cu' : cursor) (w w' : string) :
  spans cu w cu' -> spans cu w' cu' -> w = w'.
Proof.
  intros [Hs Hn] [Hs' Hn']. rewrite Hn in Hn'.
  assert (Hl : String.length w = String.length w') by lia.
  rewrite Hs in Hs'. clear - Hs' Hl.
  revert w' Hs' Hl. induction w as [|c w IH]; intros [|c' w'] Hs' Hl;
    simpl in *; try discriminate; [reflexivity|].
  inversion Hs'; subst. f_equal. apply IH; [assumption | lia].
Qed.

Lemma matches_lit_inv (l : string) (cu cu' : cursor) :
  matches (Lit l) cu cu' -> spans cu l cu' /\ caps cu' = caps cu.
Proof.
  intros Hm. inversion Hm as [? ? p s n H| | | | | |]; subst.
  apply read_lit_spec in H as (Hs & Hn & _). now repeat split.
Qed.

Lemma matches_rep_inv (cls : ascii -> bool) (min : nat) (cu cu' : cursor) :
  matches (Rep cls min) cu cu' ->
  exists w,
    spans cu w cu' /\ caps cu' = caps cu /\
    all cls w = true /\ min <= String.length w.
Proof.
  intros Hm. inversion Hm as [|? ? ? w s Hs Hw Hmin| | | | |]; subst.
  exists w. now repeat split.
Qed.

Lemma matches_group_inv (i : nat) (r : regex) (cu cu' : cursor) :
  matches (Group i r) cu cu' ->
  exists cu1 w,
    matches r cu cu1 /\ spans cu w cu1 /\ spans cu w cu' /\
    caps cu' = set_group i w (caps cu1).
Proof.
  intros Hm. inversion Hm as [| | |? ? ? cu1 H1| | |]; subst.
  destruct (matches_span _ _ _ H1) as (w & Hs & Hn & _).
  assert (Hsp : spans cu w cu1) by now split.
  exists cu1, w. cbn [caps]. rewrite (spans_take _ _ _ Hsp).
  repeat split; assumption.
Qed.

Lemma matches_group_rep_inv (i : nat) (cls : ascii -> bool) (min : nat)
    (cu cu' : cursor) :
  matches (Group i (Rep cls min)) cu cu' ->
  exists w,
    spans cu w cu' /\ caps cu' = set_group i w (caps cu) /\
    all cls w = true /\ min <= String.length w.
Proof.
  intros H. apply matches_group_inv in H as (cu1 & w & H1 & Hsp & Hsp' & Hc).
  apply matches_rep_inv in H1 as (w' & [Hs' Hn'] & Hc' & Hw & Hmin).
  assert (w' = w) as -> by (eapply spans_unique; [split|]; eassumption).
  exists w. rewrite Hc, Hc'. split; [exact Hsp'|]. auto.
Qed.

Lemma matches_cat_inv (r1 r2 : regex) (cu cu2 : cursor) :
  matches (Cat r1 r2) cu cu2 ->
  exists cu1, matches r1 cu cu1 /\ matches r2 cu1 cu2.
Proof. intros Hm. inversion Hm; subst; eauto. Qed.

Lemma matches_opt_inv (r : regex) (cu cu' : cursor) :
  matches (Opt r) cu cu' -> matches r cu cu' \/ cu' = cu.
Proof. intros Hm. inversion Hm; subst; auto. Qed.

(** *** Running the matcher on a text of a known shape *)

Section Forward.
Context {R : Type}.

Lemma exec_lit (l : string) (p p' : option ascii) (s s' : string) (n n' : nat)
    (g : groups) (k : cursor -> option R) :
  read_lit l p s n = Some (p', s', n') ->
  exec (Lit l) (Cursor p s n g) k = k (Cursor p' s' n' g).
Proof. intros H. cbn [exec prev rest pos caps]. now rewrite H. Qed.

Lemma exec_cat (a b : regex) (cu : cursor) (k : cursor -> option R) :
  exec (Cat a b) cu k = exec a cu (fun cu' => exec b cu' k).
Proof. reflexivity. Qed.

Lemma exec_opt_skip (r : regex) (cu : cursor) (k : cursor -> option R) :
  exec r cu k = None -> exec (Opt r) cu k = k cu.
Proof. intros H. cbn [exec]. now rewrite H. Qed.

Lemma exec_rep_greedy (cls : ascii -> bool) (min : nat) (p : option ascii)
    (w s : string) (n : nat) (g : groups) (k : cursor -> option R) (x : R) :
  stops cls s -> all cls w = true -> min <= String.length w ->
  k (Cursor (last_char w p) s (n + String.length w) g) = Some x ->
  exec (Rep cls min) (Cursor p (w ++ s) n g) k = Some x.
Proof. intros. cbn [exec prev rest pos caps]. now apply rep_greedy. Qed.

Lemma exec_group_greedy (i : nat) (cls : ascii -> bool) (min : nat)
    (p : option ascii) (w s : string) (n : nat) (g : groups)
    (k : cursor -> option R) (x : R) :
  stops cls s -> all cls w = true -> min <= String.length w ->
  k (Cursor (last_char w p) s (n + String.length w) (set_group i w g)) = Some x ->
  exec (Group i (Rep cls min)) (Cursor p (w ++ s) n g) k = Some x.
Proof.
  intros Hs Hw Hmin Hk. cbn [exec prev rest pos caps].
  apply rep_greedy; try assumption. cbn [prev rest pos caps].
  replace (n + String.length w - n) with (String.length w) by lia.
  now rewrite take_app.
Qed.

End Forward.

End ReFacts.

(** ** The rules of [migrate_file] *)

Module MigrateFacts.
Import Re ReFacts Migrate.
Local Open Scope migrate_scope.

Lemma bind_cong {A B} (m : M A) (f f' : A -> M B) (st : locals) :
  (forall a st', f a st' = f' a st') -> bind m f st = bind m f' st.
Proof. intros H. unfold bind. destruct (m st) as [[a st']|e]; auto. Qed.

Lemma bind_assoc {A B C} (m : M A) (f : A -> M B) (g : B -> M C) (st : locals) :
  bind (bind m f) g st = bind m (fun a => bind (f a) g) st.
Proof. unfold bind. destruct (m st) as [[a st']|e]; reflexivity. Qed.

Lemma bind_ret_r (m : M unit) (st : locals) : bind m (fun _ => ret tt) st = m st.
Proof. unfold bind, ret. destruct (m st) as [[[] st']|e]; reflexivity. Qed.

Lemma node_renames_steps (k : unit -> M unit) (st : locals) :
  bind rule_node_renames k st
  = (rename_node "KinematicBody2D" "CharacterBody2D" ;;
     rename_node "KinematicBody" "CharacterBody3D" ;;
     x <- rename_node "Spatial" "Node3D" ;; k x) st.
Proof.
  unfold rule_node_renames, node_renames. cbn [for_each].
  rewrite bind_assoc. apply bind_cong; intros _ st1.
  rewrite bind_assoc. apply bind_cong; intros _ st2.
  rewrite bind_assoc. apply bind_cong; intros [] st3. reflexivity.
Qed.

(** [migrate_file] goes through the catalog. *)
Lemma rules_catalog (st : locals) : rules st = run catalog st.
Proof.
  unfold rules, catalog. cbn [run step].
  do 13 (apply bind_cong; intros _ ?).
  rewrite node_renames_steps.
  do 13 (apply bind_cong; intros _ ?).
  symmetry. apply bind_ret_r.
Qed.

(** *** Every rewriting rule has the form [is_rule] asks for *)

Lemma rule_replace_is_rule (old new msg : string) :
  is_advisory msg = false -> is_rule (rule_replace old new msg).
Proof.
  intros H. exists (contains old), (replace old new), (fun _ => msg).
  split; [auto|]. intros [c l].
  unfold rule_replace, bind, get_content, when, set_content, append_change, ret.
  cbn [l_content l_changes]. now destruct (contains old c).
Qed.

Lemma sub_rule (p : regex) (t : template) (fires : string -> bool)
    (msg : string -> string) :
  template_ok p t = true ->
  (forall c, is_advisory (msg c) = false) ->
  is_rule (content <- get_content ;;
           when (fires content) (
             content' <- lift (sub p t content) ;;
             set_content content' ;;
             append_change (msg content))).
Proof.
  intros Ht Hm. exists fires, (sub_value p t), msg. split; [assumption|].
  intros [c l].
  unfold bind, get_content, when, set_content, append_change, ret.
  cbn [l_content l_changes].
  destruct (fires c); [|reflexivity].
  unfold lift. now rewrite (sub_returns p t c Ht).
Qed.

Lemma rule_instance_is_rule : is_rule rule_instance.
Proof.
  apply (sub_rule _ _ (fun c => found (search instance_pattern c)) (fun _ => _));
    reflexivity.
Qed.

Lemma rule_randomize_is_rule : is_rule rule_randomize.
Proof.
  apply (sub_rule _ _ (fun c => found (search randomize_pattern c)) (fun _ => _));
    reflexivity.
Qed.

Lemma export_message_automatic (n : nat) : is_advisory (export_message n) = false.
Proof. reflexivity. Qed.

Lemma rule_export_is_rule : is_rule rule_export.
Proof.
  apply (sub_rule _ _ (fun c => nonempty (findall export_pattern c))
           (fun c => export_message (List.length (findall export_pattern c))));
    [reflexivity | intros c; apply export_message_automatic].
Qed.

Lemma rename_node_is_rule (old new : string) :
  is_advisory (old ++ " → " ++ new) = false -> is_rule (rename_node old new).
Proof.
  intros H.
  exists (fun c => contains old c && found (search (whole_word old) c)),
         (sub_value (whole_word old) [TLit new]), (fun _ => old ++ " → " ++ new).
  split; [auto|]. intros [c l].
  unfold rename_node, bind, get_content, when, set_content, append_change, ret.
  cbn [l_content l_changes].
  destruct (contains old c); [|reflexivity]. cbn [andb].
  destruct (found (search (whole_word old) c)); [|reflexivity].
  unfold lift. now rewrite (sub_returns (whole_word old) [TLit new] c eq_refl).
Qed.

Lemma catalog_well_formed : Forall well_formed catalog.
Proof.
  unfold catalog.
  repeat (apply Forall_cons;
          [first [ reflexivity
                 | apply rule_replace_is_rule; reflexivity
                 | apply rule_instance_is_rule
                 | apply rule_randomize_is_rule
                 | apply rule_export_is_rule
                 | apply rename_node_is_rule; reflexivity ] |]).
  apply Forall_nil.
Qed.

(** *** What a run through a catalog does *)

Lemma step_form (e : entry) :
  well_formed e ->
  exists (fires : string -> bool) (rewrite msg : string -> string),
    (forall st,
        step e st = Returned (tt,
          if fires (l_content st)
          then Locals (rewrite (l_content st))
                      (l_changes st ++ [msg (l_content st)])%list
          else st)) /\
    match e with
    | Mechanical _ => forall c, is_advisory (msg c) = false
    | Advisory d m =>
        fires = d /\ (forall c, rewrite c = c) /\ (forall c, msg c = m)
        /\ is_advisory m = true
    end.
Proof.
  destruct e as [m|d m]; cbn [well_formed step].
  - intros (fires & rewrite & msg & Hmsg & Hm).
    exists fires, rewrite, msg. auto.
  - intros Hm. exists d, (fun c => c), (fun _ => m). split; [|auto].
    intros [c l]. unfold flag, bind, get_content, when, append_change, ret.
    cbn [l_content l_changes]. now destruct (d c).
Qed.

Lemma run_cons (e : entry) (es : list entry) (st : locals) :
  run (e :: es) st
  = match step e st with
    | Returned (_, st1) => run es st1
    | Raised x => Raised x
    end.
Proof. reflexivity. Qed.

Lemma run_total (es : list entry) :
  Forall well_formed es -> forall st, exists st', run es st = Returned (tt, st').
Proof.
  induction 1 as [|e es He _ IH]; intros st.
  - eexists; reflexivity.
  - destruct (step_form e He) as (fires & rewrite & msg & Hstep & _).
    rewrite run_cons, Hstep. apply IH.
Qed.

Lemma run_changes_grow (es : list entry) :
  Forall well_formed es ->
  forall st st',
    run es st = Returned (tt, st') ->
    exists more, l_changes st' = (l_changes st ++ more)%list.
Proof.
  induction 1 as [|e es He _ IH]; intros st st' H.
  - inversion H; subst. exists []. now rewrite List.app_nil_r.
  - destruct (step_form e He) as (fires & rewrite & msg & Hstep & _).
    rewrite run_cons, Hstep in H. apply IH in H as [more H].
    destruct (fires (l_content st)); cbn [l_changes] in H.
    + eexists. rewrite H, <- List.app_assoc. reflexivity.
    + now exists more.
Qed.

(** When a run leaves only flags behind, no rewriting rule has fired:
    the content is the one the run started with, and the flags are
    those the content raises, one for each. *)
Lemma run_advisory_only (es : list entry) :
  Forall well_formed es ->
  forall st st',
    run es st = Returned (tt, st') ->
    all_advisory (l_changes st') ->
    l_content st' = l_content st /\
    l_changes st' = (l_changes st ++ flags_of es (l_content st))%list.
Proof.
  induction 1 as [|e es He Hes IH]; intros st st' H Hadv.
  - inversion H; subst. now rewrite List.app_nil_r.
  - destruct (step_form e He) as (fires & rewrite & msg & Hstep & Hkind).
    rewrite run_cons, Hstep in H.
    destruct (run_changes_grow es Hes _ _ H) as [more Hmore].
    destruct (IH _ _ H Hadv) as [Hc Hl]. clear IH.
    unfold all_advisory in Hadv. rewrite Hmore in Hadv.
    apply Forall_app in Hadv as [Hadv _].
    destruct e as [m|d m]; cbn [flags_of].
    + destruct (fires (l_content st)); [|auto].
      cbn [l_changes] in Hadv. apply Forall_app in Hadv as [_ Hadv].
      inversion Hadv as [|? ? Hx _]; subst. rewrite Hkind in Hx. discriminate.
    + destruct Hkind as (-> & Hr & Hm & _).
      destruct (d (l_content st)); [|auto].
      cbn [l_content l_changes] in Hc, Hl. rewrite Hr in Hc, Hl.
      rewrite Hm in Hl. split; [assumption|].
      now rewrite Hl, <- List.app_assoc.
Qed.

Lemma automatic_app (a b : list string) :
  automatic (a ++ b) = (automatic a ++ automatic b)%list.
Proof. apply filter_app. Qed.

(** The flags have no part in the content: the rewriting rules alone
    reach the same content and record the same automatic changes. *)
Lemma run_mechanical_only (es : list entry) :
  Forall well_formed es ->
  forall st1 st2,
    l_content st1 = l_content st2 ->
    exists final more,
      run es st1 = Returned (tt, Locals final (l_changes st1 ++ more)%list) /\
      run (mechanical_only es) st2
      = Returned (tt, Locals final (l_changes st2 ++ automatic more)%list).
Proof.
  induction 1 as [|e es He Hes IH]; intros [c l1] [c2 l2] Hc;
    cbn [l_content] in Hc; subst c2.
  - exists c, []. cbn [run automatic filter l_changes]. now rewrite !List.app_nil_r.
  - destruct (step_form e He) as (fires & rewrite & msg & Hstep & Hkind).
    rewrite run_cons, Hstep. cbn [l_content l_changes].
    destruct e as [m|d m]; cbn [mechanical_only].
    + rewrite run_cons. cbn [step] in Hstep |- *. rewrite Hstep.
      cbn [l_content l_changes].
      destruct (fires c).
      * destruct (IH (Locals (rewrite c) (l1 ++ [msg c])%list)
                     (Locals (rewrite c) (l2 ++ [msg c])%list) eq_refl)
          as (final & more & H1 & H2).
        cbn [l_changes] in H1, H2.
        exists final, (msg c :: more). rewrite H1, H2.
        rewrite <- !List.app_assoc. cbn [automatic filter app].
        unfold automatic in *. now rewrite Hkind.
      * apply (IH (Locals c l1) (Locals c l2) eq_refl).
    + destruct Hkind as (-> & Hr & Hm & Ha).
      destruct (d c).
      * destruct (IH (Locals (rewrite c) (l1 ++ [msg c])%list) (Locals c l2))
          as (final & more & H1 & H2); [cbn; apply Hr|].
        cbn [l_changes] in H1, H2.
        exists final, (msg c :: more). rewrite H1, H2.
        rewrite <- !List.app_assoc. cbn [automatic filter app].
        unfold automatic in *. now rewrite Hm, Ha.
      * apply (IH (Locals c l1) (Locals c l2) eq_refl).
Qed.

(** *** [migrate_file] *)

Lemma migrate_file_run (text : string) :
  exists st,
    run catalog (Locals text []) = Returned (tt, st) /\
    migrate_file text
    = Returned (if String.eqb (l_content st) text then None else Some (l_content st),
                l_changes st).
Proof.
  destruct (run_total catalog catalog_well_formed (Locals text [])) as [st H].
  exists st. split; [assumption|].
  unfold migrate_file. rewrite rules_catalog, H.
  now destruct (String.eqb (l_content st) text).
Qed.

Lemma migrate_file_returns (text : string) :
  exists content changes, migrate_file text = Returned (content, changes).
Proof.
  destruct (migrate_file_run text) as (st & _ & H). eauto.
Qed.

Lemma changes_of_spec (text : string) (content : option string)
    (changes : list string) :
  migrate_file text = Returned (content, changes) -> changes_of text = changes.
Proof. unfold changes_of. now intros ->. Qed.

(** With flags only, the content is unchanged and [None] is returned. *)
Lemma migrate_file_advisory (text : string) (content : option string)
    (changes : list string) :
  migrate_file text = Returned (content, changes) ->
  all_advisory changes ->
  content = None /\ changes = flags_of catalog text.
Proof.
  intros H Hadv. destruct (migrate_file_run text) as (st & Hrun & Hm).
  rewrite Hm in H. inversion H; subst. clear H.
  destruct (run_advisory_only catalog catalog_well_formed _ _ Hrun Hadv)
    as [Hc Hl].
  cbn [l_content l_changes] in Hc, Hl. rewrite Hc, String.eqb_refl.
  now rewrite Hl.
Qed.

End MigrateFacts.

(** ** [migrate_directory] *)

Module DirectoryFacts.
Import Re ReFacts Migrate MigrateFacts.

Lemma writes_say (line : string) (t : tally) : writes (say line t) = writes t.
Proof.
  unfold writes, say. cbn [effects].
  rewrite flat_map_app. cbn. now rewrite List.app_nil_r.
Qed.

Lemma report_change_total (t : tally) (change : string) :
  total_changes (report_change t change)
  = total_changes t + List.length (automatic [change]).
Proof.
  unfold report_change, automatic, is_advisory. cbn [filter].
  destruct (startswith warning_sign change); cbn; lia.
Qed.

Lemma report_change_frame (t : tally) (change : string) :
  files_changed (report_change t change) = files_changed t /\
  writes (report_change t change) = writes t.
Proof.
  unfold report_change, writes, say.
  destruct (negb (startswith warning_sign change));
    cbn [files_changed effects]; (split; [reflexivity|]);
    rewrite flat_map_app; cbn; now rewrite List.app_nil_r.
Qed.

Lemma report_changes (changes : list string) :
  forall t,
    total_changes (fold_left report_change changes t)
    = total_changes t + List.length (automatic changes) /\
    files_changed (fold_left report_change changes t) = files_changed t /\
    writes (fold_left report_change changes t) = writes t.
Proof.
  induction changes as [|change changes IH]; intros t; cbn [fold_left].
  - cbn. repeat split. lia.
  - destruct (IH (report_change t change)) as (H1 & H2 & H3).
    destruct (report_change_frame t change) as [H4 H5].
    rewrite H1, H2, H3, H4, H5, report_change_total.
    repeat split. change (change :: changes) with ([change] ++ changes)%list.
    rewrite automatic_app, length_app. lia.
Qed.

(** One file of the loop: it returns, and the count of automatic changes
    grows by the number of changes without the warning sign. *)
Lemma visit_total (dry_run : bool) (t : tally) (file : string * string) :
  exists t',
    visit dry_run t file = Returned t' /\
    total_changes t' = total_changes t
                       + List.length (automatic (changes_of (snd file))).
Proof.
  destruct file as [rel_path text]. cbn [snd].
  destruct (migrate_file_returns text) as (content & changes & H).
  unfold visit. rewrite (changes_of_spec _ _ _ H), H. cbn [obind].
  destruct changes as [|change changes]; cbn [nonempty].
  - eexists; split; [reflexivity|]. cbn. lia.
  - set (l := change :: changes).
    destruct (report_changes l (say (chr newline ++ "📄 " ++ rel_path) t))
      as (H1 & _ & _). cbn [say total_changes] in H1.
    destruct content as [new_text|]; [destruct dry_run|]; cbn [negb];
      eexists; (split; [reflexivity|]); cbn [say write_file total_changes];
      exact H1.
Qed.

Lemma visit_all_total (dry_run : bool) (files : list (string * string)) :
  forall t,
    exists t',
      visit_all dry_run t files = Returned t' /\
      total_changes t'
      = total_changes t
        + list_sum (map (fun file => List.length (automatic (changes_of (snd file))))
                        files).
Proof.
  induction files as [|file files IH]; intros t; cbn [visit_all map list_sum fold_right].
  - eexists; split; [reflexivity | lia].
  - destruct (visit_total dry_run t file) as (t1 & -> & H1). cbn [obind].
    destruct (IH t1) as (t' & -> & H'). eexists; split; [reflexivity|].
    unfold list_sum in H'. lia.
Qed.

(** A file with flags only is not written, whatever the mode. *)
Lemma visit_advisory (dry_run : bool) (t : tally) (rel_path text : string) :
  all_advisory (changes_of text) ->
  exists t',
    visit dry_run t (rel_path, text) = Returned t' /\
    writes t' = writes t /\ files_changed t' = files_changed t.
Proof.
  intros Hadv.
  destruct (migrate_file_returns text) as (content & changes & H).
  rewrite (changes_of_spec _ _ _ H) in Hadv.
  destruct (migrate_file_advisory _ _ _ H Hadv) as [-> _].
  unfold visit. rewrite H. cbn [obind].
  destruct changes as [|change changes]; cbn [nonempty].
  - eexists; repeat split.
  - eexists; split; [reflexivity|].
    set (l := change :: changes).
    destruct (report_changes l (say (chr newline ++ "📄 " ++ rel_path) t))
      as (_ & H2 & H3).
    rewrite H2, H3, writes_say. split; reflexivity.
Qed.

Lemma visit_all_advisory (dry_run : bool) (files : list (string * string)) :
  Forall (fun file => all_advisory (changes_of (snd file))) files ->
  forall t,
    exists t',
      visit_all dry_run t files = Returned t' /\
      writes t' = writes t /\ files_changed t' = files_changed t.
Proof.
  induction 1 as [|[rel_path text] files Hf _ IH]; intros t; cbn [visit_all].
  - eexists; repeat split.
  - destruct (visit_advisory dry_run t rel_path text Hf) as (t1 & -> & W1 & F1).
    cbn [obind]. destruct (IH t1) as (t' & -> & W' & F').
    eexists; split; [reflexivity|]. split; congruence.
Qed.

End DirectoryFacts.

(** ** What a run of [migrate_directory] writes *)

Module WriteFacts.
Import Re ReFacts TextFacts Migrate MigrateFacts DirectoryFacts.

Lemma writes_write_file (path text : string) (t : tally) :
  writes (write_file path text t) = (writes t ++ [(path, text)])%list.
Proof. unfold writes, write_file. cbn [effects]. now rewrite flat_map_app. Qed.

(** A content that has changed comes with a change. *)
Lemma changed_has_changes (text new_text : string) (changes : list string) :
  migrate_file text = Returned (Some new_text, changes) -> changes <> [].
Proof.
  intros H ->.
  destruct (migrate_file_advisory _ _ _ H (Forall_nil _)) as [E _]. discriminate.
Qed.

Lemma visit_writes (dry_run : bool) (t : tally) (rel_path text : string) :
  exists t',
    visit dry_run t (rel_path, text) = Returned t' /\
    writes t' = (writes t ++ if dry_run then [] else rewritten [(rel_path, text)])%list /\
    files_changed t'
    = files_changed t + List.length (rewritten [(rel_path, text)]).
Proof.
  destruct (migrate_file_returns text) as (content & changes & H).
  unfold visit. cbn [rewritten]. unfold new_content_of. rewrite H. cbn [obind].
  destruct changes as [|change changes]; cbn [nonempty].
  - destruct content as [new_text|].
    + now destruct (changed_has_changes _ _ _ H).
    + eexists. split; [reflexivity|].
      destruct dry_run; rewrite List.app_nil_r; cbn; split; (reflexivity || lia).
  - set (l := change :: changes).
    set (t0 := say (chr newline ++ "📄 " ++ rel_path) t).
    destruct (report_changes l t0) as (_ & H2 & H3).
    assert (W0 : writes t0 = writes t) by apply writes_say.
    assert (F0 : files_changed t0 = files_changed t) by reflexivity.
    set (t1 := fold_left report_change l t0) in *.
    assert (Hw : forall a b, writes (Tally a b (effects t1)) = writes t1)
      by reflexivity.
    destruct content as [new_text|]; [destruct dry_run|]; cbn [negb];
      eexists; (split; [reflexivity|]);
      rewrite ?writes_say, ?writes_write_file, ?Hw, H3, W0;
      cbn [say write_file files_changed]; rewrite H2, F0;
      try (destruct dry_run); rewrite ?List.app_nil_r; cbn [List.length];
      split; (reflexivity || lia).
Qed.

Lemma rewritten_cons (file : string * string) (files : list (string * string)) :
  rewritten (file :: files) = (rewritten [file] ++ rewritten files)%list.
Proof.
  destruct file as [rel_path text]. cbn [rewritten].
  now destruct (new_content_of text).
Qed.

Lemma visit_all_writes (dry_run : bool) (files : list (string * string)) :
  forall t,
    exists t',
      visit_all dry_run t files = Returned t' /\
      writes t' = (writes t ++ if dry_run then [] else rewritten files)%list /\
      files_changed t' = files_changed t + List.length (rewritten files).
Proof.
  induction files as [|[rel_path text] files IH]; intros t; cbn [visit_all].
  - eexists. split; [reflexivity|]. cbn [rewritten List.length].
    destruct dry_run; rewrite List.app_nil_r; split; (reflexivity || lia).
  - destruct (visit_writes dry_run t rel_path text) as (t1 & -> & W1 & F1).
    cbn [obind]. destruct (IH t1) as (t' & -> & W' & F').
    eexists. split; [reflexivity|].
    rewrite (rewritten_cons (rel_path, text) files), W', W1, F', F1.
    rewrite List.length_app.
    destruct dry_run; rewrite <- ?List.app_assoc, ?List.app_nil_r;
      split; (reflexivity || lia).
Qed.

Lemma rewritten_length (files : list (string * string)) :
  List.length (rewritten files) <= List.length files.
Proof.
  induction files as [|[p text] files IH]; cbn [rewritten List.length]; [lia|].
  destruct (new_content_of text); cbn [List.length]; lia.
Qed.

Lemma new_content_differs (text new_text : string) :
  new_content_of text = Some new_text -> new_text <> text.
Proof.
  unfold new_content_of.
  destruct (migrate_file_run text) as (st & _ & ->).
  destruct (String.eqb_spec (l_content st) text) as [E|N]; [discriminate|].
  intros H. inversion H; subst. exact N.
Qed.

Lemma rewritten_in (files : list (string * string)) :
  forall path new_text,
    In (path, new_text) (rewritten files) ->
    exists text,
      In (path, text) files /\ new_content_of text = Some new_text /\
      new_text <> text.
Proof.
  induction files as [|[p text] files IH]; intros path new_text H;
    cbn [rewritten] in H; [destruct H|].
  destruct (new_content_of text) as [c|] eqn:E.
  - destruct H as [H|H].
    + inversion H; subst. exists text. split; [now left|].
      split; [exact E | now apply new_content_differs].
    + destruct (IH _ _ H) as (t & Hin & Hrest).
      exists t. split; [now right | exact Hrest].
  - destruct (IH _ _ H) as (t & Hin & Hrest).
    exists t. split; [now right | exact Hrest].
Qed.

Lemma migrate_directory_spec (gd_files : list (string * string)) (dry_run : bool) :
  exists t,
    migrate_directory gd_files dry_run = Returned t /\
    writes t = (if dry_run then [] else rewritten gd_files) /\
    files_changed t = List.length (rewritten gd_files) /\
    total_changes t
    = list_sum (map (fun file => List.length (automatic (changes_of (snd file))))
                    gd_files).
Proof.
  unfold migrate_directory.
  match goal with
  | |- context [visit_all dry_run ?t0 _] =>
      destruct (visit_all_writes dry_run gd_files t0) as (t' & E & W & F);
      destruct (visit_all_total dry_run gd_files t0) as (t'' & E' & T)
  end.
  rewrite E in E'. inversion E'; subst t''. rewrite E. cbn [obind].
  eexists. split; [reflexivity|].
  rewrite !writes_say. cbn [say files_changed total_changes] in *.
  rewrite W, F, T. unfold writes. cbn [effects flat_map List.app].
  repeat split.
Qed.

Lemma rewritten_app (a b : list (string * string)) :
  rewritten (a ++ b) = (rewritten a ++ rewritten b)%list.
Proof.
  induction a as [|[p text] a IH]; [reflexivity|].
  cbn [List.app rewritten]. rewrite IH. now destruct (new_content_of text).
Qed.

(** A file with flags only is not among the files rewritten. *)
Lemma advisory_not_rewritten (text : string) :
  all_advisory (changes_of text) -> new_content_of text = None.
Proof.
  intros Hadv. destruct (migrate_file_returns text) as (content & changes & H).
  rewrite (changes_of_spec _ _ _ H) in Hadv.
  destruct (migrate_file_advisory _ _ _ H Hadv) as [-> _].
  unfold new_content_of. now rewrite H.
Qed.

End WriteFacts.

(** ** [fix_connect_calls] *)

Module ConnectFacts.
Import Re ReFacts TextFacts FixConnect.

(** The text a match of the pattern covers and the groups it sets. *)
Lemma connect_match_inv (adv : bool) (prv : option ascii) (s : string)
    (n : nat) (g : groups) :
  match_at pattern adv prv s = Some (n, g) ->
  exists sig ws1 obj ws2 meth params p4,
    take n s = (".connect(" ++ q) ++ sig ++ (q ++ ",") ++ ws1 ++ obj ++ ","
               ++ ws2 ++ q ++ meth ++ q ++ params ++ ")" /\
    g = [Some (take n s); Some sig; Some obj; Some meth; p4] /\
    all is_space ws1 = true /\ all is_space ws2 = true /\
    ((params = EmptyString /\ p4 = None) \/
     (exists ws3 ws4 inner,
        params = ws3 ++ "," ++ ws4 ++ "[" ++ inner ++ "]" /\ p4 = Some params /\
        all is_space ws3 = true /\ all is_space ws4 = true)).
Proof.
  intros H. apply match_at_sound in H as (cu' & Hm & -> & -> & _).
  change (S (ngroups pattern)) with 5 in Hm. cbn [repeat] in Hm.
  unfold pattern in Hm. cbn [seq] in Hm.
  apply matches_cat_inv in Hm as (c1 & H1 & Hm).
  apply matches_lit_inv in H1 as [S1 C1].
  apply matches_cat_inv in Hm as (c2 & H2 & Hm).
  apply matches_group_rep_inv in H2 as (sig & S2 & C2 & _ & _).
  apply matches_cat_inv in Hm as (c3 & H3 & Hm).
  apply matches_lit_inv in H3 as [S3 C3].
  apply matches_cat_inv in Hm as (c4 & H4 & Hm).
  apply matches_rep_inv in H4 as (ws1 & S4 & C4 & A4 & _).
  apply matches_cat_inv in Hm as (c5 & H5 & Hm).
  apply matches_group_rep_inv in H5 as (obj & S5 & C5 & _ & _).
  apply matches_cat_inv in Hm as (c6 & H6 & Hm).
  apply matches_lit_inv in H6 as [S6 C6].
  apply matches_cat_inv in Hm as (c7 & H7 & Hm).
  apply matches_rep_inv in H7 as (ws2 & S7 & C7 & A7 & _).
  apply matches_cat_inv in Hm as (c8 & H8 & Hm).
  apply matches_lit_inv in H8 as [S8 C8].
  apply matches_cat_inv in Hm as (c9 & H9 & Hm).
  apply matches_group_rep_inv in H9 as (meth & S9 & C9 & _ & _).
  apply matches_cat_inv in Hm as (c10 & H10 & Hm).
  apply matches_lit_inv in H10 as [S10 C10].
  apply matches_cat_inv in Hm as (c11 & H11 & Hm).
  apply matches_lit_inv in Hm as [S12 C12].
  assert (Hopt : exists params p4,
             spans c10 params c11 /\
             caps c11 = [None; Some sig; Some obj; Some meth; p4] /\
             ((params = EmptyString /\ p4 = None) \/
              (exists ws3 ws4 inner,
                 params = ws3 ++ "," ++ ws4 ++ "[" ++ inner ++ "]"
                 /\ p4 = Some params /\
                 all is_space ws3 = true /\ all is_space ws4 = true))).
  { assert (C : caps c10 = [None; Some sig; Some obj; Some meth; None]).
    { rewrite C10, C9, C8, C7, C6, C5, C4, C3, C2, C1. reflexivity. }
    apply matches_opt_inv in H11 as [H11| ->].
    - apply matches_group_inv in H11 as (d & params & Hin & Sp & Sp' & Cp).
      apply matches_cat_inv in Hin as (d1 & I1 & Hin).
      apply matches_rep_inv in I1 as (ws3 & T1 & D1 & B1 & _).
      apply matches_cat_inv in Hin as (d2 & I2 & Hin).
      apply matches_lit_inv in I2 as [T2 D2].
      apply matches_cat_inv in Hin as (d3 & I3 & Hin).
      apply matches_rep_inv in I3 as (ws4 & T3 & D3 & B3 & _).
      apply matches_cat_inv in Hin as (d4 & I4 & Hin).
      apply matches_lit_inv in I4 as [T4 D4].
      apply matches_cat_inv in Hin as (d5 & I5 & Hin).
      apply matches_rep_inv in I5 as (inner & T5 & D5 & _ & _).
      apply matches_lit_inv in Hin as [T6 D6].
      pose proof (spans_trans _ _ _ _ _ T1 (spans_trans _ _ _ _ _ T2
                   (spans_trans _ _ _ _ _ T3 (spans_trans _ _ _ _ _ T4
                     (spans_trans _ _ _ _ _ T5 T6))))) as T.
      rewrite (spans_unique _ _ _ _ Sp T) in *.
      eexists _, _. split; [exact Sp'|]. split.
      + rewrite Cp, D6, D5, D4, D3, D2, D1, C. reflexivity.
      + right. exists ws3, ws4, inner. auto.
    - exists EmptyString, None. split; [apply spans_refl|]. auto. }
  destruct Hopt as (params & p4 & S11 & C11 & Hp).
  pose proof (spans_trans _ _ _ _ _ S1 (spans_trans _ _ _ _ _ S2
               (spans_trans _ _ _ _ _ S3 (spans_trans _ _ _ _ _ S4
                 (spans_trans _ _ _ _ _ S5 (spans_trans _ _ _ _ _ S6
                   (spans_trans _ _ _ _ _ S7 (spans_trans _ _ _ _ _ S8
                     (spans_trans _ _ _ _ _ S9 (spans_trans _ _ _ _ _ S10
                       (spans_trans _ _ _ _ _ S11 S12))))))))))) as Sall.
  apply spans_take in Sall. cbn [pos rest] in Sall.
  rewrite Nat.sub_0_r in Sall.
  exists sig, ws1, obj, ws2, meth, params, p4.
  split; [exact Sall|]. split; [|auto].
  rewrite C12, C11. reflexivity.
Qed.

Lemma nonempty_params (ws t : string) (c : ascii) :
  exists a b, ws ++ String c t = String a b.
Proof. destruct ws; simpl; eauto. Qed.

(** The replacement has one more [C] than the call it replaces: the one
    of [Callable]. *)
Lemma replacer_count (adv : bool) (prv : option ascii) (s : string)
    (n : nat) (g : groups) (piece : string) :
  match_at pattern adv prv s = Some (n, g) ->
  replacer g = Returned piece ->
  count_char "C" piece = count_char "C" (take n s) + 1.
Proof.
  intros H Hr.
  apply connect_match_inv in H
    as (sig & ws1 & obj & ws2 & meth & params & p4 & Ht & -> & A1 & A2 & Hp).
  rewrite Ht.
  assert (Z : forall w, all is_space w = true -> count_char "C" w = 0)
    by (intros w; now apply count_char_all).
  destruct Hp as [[-> ->]|(ws3 & ws4 & inner & -> & -> & A3 & A4)].
  - cbn in Hr. inversion Hr; subst piece.
    repeat (first [rewrite count_char_app | progress cbn]).
    rewrite (Z _ A1), (Z _ A2). lia.
  - unfold replacer in Hr. cbn [group nth_error obind truthy fmt] in Hr.
    destruct (nonempty_params ws3 (ws4 ++ "[" ++ inner ++ "]") ",")
      as (a & b & E).
    cbn [append] in E, Hr |- *. rewrite E in Hr. cbn [obind fmt] in Hr.
    rewrite <- E in Hr. inversion Hr; subst piece. clear Hr E.
    unfold strip. rewrite lstrip_spaces by (assumption || reflexivity).
    replace (String "," (ws4 ++ String "[" (inner ++ "]")))
      with ((String "," (ws4 ++ String "[" inner)) ++ chr "]")
      by (cbn; now rewrite app_assoc).
    rewrite rstrip_nonempty by reflexivity. cbn [append drop].
    repeat (first [rewrite count_char_app | progress cbn]).
    rewrite (Z _ A1), (Z _ A2), (Z _ A3), (Z _ A4). lia.
Qed.

Lemma replacer_total : repl_total pattern replacer.
Proof.
  intros adv prv s n g H.
  apply connect_match_inv in H
    as (sig & ws1 & obj & ws2 & meth & params & p4 & _ & -> & _ & _ & Hp).
  destruct Hp as [[-> ->]|(ws3 & ws4 & inner & -> & -> & _)].
  - eexists; reflexivity.
  - unfold replacer. cbn [group nth_error obind truthy fmt].
    destruct (nonempty_params ws3 (ws4 ++ "[" ++ inner ++ "]") ",")
      as (a & b & E).
    cbn [append] in E |- *. rewrite E. cbn [obind fmt].
    eexists; reflexivity.
Qed.

End ConnectFacts.

Module ConnectCall.
Import Re ReFacts TextFacts FixConnect ConnectFacts.

Lemma stops_head (cls : ascii -> bool) (c : ascii) (s : string) :
  cls c = false -> stops cls (String c s).
Proof. auto. Qed.

Lemma call_app (sig ws1 obj ws2 meth post : string) :
  call sig ws1 obj ws2 meth EmptyString ++ post = call sig ws1 obj ws2 meth post.
Proof.
  unfold call, q, chr. cbn [append].
  repeat (rewrite app_assoc; cbn [append]). reflexivity.
Qed.

Lemma match_at_call (prv : option ascii) (sig ws1 obj ws2 meth post : string) :
  sig <> EmptyString -> all (is_not dquote) sig = true ->
  all is_space ws1 = true ->
  obj <> EmptyString -> all is_word obj = true ->
  all is_space ws2 = true ->
  meth <> EmptyString -> all (is_not dquote) meth = true ->
  match_at pattern false prv (call sig ws1 obj ws2 meth post)
  = Some (String.length (call sig ws1 obj ws2 meth EmptyString),
          [Some (call sig ws1 obj ws2 meth EmptyString);
           Some sig; Some obj; Some meth; None]).
Proof.
  intros Hsig Asig Aws1 Hobj Aobj Aws2 Hmeth Ameth.
  unfold match_at. change (S (ngroups pattern)) with 5. cbn [repeat].
  set (k0 := fun cu : cursor => _).
  unfold pattern. cbn [seq]. unfold call at 1, q, chr. cbn [append].
  rewrite exec_cat. erewrite exec_lit by reflexivity.
  rewrite exec_cat. apply exec_group_greedy;
    [reflexivity | assumption | now apply nonempty_length |].
  rewrite exec_cat. erewrite exec_lit by reflexivity.
  destruct obj as [|o obj']; [congruence|].
  cbn [all] in Aobj. apply andb_true_iff in Aobj as [Ao Aobj'].
  rewrite exec_cat. apply exec_rep_greedy;
    [apply stops_head; now apply word_not_space | assumption | lia |].
  rewrite exec_cat.
  apply (exec_group_greedy 2 is_word 1 _ (String o obj'));
    [reflexivity | cbn [all]; now rewrite Ao | cbn; lia |].
  rewrite exec_cat. erewrite exec_lit by reflexivity.
  rewrite exec_cat. apply exec_rep_greedy; [reflexivity | assumption | lia |].
  rewrite exec_cat. erewrite exec_lit by reflexivity.
  rewrite exec_cat. apply exec_group_greedy;
    [reflexivity | assumption | now apply nonempty_length |].
  rewrite exec_cat. erewrite exec_lit by reflexivity.
  rewrite exec_cat. rewrite exec_opt_skip by reflexivity.
  erewrite exec_lit by reflexivity.
  subst k0. cbv beta. cbn [andb pos caps set_group].
  match goal with
  | |- Some (?n, _) = _ =>
      replace n with (String.length (call sig ws1 (String o obj') ws2 meth EmptyString))
  end.
  - now rewrite <- (call_app sig ws1 (String o obj') ws2 meth post), take_app.
  - unfold call, q, chr. cbn [append String.length].
    repeat (rewrite length_app; cbn [String.length]). lia.
Qed.

Lemma match_at_no_dot (adv : bool) (prv : option ascii) (s : string) :
  stops (fun c => Ascii.eqb c ".") s -> match_at pattern adv prv s = None.
Proof.
  intros H. unfold match_at, pattern. cbn [seq]. rewrite exec_cat.
  cbn [exec prev rest pos caps]. unfold q, chr. cbn [append read_lit].
  destruct s as [|c s]; [reflexivity|]. cbn in H.
  rewrite Ascii.eqb_sym, H. reflexivity.
Qed.

Lemma is_not_eqb (x c : ascii) : is_not x c = true -> Ascii.eqb c x = false.
Proof. unfold is_not. now destruct (Ascii.eqb c x). Qed.

Local Open Scope outcome_scope.

(** A text without a dot is copied. *)
Lemma subn_no_dot (w : string) :
  all (is_not ".") w = true ->
  forall prv s,
    subn_go pattern replacer 0 prv (w ++ s)
    = ('(out, n) <- subn_go pattern replacer 0 (last_char w prv) s ;;
       Returned (w ++ out, n)).
Proof.
  induction w as [|c w IH]; intros Hw prv s; cbn [append last_char].
  - now destruct (subn_go pattern replacer 0 prv s) as [[out n]|e].
  - cbn [all] in Hw. apply andb_true_iff in Hw as [Hc Hw].
    cbn [subn_go]. rewrite match_at_no_dot by (now apply is_not_eqb).
    rewrite (IH Hw (Some c) s).
    now destruct (subn_go pattern replacer 0 (last_char w (Some c)) s)
      as [[out n]|e].
Qed.

Lemma subn_no_dot_end (w : string) (prv : option ascii) :
  all (is_not ".") w = true ->
  subn_go pattern replacer 0 prv w = Returned (w, 0).
Proof.
  intros Hw. rewrite <- (app_nil_r w) at 1.
  rewrite subn_no_dot by assumption.
  cbn [subn_go]. rewrite match_at_no_dot by exact I.
  cbn [obind]. now rewrite app_nil_r.
Qed.

Lemma callable_app (sig obj meth post : string) :
  callable sig obj meth EmptyString ++ post = callable sig obj meth post.
Proof.
  unfold callable, q, chr. cbn [append].
  repeat (rewrite app_assoc; cbn [append]). reflexivity.
Qed.

Lemma call_nonempty (sig ws1 obj ws2 meth post : string) :
  call sig ws1 obj ws2 meth post <> EmptyString.
Proof. discriminate. Qed.

End ConnectCall.

(** ** A call of [connect] in its text *)

Module ConnectContext.
Import Re ReFacts TextFacts FixConnect ConnectFacts ConnectCall.
Local Open Scope outcome_scope.

(** [fix_connect_calls] in terms of [fixed] and [matches_in]. *)
Lemma fix_connect_spec (content : string) :
  fix_connect_calls content = Returned (fixed content, matches_in content) /\
  (matches_in content = 0 <-> fixed content = content).
Proof.
  destruct (subn_go_findall pattern replacer replacer_total content 0 None)
    as [out H].
  assert (E : fix_connect_calls content
              = Returned (out, List.length (findall pattern content))).
  { unfold fix_connect_calls, subn_with, findall. now rewrite H. }
  unfold fixed, matches_in. rewrite E. split; [reflexivity|]. split.
  - intros Hz. unfold findall in Hz. rewrite Hz in H.
    now apply subn_go_zero in H.
  - intros ->.
    pose proof (subn_go_count pattern replacer "C" replacer_count _ _ _ _ _ H)
      as Hc.
    cbn [drop] in Hc. unfold findall. lia.
Qed.

(** A match begins with the literal the pattern begins with. *)
Lemma connect_match_prefix (adv : bool) (prv : option ascii) (s : string)
    (n : nat) (g : groups) :
  match_at pattern adv prv s = Some (n, g) ->
  prefix (".connect(" ++ q) s = true.
Proof.
  intros H. apply connect_match_inv in H
    as (sig & ws1 & obj & ws2 & meth & params & p4 & Ht & _).
  rewrite <- (take_drop n s), Ht, app_assoc. apply prefix_app.
Qed.

(** No match at the position: the character is copied. *)
Lemma subn_go_miss (c : ascii) (s : string) (prv : option ascii) :
  match_at pattern false prv (String c s) = None ->
  subn_go pattern replacer 0 prv (String c s)
  = obind (subn_go pattern replacer 0 (Some c) s)
      (fun res => Returned (String c (fst res), snd res)).
Proof.
  intros H. cbn [subn_go]. rewrite H.
  now destruct (subn_go pattern replacer 0 (Some c) s) as [[out n]|e].
Qed.

(** The pattern begins with a literal: what comes before the position
    does not count. *)
Lemma match_at_prev (adv : bool) (prv prv' : option ascii) (s : string) :
  match_at pattern adv prv s = match_at pattern adv prv' s.
Proof.
  unfold match_at, pattern. cbn [seq]. rewrite !exec_cat.
  cbn [exec prev rest pos caps]. unfold q, chr. cbn [append read_lit].
  destruct s as [|c s]; reflexivity.
Qed.

Lemma subn_go_prev (s : string) (skip : nat) (prv prv' : option ascii) :
  subn_go pattern replacer skip prv s = subn_go pattern replacer skip prv' s.
Proof.
  destruct s as [|c s]; destruct skip as [|k]; cbn [subn_go]; try reflexivity;
    now rewrite (match_at_prev false prv prv'), (match_at_prev true prv prv').
Qed.

Lemma subn_go_fixed (post : string) (prv : option ascii) :
  subn_go pattern replacer 0 prv post = Returned (fixed post, matches_in post).
Proof.
  rewrite (subn_go_prev post 0 prv None).
  destruct (fix_connect_spec post) as [H _].
  unfold fix_connect_calls, subn_with in H.
  destruct (subn_go pattern replacer 0 None post) as [[out n]|e];
    cbn [obind] in H; [now inversion H | discriminate].
Qed.

(** A literal with its first character nowhere else in it does not
    begin before an occurrence of that character and end after it. *)
Lemma prefix_before (x : ascii) :
  forall l w rest,
    count_char x l = 0 ->
    prefix l (w ++ String x rest) = true -> prefix l w = true.
Proof.
  induction l as [|a l IH]; intros w rest Hl H.
  - now destruct w.
  - cbn [count_char] in Hl.
    destruct (Ascii.eqb_spec a x) as [->|N]; [discriminate|].
    destruct w as [|d w]; cbn [append prefix] in *.
    + destruct (ascii_dec a x) as [->|_]; [now destruct N | discriminate].
    + destruct (ascii_dec a d) as [_|_]; [|discriminate].
      now apply (IH w rest).
Qed.

Lemma subn_before_call (rest : string) :
  forall pre prv,
    contains (".connect(" ++ q) pre = false ->
    subn_go pattern replacer 0 prv (pre ++ String "." rest)
    = obind (subn_go pattern replacer 0 (last_char pre prv) (String "." rest))
        (fun res => Returned (pre ++ fst res, snd res)).
Proof.
  induction pre as [|c pre IH]; intros prv H.
  - cbn [append last_char].
    destruct (subn_go pattern replacer 0 prv (String "." rest)) as [[out n]|e];
      reflexivity.
  - cbn [contains] in H. apply orb_false_iff in H as [H1 H2].
    assert (M : match_at pattern false prv (String c (pre ++ String "." rest))
                = None).
    { destruct (match_at pattern false prv (String c (pre ++ String "." rest)))
        as [[n g]|] eqn:E; [|reflexivity].
      apply connect_match_prefix in E. unfold startswith in H1.
      unfold q, chr in E, H1. cbn [append] in E, H1.
      change (String c (pre ++ String "." rest))
        with (String c pre ++ String "." rest) in E.
      cbn [prefix] in E, H1. cbn [append prefix] in E.
      destruct (ascii_dec "." c) as [_|_]; [|discriminate].
      apply (prefix_before ".") in E; [congruence | reflexivity]. }
    change (String c pre ++ String "." rest)
      with (String c (pre ++ String "." rest)).
    rewrite (subn_go_miss _ _ _ M), (IH (Some c) H2). cbn [last_char].
    destruct (subn_go pattern replacer 0 (last_char pre (Some c))
                (String "." rest)) as [[out n]|e]; reflexivity.
Qed.

(** A text that has nowhere the literal the pattern begins with is
    copied. *)
Lemma subn_no_literal :
  forall s prv,
    contains (".connect(" ++ q) s = false ->
    subn_go pattern replacer 0 prv s = Returned (s, 0).
Proof.
  induction s as [|c s IH]; intros prv H; cbn [contains] in H;
    apply orb_false_iff in H as [H1 H2].
  - cbn [subn_go].
    destruct (match_at pattern false prv EmptyString) as [[n g]|] eqn:E;
      [|reflexivity].
    apply connect_match_prefix in E. unfold startswith in H1. congruence.
  - assert (M : match_at pattern false prv (String c s) = None).
    { destruct (match_at pattern false prv (String c s)) as [[n g]|] eqn:E;
        [|reflexivity].
      apply connect_match_prefix in E. unfold startswith in H1. congruence. }
    rewrite (subn_go_miss _ _ _ M), (IH (Some c) H2). reflexivity.
Qed.

(** [replacer] on a match without the list of parameters, whatever the
    groups hold. *)
Lemma replacer_without_params (whole sig obj meth : string) :
  replacer [Some whole; Some sig; Some obj; Some meth; None]
  = Returned (callable sig obj meth EmptyString).
Proof.
  unfold replacer, group. cbn [nth_error obind truthy fmt].
  unfold callable, q, chr. cbn [append].
  repeat (rewrite app_assoc; cbn [append]). reflexivity.
Qed.

Lemma match_without_params (adv : bool) (prv : option ascii) (s : string)
    (n : nat) (g : groups) :
  match_at pattern adv prv s = Some (n, g) -> nth 4 g None = None ->
  exists sig ws1 obj ws2 meth,
    take n s = call sig ws1 obj ws2 meth EmptyString /\
    g = [Some (take n s); Some sig; Some obj; Some meth; None] /\
    replacer g = Returned (callable sig obj meth EmptyString).
Proof.
  intros H H4.
  apply connect_match_inv in H
    as (sig & ws1 & obj & ws2 & meth & params & p4 & Ht & Hg & _ & _ & Hp).
  rewrite Hg in H4. cbn [nth] in H4. subst p4.
  destruct Hp as [[-> _]|(ws3 & ws4 & inner & _ & Hsome & _)]; [|discriminate].
  exists sig, ws1, obj, ws2, meth. split; [|split].
  - rewrite Ht. unfold call, q, chr. cbn [append].
    repeat (rewrite app_assoc; cbn [append]). reflexivity.
  - exact Hg.
  - rewrite Hg. apply replacer_without_params.
Qed.

End ConnectContext.

(** ** The claims on [fix_connect_calls] *)

Module ConnectClaims.
Import Re ReFacts TextFacts FixConnect ConnectFacts ConnectCall ConnectContext.

(** C8. A connect call without the bracketed list of parameters.
    Every match of the pattern in which the optional group took no
    part, in whatever text and at whatever place, covers a call
    [.connect("sig",obj,"method")], blanks after the commas apart, and
    [replacer] returns for it, without raising,
    [.connect("sig", Callable(obj, "method"))]: the group that is
    missing adds nothing.  [replacer] does so whatever the three
    groups hold.  Wherever the scan of [re.subn] stands at such a call
    it replaces it, counts it, and goes on after it as on a text of
    its own; so a call before which the text has nowhere the literal
    the pattern begins with is replaced by [fix_connect_calls]
    whatever else the text has, other dots and later calls included,
    and what follows the call is fixed as if it were alone. *)
Theorem connect_without_params :
  (forall adv prv s n g,
      match_at pattern adv prv s = Some (n, g) ->
      nth 4 g None = None ->
      exists sig ws1 obj ws2 meth,
        take n s = call sig ws1 obj ws2 meth EmptyString /\
        g = [Some (take n s); Some sig; Some obj; Some meth; None] /\
        replacer g = Returned (callable sig obj meth EmptyString)) /\
  (forall whole sig obj meth,
      replacer [Some whole; Some sig; Some obj; Some meth; None]
      = Returned (callable sig obj meth EmptyString)) /\
  (forall sig ws1 obj ws2 meth,
      sig <> EmptyString -> all (is_not dquote) sig = true ->
      all is_space ws1 = true ->
      obj <> EmptyString -> all is_word obj = true ->
      all is_space ws2 = true ->
      meth <> EmptyString -> all (is_not dquote) meth = true ->
      (forall prv post,
          subn_go pattern replacer 0 prv (call sig ws1 obj ws2 meth post)
          = Returned (callable sig obj meth (fixed post), S (matches_in post))) /\
      (forall pre post,
          contains (".connect(" ++ q) pre = false ->
          fix_connect_calls (pre ++ call sig ws1 obj ws2 meth post)
          = Returned (pre ++ callable sig obj meth (fixed post),
                      S (matches_in post))) /\
      (forall pre post,
          contains (".connect(" ++ q) pre = false ->
          contains (".connect(" ++ q) post = false ->
          fix_connect_calls (pre ++ call sig ws1 obj ws2 meth post)
          = Returned (pre ++ callable sig obj meth post, 1))).
Proof.
  split; [exact match_without_params|]. split; [exact replacer_without_params|].
  intros sig ws1 obj ws2 meth Hsig Asig Aws1 Hobj Aobj Aws2 Hmeth Ameth.
  assert (Hscan : forall prv post,
             subn_go pattern replacer 0 prv (call sig ws1 obj ws2 meth post)
             = Returned (callable sig obj meth (fixed post),
                         S (matches_in post))).
  { intros prv post.
    pose proof (match_at_call prv sig ws1 obj ws2 meth post
                  Hsig Asig Aws1 Hobj Aobj Aws2 Hmeth Ameth) as M.
    rewrite <- (call_app sig ws1 obj ws2 meth post) in M |- *.
    rewrite (subn_go_hit pattern replacer _ _ _ _
               (callable sig obj meth EmptyString) M
               (call_nonempty _ _ _ _ _ _) eq_refl).
    rewrite subn_go_fixed. cbn [obind fst snd]. now rewrite callable_app. }
  assert (Hfix : forall pre post,
             contains (".connect(" ++ q) pre = false ->
             fix_connect_calls (pre ++ call sig ws1 obj ws2 meth post)
             = Returned (pre ++ callable sig obj meth (fixed post),
                         S (matches_in post))).
  { intros pre post Hpre. unfold fix_connect_calls, subn_with.
    assert (E : exists tail, call sig ws1 obj ws2 meth post = String "." tail)
      by (eexists; reflexivity).
    destruct E as [tail E].
    pose proof (Hscan (last_char pre None) post) as Hs.
    rewrite E in Hs |- *.
    rewrite (subn_before_call tail pre None Hpre), Hs. reflexivity. }
  split; [exact Hscan|]. split; [exact Hfix|].
  intros pre post Hpre Hpost. rewrite (Hfix pre post Hpre).
  pose proof (subn_go_fixed post None) as F.
  rewrite (subn_no_literal post None Hpost) in F.
  injection F as F1 F2. now rewrite <- F2, <- F1.
Qed.

(** A call on [self.button], with a number and a second call after it:
    both calls are fixed. *)
Lemma connect_without_params_witness :
  "pressed" <> EmptyString /\ all (is_not dquote) "pressed" = true /\
  all is_space " " = true /\
  "self" <> EmptyString /\ all is_word "self" = true /\
  "_on_pressed" <> EmptyString /\ all (is_not dquote) "_on_pressed" = true /\
  contains (".connect(" ++ q) "self.button" = false /\
  fix_connect_calls
    ("self.button"
     ++ call "pressed" " " "self" " " "_on_pressed"
          ("; x = 1.5; t" ++ call "timeout" "" "self" " " "_on_timeout" ";"))
  = Returned
      ("self.button"
       ++ callable "pressed" "self" "_on_pressed"
            ("; x = 1.5; t" ++ callable "timeout" "self" "_on_timeout" ";"),
       2).
Proof.
  repeat (split; [solve [reflexivity | discriminate]|]).
  destruct connect_without_params as (_ & _ & H).
  pose proof (H "pressed" " " "self" " " "_on_pressed"
                ltac:(discriminate) eq_refl eq_refl
                ltac:(discriminate) eq_refl eq_refl
                ltac:(discriminate) eq_refl) as (_ & Hd & _).
  rewrite (Hd "self.button"
             ("; x = 1.5; t" ++ call "timeout" "" "self" " " "_on_timeout" ";")
             eq_refl).
  vm_compute. reflexivity.
Defined.

(** C10. [fix_connect_calls] returns on every text; its count is the
    number of matches of the pattern in the text, all of them replaced,
    and it is 0 exactly when the text comes back unchanged. *)
Theorem fix_connect_count (content : string) :
  exists new_content count,
    fix_connect_calls content = Returned (new_content, count) /\
    count = List.length (findall pattern content) /\
    (count = 0 <-> new_content = content).
Proof.
  destruct (subn_go_findall pattern replacer replacer_total content 0 None)
    as [out H].
  exists out, (List.length (findall pattern content)).
  unfold fix_connect_calls, subn_with, findall. rewrite H. cbn [obind].
  split; [reflexivity|]. split; [reflexivity|]. split.
  - intros Hz. unfold findall in Hz. rewrite Hz in H.
    now apply subn_go_zero in H.
  - intros ->.
    pose proof (subn_go_count pattern replacer "C" replacer_count _ _ _ _ _ H)
      as Hc.
    cbn [drop] in Hc. unfold findall. lia.
Qed.

End ConnectClaims.

(** ** The claims on [migrate_file] and [migrate_directory] *)

Module MigrateClaims.
Import Re ReFacts TextFacts Migrate MigrateFacts DirectoryFacts WriteFacts.

(** C1. Running [migrate_file] on its own output is not the identity:
    the first run turns [BUTTON_LEFT] into [MOUSE_BUTTON_LEFT], in which
    the second run finds [BUTTON_LEFT] again and rewrites it once
    more. *)
Theorem button_rename_twice :
  migrate_file "if event.button_index == BUTTON_LEFT:"
  = Returned (Some "if event.button_index == MOUSE_BUTTON_LEFT:",
              ["BUTTON_LEFT → MOUSE_BUTTON_LEFT"]) /\
  migrate_file "if event.button_index == MOUSE_BUTTON_LEFT:"
  = Returned (Some "if event.button_index == MOUSE_MOUSE_BUTTON_LEFT:",
              ["BUTTON_LEFT → MOUSE_BUTTON_LEFT"]).
Proof. split; vm_compute; reflexivity. Qed.

(** C5. The line of the [randomize()] call goes away together with the
    end of the line before it: the two neighbouring lines come out as
    one. *)
Theorem randomize_joins_lines :
  migrate_file ("func _ready():" ++ nl ++ tab ++ "randomize()" ++ nl
                ++ tab ++ "pass" ++ nl)
  = Returned (Some ("func _ready():" ++ tab ++ "pass" ++ nl),
              ["Removed randomize() call (automatic in Godot 4)";
               "⚠️  CONSIDER: Add super._ready() call if extending custom class"]).
Proof. vm_compute. reflexivity. Qed.

(** C9. [migrate_file] returns a content and a list of changes on every
    text, and so does every rule of its catalog on every state: nothing
    raises. *)
Theorem migrate_file_total (text : string) :
  (exists content changes, migrate_file text = Returned (content, changes)) /\
  (forall e st, In e catalog -> exists st', step e st = Returned (tt, st')) /\
  migrate_file EmptyString = Returned (None, []).
Proof.
  split; [apply migrate_file_returns|]. split; [|reflexivity].
  intros e st He.
  pose proof (proj1 (Forall_forall _ _) catalog_well_formed e He) as Hw.
  destruct (step_form e Hw) as (fires & rewrite & msg & Hstep & _).
  rewrite Hstep. eauto.
Qed.

(** C4. The content [migrate_file] returns is [None] exactly when the
    rewriting rules, run in the order of the catalog, leave the text as
    it is, whatever the flags raised; otherwise it is the text these
    rules produce.  When all the changes are flags it is [None]. *)
Theorem content_signal (text : string) :
  exists final changes,
    run (mechanical_only catalog) (Locals text [])
    = Returned (tt, Locals final (automatic changes)) /\
    (final = text -> migrate_file text = Returned (None, changes)) /\
    (final <> text -> migrate_file text = Returned (Some final, changes)) /\
    (all_advisory changes -> final = text).
Proof.
  destruct (run_mechanical_only catalog catalog_well_formed
              (Locals text []) (Locals text []) eq_refl)
    as (final & changes & H1 & H2).
  cbn [l_changes app] in H1, H2.
  exists final, changes. split; [exact H2|].
  assert (Hm : migrate_file text
               = Returned (if String.eqb final text then None else Some final,
                           changes)).
  { unfold migrate_file. rewrite rules_catalog, H1. cbn [l_content l_changes].
    now destruct (String.eqb final text). }
  repeat split.
  - intros ->. now rewrite Hm, String.eqb_refl.
  - intros Hne. rewrite Hm.
    destruct (String.eqb_spec final text); [contradiction | reflexivity].
  - intros Hadv.
    now destruct (run_advisory_only catalog catalog_well_formed _ _ H1 Hadv).
Qed.

(** C6. When all the changes [migrate_file] reports for a text are
    flags, the content it returns is [None] and the changes are the
    flags of the catalog the text raises, one for each; a flag never
    touches the content.  Such a file is never written: the step of
    [migrate_directory] for it, at whatever point of a run and in
    apply mode as in a dry run, writes nothing and counts no file as
    changed, and a run over any listing writes what the run over the
    listing without the file writes, and counts as many files. *)
Theorem advisory_no_write (text : string) (content : option string)
    (changes : list string) :
  migrate_file text = Returned (content, changes) ->
  all_advisory changes ->
  content = None /\
  changes = flags_of catalog text /\
  (forall detect msg st,
      exists st', flag detect msg st = Returned (tt, st')
                  /\ l_content st' = l_content st) /\
  (forall dry_run rel_path,
      exists t,
        migrate_directory [(rel_path, text)] dry_run = Returned t /\
        writes t = [] /\ files_changed t = 0) /\
  (forall dry_run t rel_path,
      exists t',
        visit dry_run t (rel_path, text) = Returned t' /\
        writes t' = writes t /\ files_changed t' = files_changed t) /\
  (forall dry_run before after rel_path,
      exists t t0,
        migrate_directory (before ++ (rel_path, text) :: after) dry_run
        = Returned t /\
        migrate_directory (before ++ after) dry_run = Returned t0 /\
        writes t = writes t0 /\
        writes t = (if dry_run then []
                    else rewritten before ++ rewritten after)%list /\
        files_changed t = files_changed t0).
Proof.
  intros H Hadv.
  destruct (migrate_file_advisory _ _ _ H Hadv) as [-> ->].
  rewrite <- (changes_of_spec _ _ _ H) in Hadv.
  split; [reflexivity|]. split; [reflexivity|]. split; [|split; [|split]].
  - intros detect msg [c l].
    unfold flag, bind, get_content, when, append_change, ret.
    cbn [l_content l_changes]. destruct (detect c); eexists; split; reflexivity.
  - intros dry_run rel_path. unfold migrate_directory.
    assert (HF : Forall (fun file => all_advisory (changes_of (snd file)))
                   [(rel_path, text)])
      by (constructor; [exact Hadv | constructor]).
    match goal with
    | |- context [visit_all dry_run ?t0 _] =>
        destruct (visit_all_advisory dry_run _ HF t0) as (t' & -> & W & F)
    end.
    cbn [obind]. eexists; split; [reflexivity|].
    rewrite !writes_say in *. cbn [say files_changed] in *.
    split; [exact W | exact F].
  - intros dry_run t rel_path. now apply visit_advisory.
  - intros dry_run before after rel_path.
    destruct (migrate_directory_spec (before ++ (rel_path, text) :: after) dry_run)
      as (t & Ht & W & F & _).
    destruct (migrate_directory_spec (before ++ after) dry_run)
      as (t0 & Ht0 & W0 & F0 & _).
    exists t, t0.
    assert (R : rewritten (before ++ (rel_path, text) :: after)
                = (rewritten before ++ rewritten after)%list).
    { rewrite rewritten_app. cbn [rewritten].
      now rewrite (advisory_not_rewritten text Hadv). }
    rewrite R in W, F. rewrite rewritten_app in W0, F0.
    repeat split; try assumption; congruence.
Qed.

(** The text [yield(timer)] raises the flag of [yield] and nothing else. *)
Lemma advisory_no_write_witness :
  migrate_file "yield(timer)"
  = Returned (None, ["⚠️  MANUAL: yield() → await (syntax change required)"]) /\
  all_advisory ["⚠️  MANUAL: yield() → await (syntax change required)"] /\
  @None string = None /\
  ["⚠️  MANUAL: yield() → await (syntax change required)"]
  = flags_of catalog "yield(timer)" /\
  (forall detect msg st,
      exists st', flag detect msg st = Returned (tt, st')
                  /\ l_content st' = l_content st) /\
  (forall dry_run rel_path,
      exists t,
        migrate_directory [(rel_path, "yield(timer)")] dry_run = Returned t /\
        writes t = [] /\ files_changed t = 0) /\
  (forall dry_run t rel_path,
      exists t',
        visit dry_run t (rel_path, "yield(timer)") = Returned t' /\
        writes t' = writes t /\ files_changed t' = files_changed t) /\
  (forall dry_run before after rel_path,
      exists t t0,
        migrate_directory (before ++ (rel_path, "yield(timer)") :: after) dry_run
        = Returned t /\
        migrate_directory (before ++ after) dry_run = Returned t0 /\
        writes t = writes t0 /\
        writes t = (if dry_run then []
                    else rewritten before ++ rewritten after)%list /\
        files_changed t = files_changed t0).
Proof.
  split; [vm_compute; reflexivity|]. split; [repeat constructor|].
  apply (advisory_no_write "yield(timer)" None
           ["⚠️  MANUAL: yield() → await (syntax change required)"]).
  - vm_compute. reflexivity.
  - repeat constructor.
Defined.

(** C7. The change of the typed-export rule reads
    [export(Type) → @export (N occurrences)], where [N] is, written in
    decimal, the number of replacements [re.subn] makes with the
    pattern and the template of the rule, that is the number of
    declarations rewritten, which is the number of matches [findall]
    lists; the number can be read back from the record.  With no
    declaration the rule does nothing.  Two declarations give one
    change with the count 2. *)
Theorem export_count_exact (st : locals) :
  (exists new n digits,
      subn export_pattern [TLit "@export var "; TRef 2] (l_content st)
      = Returned (new, n) /\
      n = List.length (findall export_pattern (l_content st)) /\
      digits = NilEmpty.string_of_uint (Nat.to_uint n) /\
      option_map Nat.of_uint (NilEmpty.uint_of_string digits) = Some n /\
      rule_export st
      = Returned (tt,
          match n with
          | O => st
          | S _ =>
              Locals new
                (l_changes st
                 ++ [("export(Type) → @export (" ++ digits
                      ++ " occurrences)")%string])%list
          end)) /\
  migrate_file ("export(int) var health" ++ nl ++ "export(int) var mana" ++ nl)
  = Returned (Some ("@export var health" ++ nl ++ "@export var mana" ++ nl),
              ["export(Type) → @export (2 occurrences)"]).
Proof.
  split; [|vm_compute; reflexivity].
  destruct st as [c l]. cbn [l_content l_changes].
  exists (sub_value export_pattern [TLit "@export var "; TRef 2] c),
         (List.length (findall export_pattern c)),
         (NilEmpty.string_of_uint (Nat.to_uint (List.length (findall export_pattern c)))).
  split; [now apply subn_returns|]. split; [reflexivity|].
  split; [reflexivity|]. split.
  - rewrite NilEmpty.usu. cbn [option_map]. now rewrite DecimalNat.Unsigned.of_to.
  - unfold rule_export, bind, get_content, when, set_content, append_change, ret.
    cbn [l_content l_changes].
    destruct (findall export_pattern c) as [|m ms]; [reflexivity|].
    cbn [nonempty List.length]. unfold lift.
    now rewrite (sub_returns export_pattern [TLit "@export var "; TRef 2] c eq_refl).
Qed.

(** C3, as the code has it.  The count of automatic changes of a run is
    the number of changes without the warning sign, over all the files:
    every such change adds 1, the one of the typed-export rule too,
    whatever the count [n] it reports, and a flag adds nothing. *)
Theorem total_counts_changes :
  (forall gd_files dry_run,
      exists t,
        migrate_directory gd_files dry_run = Returned t /\
        total_changes t
        = list_sum (map (fun file => List.length (automatic (changes_of (snd file))))
                        gd_files)) /\
  (forall t n,
      total_changes (report_change t (export_message n)) = total_changes t + 1) /\
  (forall t change,
      is_advisory change = false ->
      total_changes (report_change t change) = total_changes t + 1) /\
  (forall t change,
      is_advisory change = true ->
      total_changes (report_change t change) = total_changes t).
Proof.
  split; [|split; [|split]].
  - intros gd_files dry_run. unfold migrate_directory.
    match goal with
    | |- context [visit_all dry_run ?t0 _] =>
        destruct (visit_all_total dry_run gd_files t0) as (t' & -> & H)
    end.
    cbn [obind]. eexists; split; [reflexivity|].
    cbn [say total_changes] in *. exact H.
  - intros t n. rewrite report_change_total. unfold automatic. cbn [filter].
    now rewrite export_message_automatic.
  - intros t change H. rewrite report_change_total. unfold automatic.
    cbn [filter]. now rewrite H.
  - intros t change H. rewrite report_change_total. unfold automatic.
    cbn [filter]. rewrite H. cbn. lia.
Qed.

(** C3, the claim as written fails.  The typed-export rule rewrites two
    declarations, and the run counts one automatic change, not two. *)
Lemma two_exports_count_one :
  let text := "export(int) var health" ++ nl ++ "export(int) var mana" ++ nl in
  changes_of text = [export_message 2] /\
  exists t,
    migrate_directory [("player.gd", text)] false = Returned t /\
    total_changes t = 1 /\ total_changes t <> 2.
Proof.
  split; [vm_compute; reflexivity|].
  eexists. split; [vm_compute; reflexivity|]. cbn. split; [reflexivity | discriminate].
Qed.

End MigrateClaims.

(** ** The typed-export rule and the two literal export rules *)

Module ExportFacts.
Import Re ReFacts TextFacts Migrate MigrateFacts.

Lemma declaration_app (type ws1 ws2 name post : string) :
  declaration type ws1 ws2 name EmptyString ++ post
  = declaration type ws1 ws2 name post.
Proof.
  unfold declaration. cbn [append].
  repeat (rewrite app_assoc; cbn [append]). reflexivity.
Qed.

Lemma match_at_declaration (prv : option ascii)
    (type ws1 ws2 name post : string) :
  type <> EmptyString -> all is_word type = true ->
  ws1 <> EmptyString -> all is_space ws1 = true ->
  ws2 <> EmptyString -> all is_space ws2 = true ->
  name <> EmptyString -> all is_word name = true ->
  stops is_word post ->
  match_at export_pattern false prv (declaration type ws1 ws2 name post)
  = Some (String.length (declaration type ws1 ws2 name EmptyString),
          [Some (declaration type ws1 ws2 name EmptyString);
           Some type; Some name]).
Proof.
  intros Htype Atype Hws1 Aws1 Hws2 Aws2 Hname Aname Hpost.
  unfold match_at. change (S (ngroups export_pattern)) with 3. cbn [repeat].
  set (k0 := fun cu : cursor => _).
  unfold export_pattern. cbn [seq]. unfold declaration at 1. cbn [append].
  rewrite exec_cat. erewrite exec_lit by reflexivity.
  rewrite exec_cat. apply exec_group_greedy;
    [reflexivity | assumption | now apply nonempty_length |].
  rewrite exec_cat. erewrite exec_lit by reflexivity.
  rewrite exec_cat. apply exec_rep_greedy;
    [reflexivity | assumption | now apply nonempty_length |].
  rewrite exec_cat. erewrite exec_lit by reflexivity.
  destruct name as [|c name']; [congruence|].
  cbn [all] in Aname. apply andb_true_iff in Aname as [Ac Aname'].
  rewrite exec_cat. apply exec_rep_greedy;
    [now apply word_not_space | assumption | now apply nonempty_length |].
  apply (exec_group_greedy 2 is_word 1 _ (String c name'));
    [assumption | cbn [all]; now rewrite Ac | cbn; lia |].
  subst k0. cbv beta. cbn [andb pos caps set_group].
  match goal with
  | |- Some (?n, _) = _ =>
      replace n with
        (String.length (declaration type ws1 ws2 (String c name') EmptyString))
  end.
  - now rewrite <- (declaration_app type ws1 ws2 (String c name') post), take_app.
  - unfold declaration. cbn [append String.length].
    repeat (rewrite length_app; cbn [String.length]). lia.
Qed.

(** A literal with a character the text does not have is not in it. *)
Lemma prefix_count (x : ascii) (old : string) :
  forall s, prefix old s = true -> count_char x old <= count_char x s.
Proof.
  induction old as [|a old IH]; intros s H; cbn [count_char]; [lia|].
  destruct s as [|b s]; [discriminate|]. cbn [prefix] in H.
  destruct (ascii_dec a b) as [->|_]; [|discriminate].
  apply IH in H. cbn [count_char]. lia.
Qed.

Lemma contains_count (x : ascii) (old s : string) :
  contains old s = true -> count_char x old <= count_char x s.
Proof.
  induction s as [|c s IH]; cbn [contains]; intros H.
  - rewrite orb_false_r in H. now apply prefix_count.
  - apply orb_true_iff in H as [H|H]; [now apply prefix_count|].
    apply IH in H. cbn [count_char]. lia.
Qed.

Lemma contains_absent (x : ascii) (old s : string) :
  1 <= count_char x old -> count_char x s = 0 -> contains old s = false.
Proof.
  intros Hold Hs. destruct (contains old s) eqn:E; [|reflexivity].
  apply (contains_count x) in E. lia.
Qed.

(** Where the literal does not occur, [replace] changes nothing. *)
Lemma replace_go_absent (old new s : string) :
  contains old s = false -> replace_go old new 0 s = s.
Proof.
  induction s as [|c s IH]; cbn [contains replace_go]; [reflexivity|].
  intros H. apply orb_false_iff in H as [H1 H2].
  rewrite H1. now rewrite IH.
Qed.

Section Declaration.
Variables type ws1 ws2 name : string.
Hypothesis Htype : type <> EmptyString.
Hypothesis Atype : all is_word type = true.
Hypothesis Hws1 : ws1 <> EmptyString.
Hypothesis Aws1 : all is_space ws1 = true.
Hypothesis Hws2 : ws2 <> EmptyString.
Hypothesis Aws2 : all is_space ws2 = true.
Hypothesis Hname : name <> EmptyString.
Hypothesis Aname : all is_word name = true.

Lemma match_at_decl (prv : option ascii) :
  match_at export_pattern false prv
    (declaration type ws1 ws2 name EmptyString ++ EmptyString)
  = Some (String.length (declaration type ws1 ws2 name EmptyString),
          [Some (declaration type ws1 ws2 name EmptyString);
           Some type; Some name]).
Proof.
  rewrite declaration_app. now apply match_at_declaration.
Qed.

Lemma decl_nonempty : declaration type ws1 ws2 name EmptyString <> EmptyString.
Proof. discriminate. Qed.

Lemma findall_declaration :
  findall export_pattern (declaration type ws1 ws2 name EmptyString)
  = [[type; name]].
Proof.
  unfold findall.
  rewrite <- (app_nil_r (declaration type ws1 ws2 name EmptyString)).
  rewrite (findall_go_hit _ _ _ _ _ (match_at_decl None) decl_nonempty).
  reflexivity.
Qed.

Lemma sub_declaration :
  sub export_pattern [TLit "@export var "; TRef 2]
    (declaration type ws1 ws2 name EmptyString)
  = Returned ("@export var " ++ name).
Proof.
  unfold sub, subn, subn_with.
  change (template_ok export_pattern [TLit "@export var "; TRef 2]) with true.
  cbv iota.
  rewrite <- (app_nil_r (declaration type ws1 ws2 name EmptyString)).
  rewrite (subn_go_hit _ _ _ _ _ _ _ (match_at_decl None) decl_nonempty eq_refl).
  cbn [subn_go]. change (match_at export_pattern false _ EmptyString) with
    (@None (nat * groups)).
  cbn [obind fst snd expand nth]. now rewrite !app_nil_r.
Qed.

(** The typed-export rule on the declaration alone. *)
Lemma rule_export_declaration (l : list string) :
  rule_export (Locals (declaration type ws1 ws2 name EmptyString) l)
  = Returned (tt, Locals ("@export var " ++ name) (l ++ [export_message 1])%list).
Proof.
  unfold rule_export, bind, get_content, when, set_content, append_change, ret.
  cbn [l_content l_changes]. rewrite findall_declaration.
  cbn [nonempty List.length]. unfold lift. now rewrite sub_declaration.
Qed.

End Declaration.

(** A name has no parenthesis. *)
Lemma annotation_has_no_export (old name : string) :
  1 <= count_char "(" old -> all is_word name = true ->
  contains old ("@export var " ++ name) = false.
Proof.
  intros Hold Hname. apply (contains_absent "("); [assumption|].
  cbn [append count_char]. cbn.
  now apply (count_char_all is_word).
Qed.

Lemma replace_hit_absent (old new s : string) :
  old <> EmptyString -> contains old s = false ->
  replace old new (old ++ s) = new ++ s.
Proof.
  intros Hold Hs. destruct old as [|a old']; [congruence|].
  unfold replace. now rewrite replace_go_hit, replace_go_absent.
Qed.

(** The literal rule for the type [ty], alone on a declaration. *)
Lemma literal_rule_alone (ty name msg : string) (l : list string) :
  all is_word name = true ->
  rule_replace ("export(" ++ ty ++ ")") "@export" msg
    (Locals (("export(" ++ ty ++ ")") ++ " var " ++ name) l)
  = Returned (tt, Locals ("@export var " ++ name) (l ++ [msg])%list).
Proof.
  intros Hname.
  unfold rule_replace, bind, get_content, when, set_content, append_change, ret.
  cbn [l_content l_changes]. rewrite contains_prefix.
  rewrite replace_hit_absent; [reflexivity | discriminate |].
  apply (contains_absent "(").
  - cbn. lia.
  - cbn. now apply (count_char_all is_word).
Qed.

(** The literal rule after the typed-export rule: nothing is left. *)
Lemma literal_rule_after (ty name msg : string) (l : list string) :
  all is_word name = true ->
  rule_replace ("export(" ++ ty ++ ")") "@export" msg
    (Locals ("@export var " ++ name) l)
  = Returned (tt, Locals ("@export var " ++ name) l).
Proof.
  intros Hname.
  unfold rule_replace, bind, get_content, when, set_content, append_change, ret.
  cbn [l_content l_changes].
  rewrite annotation_has_no_export; [reflexivity | cbn; lia | assumption].
Qed.

Lemma declaration_plain (ty name : string) :
  declaration ty " " " " name EmptyString = ("export(" ++ ty ++ ")") ++ " var " ++ name.
Proof.
  unfold declaration. cbn [append].
  repeat (rewrite app_assoc; cbn [append]). now rewrite app_nil_r.
Qed.

End ExportFacts.

Module ExportClaims.
Import Re ReFacts TextFacts Migrate MigrateFacts ExportFacts.

(** C2, as the code has it.  The typed-export rule is not apart from
    the two literal export rules.  On a declaration
    [export(NodePath) var x] or [export(PackedScene) var x], [x] a name,
    it rewrites the declaration itself to [@export var x] and reports
    it in its own count; the literal rule that comes later finds
    nothing left and does not fire, while alone on the declaration it
    fires and gives the same text [@export var x]. *)
Theorem export_rule_takes_over (name : string) (l : list string) :
  name <> EmptyString -> all is_word name = true ->
  (rule_export (Locals ("export(NodePath) var " ++ name) l)
   = Returned (tt, Locals ("@export var " ++ name) (l ++ [export_message 1])%list)
   /\ rule_export_nodepath (Locals ("@export var " ++ name) l)
      = Returned (tt, Locals ("@export var " ++ name) l)
   /\ rule_export_nodepath (Locals ("export(NodePath) var " ++ name) l)
      = Returned (tt, Locals ("@export var " ++ name)
                        (l ++ ["export(NodePath) → @export"])%list)) /\
  (rule_export (Locals ("export(PackedScene) var " ++ name) l)
   = Returned (tt, Locals ("@export var " ++ name) (l ++ [export_message 1])%list)
   /\ rule_export_packedscene (Locals ("@export var " ++ name) l)
      = Returned (tt, Locals ("@export var " ++ name) l)
   /\ rule_export_packedscene (Locals ("export(PackedScene) var " ++ name) l)
      = Returned (tt, Locals ("@export var " ++ name)
                        (l ++ ["export(PackedScene) → @export"])%list)).
Proof.
  intros Hname Aname. split; (split; [|split]).
  - change ("export(NodePath) var " ++ name)
      with (("export(" ++ "NodePath" ++ ")") ++ " var " ++ name).
    rewrite <- declaration_plain.
    apply rule_export_declaration; solve [assumption | reflexivity | discriminate].
  - now apply (literal_rule_after "NodePath").
  - now apply (literal_rule_alone "NodePath").
  - change ("export(PackedScene) var " ++ name)
      with (("export(" ++ "PackedScene" ++ ")") ++ " var " ++ name).
    rewrite <- declaration_plain.
    apply rule_export_declaration; solve [assumption | reflexivity | discriminate].
  - now apply (literal_rule_after "PackedScene").
  - now apply (literal_rule_alone "PackedScene").
Qed.

(** The declaration [export(NodePath) var target]. *)
Lemma export_rule_takes_over_witness :
  "target" <> EmptyString /\ all is_word "target" = true /\
  (rule_export (Locals "export(NodePath) var target" [])
   = Returned (tt, Locals "@export var target" [export_message 1])
   /\ rule_export_nodepath (Locals "@export var target" [])
      = Returned (tt, Locals "@export var target" [])
   /\ rule_export_nodepath (Locals "export(NodePath) var target" [])
      = Returned (tt, Locals "@export var target" ["export(NodePath) → @export"])) /\
  (rule_export (Locals "export(PackedScene) var target" [])
   = Returned (tt, Locals "@export var target" [export_message 1])
   /\ rule_export_packedscene (Locals "@export var target" [])
      = Returned (tt, Locals "@export var target" [])
   /\ rule_export_packedscene (Locals "export(PackedScene) var target" [])
      = Returned (tt, Locals "@export var target"
                        ["export(PackedScene) → @export"])).
Proof.
  split; [discriminate|]. split; [reflexivity|].
  apply (export_rule_takes_over "target" []); [discriminate | reflexivity].
Defined.

(** C2, the claim as written fails.  On [export(NodePath) var target]
    the literal rule alone rewrites one occurrence; in the run of
    [migrate_file] it rewrites none and its change is not reported: the
    typed-export rule has taken the declaration. *)
Lemma nodepath_rule_underfires :
  rule_export_nodepath (Locals "export(NodePath) var target" [])
  = Returned (tt, Locals "@export var target" ["export(NodePath) → @export"]) /\
  migrate_file "export(NodePath) var target"
  = Returned (Some "@export var target",
              ["export(Type) → @export (1 occurrences)"]) /\
  ~ In "export(NodePath) → @export" (changes_of "export(NodePath) var target").
Proof.
  split; [vm_compute; reflexivity|]. split; [vm_compute; reflexivity|].
  vm_compute. intros [H|[]]. discriminate.
Qed.

End ExportClaims.

(** ** How [search], [findall] and [subn] go together *)

Module ScanFacts.
Import Re ReFacts TextFacts.

Section Agree.
Variable r : regex.
Variable repl : groups -> outcome string.

(** Where [search] finds nothing, [subn] returns the text and the count
    0, and [findall] the empty list. *)
Lemma search_none_subn :
  forall s prv,
    search_go r prv s = None ->
    subn_go r repl 0 prv s = Returned (s, 0) /\ findall_go r 0 prv s = [].
Proof.
  induction s as [|c s IH]; intros prv H; cbn [search_go] in H;
    cbn [subn_go findall_go];
    destruct (match_at r false prv _) as [[n g]|] eqn:E; try discriminate.
  - split; reflexivity.
  - destruct (IH _ H) as [-> ->]. split; reflexivity.
Qed.

(** Where [search] finds a match, [findall] finds one too. *)
Lemma search_some_findall :
  forall s prv g,
    search_go r prv s = Some g -> findall_go r 0 prv s <> [].
Proof.
  induction s as [|c s IH]; intros prv g H; cbn [search_go] in H;
    cbn [findall_go];
    destruct (match_at r false prv _) as [[[|n] g']|] eqn:E;
    try discriminate.
  - apply (IH _ _ H).
Qed.

End Agree.

End ScanFacts.

Module PatternFacts.
Import Re ReFacts TextFacts Migrate.

Lemma matches_bound_inv (cu cu' : cursor) : matches Bound cu cu' -> cu' = cu.
Proof. intros Hm. now inversion Hm. Qed.

(** The text a match of each pattern of [migrate_file] covers, and its
    groups. *)
Lemma instance_match_inv (adv : bool) (prv : option ascii) (s : string)
    (n : nat) (g : groups) :
  match_at instance_pattern adv prv s = Some (n, g) ->
  exists name,
    take n s = name ++ ".instance(" /\ g = [Some (take n s); Some name] /\
    all is_word name = true /\ 1 <= String.length name.
Proof.
  intros H. apply match_at_sound in H as (cu' & Hm & -> & -> & _).
  change (S (ngroups instance_pattern)) with 2 in Hm. cbn [repeat] in Hm.
  unfold instance_pattern in Hm. cbn [seq] in Hm.
  apply matches_cat_inv in Hm as (c1 & H1 & Hm).
  apply matches_bound_inv in H1 as ->.
  apply matches_cat_inv in Hm as (c2 & H2 & Hm).
  apply matches_group_rep_inv in H2 as (name & S2 & C2 & A2 & L2).
  apply matches_lit_inv in Hm as [S3 C3].
  pose proof (spans_trans _ _ _ _ _ S2 S3) as Sall.
  apply spans_take in Sall. cbn [pos rest] in Sall. rewrite Nat.sub_0_r in Sall.
  exists name. rewrite Sall, C3, C2. auto.
Qed.

Lemma randomize_match_inv (adv : bool) (prv : option ascii) (s : string)
    (n : nat) (g : groups) :
  match_at randomize_pattern adv prv s = Some (n, g) ->
  exists ws1 ws2,
    take n s = ws1 ++ "randomize()" ++ ws2 ++ nl /\ g = [Some (take n s)] /\
    all is_space ws1 = true /\ all is_space ws2 = true.
Proof.
  intros H. apply match_at_sound in H as (cu' & Hm & -> & -> & _).
  change (S (ngroups randomize_pattern)) with 1 in Hm. cbn [repeat] in Hm.
  unfold randomize_pattern in Hm. cbn [seq] in Hm.
  apply matches_cat_inv in Hm as (c1 & H1 & Hm).
  apply matches_rep_inv in H1 as (ws1 & S1 & C1 & A1 & _).
  apply matches_cat_inv in Hm as (c2 & H2 & Hm).
  apply matches_lit_inv in H2 as [S2 C2].
  apply matches_cat_inv in Hm as (c3 & H3 & Hm).
  apply matches_rep_inv in H3 as (ws2 & S3 & C3 & A3 & _).
  apply matches_lit_inv in Hm as [S4 C4].
  pose proof (spans_trans _ _ _ _ _ S1 (spans_trans _ _ _ _ _ S2
               (spans_trans _ _ _ _ _ S3 S4))) as Sall.
  apply spans_take in Sall. cbn [pos rest] in Sall. rewrite Nat.sub_0_r in Sall.
  exists ws1, ws2. rewrite Sall, C4, C3, C2, C1. auto.
Qed.

Lemma export_match_inv (adv : bool) (prv : option ascii) (s : string)
    (n : nat) (g : groups) :
  match_at export_pattern adv prv s = Some (n, g) ->
  exists type ws1 ws2 name,
    take n s = declaration type ws1 ws2 name EmptyString /\
    g = [Some (take n s); Some type; Some name] /\
    all is_word type = true /\ all is_space ws1 = true /\
    all is_space ws2 = true /\ all is_word name = true.
Proof.
  intros H. apply match_at_sound in H as (cu' & Hm & -> & -> & _).
  change (S (ngroups export_pattern)) with 3 in Hm. cbn [repeat] in Hm.
  unfold export_pattern in Hm. cbn [seq] in Hm.
  apply matches_cat_inv in Hm as (c1 & H1 & Hm).
  apply matches_lit_inv in H1 as [S1 C1].
  apply matches_cat_inv in Hm as (c2 & H2 & Hm).
  apply matches_group_rep_inv in H2 as (type & S2 & C2 & A2 & _).
  apply matches_cat_inv in Hm as (c3 & H3 & Hm).
  apply matches_lit_inv in H3 as [S3 C3].
  apply matches_cat_inv in Hm as (c4 & H4 & Hm).
  apply matches_rep_inv in H4 as (ws1 & S4 & C4 & A4 & _).
  apply matches_cat_inv in Hm as (c5 & H5 & Hm).
  apply matches_lit_inv in H5 as [S5 C5].
  apply matches_cat_inv in Hm as (c6 & H6 & Hm).
  apply matches_rep_inv in H6 as (ws2 & S6 & C6 & A6 & _).
  apply matches_group_rep_inv in Hm as (name & S7 & C7 & A7 & _).
  pose proof (spans_trans _ _ _ _ _ S1 (spans_trans _ _ _ _ _ S2
               (spans_trans _ _ _ _ _ S3 (spans_trans _ _ _ _ _ S4
                 (spans_trans _ _ _ _ _ S5 (spans_trans _ _ _ _ _ S6 S7))))))
    as Sall.
  apply spans_take in Sall. cbn [pos rest] in Sall. rewrite Nat.sub_0_r in Sall.
  exists type, ws1, ws2, name.
  unfold declaration. rewrite app_nil_r.
  rewrite Sall, C7, C6, C5, C4, C3, C2, C1. auto 10.
Qed.

Lemma whole_word_match_inv (old : string) (adv : bool) (prv : option ascii)
    (s : string) (n : nat) (g : groups) :
  match_at (whole_word old) adv prv s = Some (n, g) ->
  take n s = old /\ g = [Some old].
Proof.
  intros H. apply match_at_sound in H as (cu' & Hm & -> & -> & _).
  change (S (ngroups (whole_word old))) with 1 in Hm. cbn [repeat] in Hm.
  unfold whole_word in Hm. cbn [seq] in Hm.
  apply matches_cat_inv in Hm as (c1 & H1 & Hm).
  apply matches_bound_inv in H1 as ->.
  apply matches_cat_inv in Hm as (c2 & H2 & Hm).
  apply matches_lit_inv in H2 as [S2 C2].
  apply matches_bound_inv in Hm as ->.
  pose proof S2 as Sall. rewrite <- (app_nil_r old) in Sall.
  apply spans_take in S2. cbn [pos rest] in S2. rewrite Nat.sub_0_r in S2.
  rewrite S2, C2. auto.
Qed.

End PatternFacts.

Module EditFacts.
Import Re ReFacts TextFacts Migrate MigrateFacts ScanFacts PatternFacts.

Section Balance.
Variable r : regex.
Variable repl : groups -> outcome string.
Variable x : ascii.
Variables a b : nat.

Hypothesis Hhit :
  forall adv prv s n g piece,
    match_at r adv prv s = Some (n, g) -> repl g = Returned piece ->
    count_char x piece + a = count_char x (take n s) + b.

Ltac split_hit H :=
  match type of H with
  | context [obind (repl ?g) _] =>
      let E := fresh "E" in
      destruct (repl g) as [?|?] eqn:E; cbn [obind] in H; [|discriminate]
  | context [obind (subn_go ?p ?q ?c ?d ?e) _] =>
      let E := fresh "E" in
      destruct (subn_go p q c d e) as [[? ?]|?] eqn:E; cbn [obind] in H;
      [|discriminate]
  end.

(** When every replacement has [b] more and [a] fewer [x] than the text
    it replaces, so has the new text, for each replacement. *)
Lemma subn_go_balance :
  forall s skip prv out cnt,
    subn_go r repl skip prv s = Returned (out, cnt) ->
    count_char x out + a * cnt = count_char x (drop skip s) + b * cnt.
Proof.
  induction s as [|c s IH]; intros skip prv out cnt H; cbn [subn_go] in H.
  - destruct skip as [|k]; [|inversion H; cbn; lia].
    destruct (match_at r false prv EmptyString) as [[[|n] g]|] eqn:E;
      [| |inversion H; cbn; lia].
    + split_hit H. pose proof (Hhit _ _ _ _ _ _ E E0) as H0.
      destruct (match_at r true prv EmptyString) as [[[|n'] g']|] eqn:E'.
      * inversion H; subst. rewrite count_char_app. simpl in *. lia.
      * split_hit H. pose proof (Hhit _ _ _ _ _ _ E' E1) as H1.
        inversion H; subst. rewrite !count_char_app. simpl in *. lia.
      * inversion H; subst. rewrite count_char_app. simpl in *. lia.
    + split_hit H. pose proof (Hhit _ _ _ _ _ _ E E0) as H0.
      inversion H; subst. rewrite count_char_app. simpl in *. lia.
  - destruct skip as [|k]; [|cbn [drop]; now apply IH in H].
    assert (Hs : forall n, count_char x (String c s)
                 = count_char x (take (S n) (String c s))
                   + count_char x (drop n s)).
    { intros n. rewrite <- (take_drop (S n) (String c s)) at 1.
      now rewrite count_char_app. }
    cbn [drop].
    destruct (match_at r false prv (String c s)) as [[[|n] g]|] eqn:E.
    + split_hit H. pose proof (Hhit _ _ _ _ _ _ E E0) as H0.
      cbn [take count_char] in H0.
      destruct (match_at r true prv (String c s)) as [[[|n'] g']|] eqn:E'.
      * repeat split_hit H. inversion H; subst.
        apply IH in E1. rewrite count_char_app. cbn [drop count_char] in *. lia.
      * split_hit H. pose proof (Hhit _ _ _ _ _ _ E' E1) as H1.
        repeat split_hit H. inversion H; subst.
        apply IH in E2. rewrite !count_char_app, (Hs n'). lia.
      * repeat split_hit H. inversion H; subst.
        apply IH in E1. rewrite count_char_app. cbn [drop count_char] in *. lia.
    + split_hit H. pose proof (Hhit _ _ _ _ _ _ E E0) as H0.
      repeat split_hit H. inversion H; subst.
      apply IH in E1. rewrite count_char_app, (Hs n). lia.
    + repeat split_hit H. inversion H; subst.
      apply IH in E0. cbn [drop count_char] in *. lia.
Qed.

End Balance.

(** A substitution that shifts the number of some character at every
    match changes every text in which [search] finds a match. *)
Lemma sub_changes (r : regex) (t : template) (x : ascii) (a b : nat) :
  template_ok r t = true -> a <> b ->
  (forall adv prv s n g,
      match_at r adv prv s = Some (n, g) ->
      count_char x (expand t g) + a = count_char x (take n s) + b) ->
  forall s, found (search r s) = true -> sub_value r t s <> s.
Proof.
  intros Ht Hab Hhit s Hs Heq.
  pose proof (subn_returns r t s Ht) as H. rewrite Heq in H.
  unfold subn, subn_with in H. rewrite Ht in H.
  apply (subn_go_balance r _ x a b) in H.
  2: { intros adv prv s' n g piece E P. inversion P; subst piece.
       now apply (Hhit adv prv s' n g). }
  cbn [drop] in H.
  assert (Hn : findall r s <> []).
  { unfold search in Hs. destruct (search_go r None s) as [g|] eqn:E;
      [|discriminate]. exact (search_some_findall r s None g E). }
  destruct (findall r s) as [|m ms]; [congruence|]. cbn [List.length] in H.
  nia.
Qed.

(** *** [str.replace] and the length of the text *)

Lemma prefix_split (old : string) :
  forall s, prefix old s = true -> s = old ++ drop (String.length old) s.
Proof.
  induction old as [|a old IH]; intros s H; cbn [String.length drop append].
  - now destruct s.
  - destruct s as [|c s]; [discriminate|]. cbn [prefix] in H.
    destruct (ascii_dec a c) as [->|_]; [|discriminate].
    cbn [drop]. f_equal. now apply IH.
Qed.

(** Each of the [k] occurrences replaced takes [old] out and puts [new]
    in. *)
Lemma replace_go_length (a : ascii) (old' new : string) (m : nat) :
  forall s,
    String.length s <= m ->
    exists k,
      String.length (replace_go (String a old') new 0 s)
      + k * String.length (String a old')
      = String.length s + k * String.length new /\
      (contains (String a old') s = true -> 1 <= k).
Proof.
  induction m as [|m IH]; intros s Hm.
  - destruct s; [|cbn in Hm; lia]. exists 0. split; [reflexivity|].
    cbn. discriminate.
  - destruct s as [|c s]; [exists 0; split; [reflexivity | cbn; discriminate]|].
    cbn [replace_go contains]. unfold startswith.
    destruct (prefix (String a old') (String c s)) eqn:E.
    + pose proof (prefix_split _ _ E) as Hs.
      cbn [String.length drop append] in Hs. injection Hs as -> Hs.
      remember (drop (String.length old') s) as d eqn:Hd. clear Hd. subst s.
      cbn [String.length pred] in Hm |- *. rewrite replace_go_skip.
      rewrite TextFacts.length_app in Hm.
      destruct (IH d) as (k & Hk & _); [lia|].
      exists (S k). split; [|lia].
      rewrite !TextFacts.length_app. cbn [String.length] in *. lia.
    + destruct (IH s) as (k & Hk & Hc); [cbn in Hm; lia|].
      exists k. cbn [String.length orb] in *. split; [lia | exact Hc].
Qed.

(** A literal rule whose two names differ in length changes every text
    that has the old name. *)
Lemma replace_changes (old new s : string) :
  old <> EmptyString ->
  String.length old <> String.length new ->
  contains old s = true -> replace old new s <> s.
Proof.
  intros Hold Hlen Hc Heq. destruct old as [|a old']; [congruence|].
  - cbn [replace] in Heq.
    destruct (replace_go_length a old' new _ s (le_n _)) as (k & Hk & Hk1).
    rewrite Heq in Hk. specialize (Hk1 Hc). nia.
Qed.

(** *** The steps of the catalog *)

Lemma form_records_edits (m : M unit) (fires : string -> bool)
    (rewrite msg : string -> string) :
  (forall st,
      m st = Returned (tt,
        if fires (l_content st)
        then Locals (rewrite (l_content st))
                    (l_changes st ++ [msg (l_content st)])%list
        else st)) ->
  (forall c, is_advisory (msg c) = false) ->
  (forall c, fires c = true -> rewrite c <> c) ->
  records_edits m.
Proof.
  intros Hm Hmsg Hch [c l] st' H. rewrite Hm in H. cbn [l_content l_changes] in *.
  destruct (fires c) eqn:F; inversion H; subst; cbn [l_content l_changes].
  - split; [eauto | intros _; now apply Hch].
  - split; [congruence|]. intros (msg' & Hl & _).
    apply (f_equal (@List.length string)) in Hl.
    rewrite List.length_app in Hl. cbn in Hl. lia.
Qed.

Lemma flag_records_edits (detect : string -> bool) (msg : string) :
  is_advisory msg = true -> records_edits (flag detect msg).
Proof.
  intros Hmsg [c l] st' H.
  unfold flag, bind, get_content, when, append_change, ret in H.
  cbn [l_content l_changes] in *.
  destruct (detect c); inversion H; subst; cbn [l_content l_changes];
    (split; [congruence|]); intros (msg' & Hl & Ha).
  - apply app_inj_tail in Hl as [_ ->]. congruence.
  - apply (f_equal (@List.length string)) in Hl.
    rewrite List.length_app in Hl. cbn in Hl. lia.
Qed.

Lemma rule_replace_records_edits (old new msg : string) :
  is_advisory msg = false ->
  old <> EmptyString ->
  String.length old <> String.length new ->
  records_edits (rule_replace old new msg).
Proof.
  intros Hmsg Hold Hlen.
  apply (form_records_edits _ (contains old) (replace old new) (fun _ => msg)).
  - intros [c l].
    unfold rule_replace, bind, get_content, when, set_content, append_change, ret.
    cbn [l_content l_changes]. now destruct (contains old c).
  - auto.
  - intros c. now apply replace_changes.
Qed.

Lemma sub_rule_form (p : regex) (t : template) (fires : string -> bool)
    (msg : string -> string) :
  template_ok p t = true ->
  forall st,
    (content <- get_content ;;
     when (fires content) (
       content' <- lift (sub p t content) ;;
       set_content content' ;;
       append_change (msg content)))%migrate st
    = Returned (tt,
        if fires (l_content st)
        then Locals (sub_value p t (l_content st))
                    (l_changes st ++ [msg (l_content st)])%list
        else st).
Proof.
  intros Ht [c l].
  unfold bind, get_content, when, set_content, append_change, ret.
  cbn [l_content l_changes].
  destruct (fires c); [|reflexivity].
  unfold lift. now rewrite (sub_returns p t c Ht).
Qed.

Lemma rule_instance_records_edits : records_edits rule_instance.
Proof.
  apply (form_records_edits _ (fun c => found (search instance_pattern c))
           (sub_value instance_pattern [TRef 1; TLit ".instantiate("])
           (fun _ => "instance() → instantiate()")).
  - exact (sub_rule_form instance_pattern [TRef 1; TLit ".instantiate("]
             (fun c => found (search instance_pattern c))
             (fun _ => "instance() → instantiate()") eq_refl).
  - reflexivity.
  - apply (sub_changes _ _ "i" 0 1); [reflexivity | discriminate|].
    intros adv prv s n g H.
    apply instance_match_inv in H as (name & -> & -> & _ & _).
    cbn [expand nth]. rewrite !count_char_app. cbn. lia.
Qed.

Lemma rule_randomize_records_edits : records_edits rule_randomize.
Proof.
  apply (form_records_edits _ (fun c => found (search randomize_pattern c))
           (sub_value randomize_pattern [])
           (fun _ => "Removed randomize() call (automatic in Godot 4)")).
  - exact (sub_rule_form randomize_pattern []
             (fun c => found (search randomize_pattern c))
             (fun _ => "Removed randomize() call (automatic in Godot 4)")
             eq_refl).
  - reflexivity.
  - apply (sub_changes _ _ "z" 1 0); [reflexivity | discriminate|].
    intros adv prv s n g H.
    apply randomize_match_inv in H as (ws1 & ws2 & -> & -> & A1 & A2).
    cbn [expand]. rewrite !count_char_app.
    rewrite (count_char_all is_space "z" ws1), (count_char_all is_space "z" ws2)
      by (assumption || reflexivity).
    cbn. lia.
Qed.

Lemma rule_export_records_edits : records_edits rule_export.
Proof.
  apply (form_records_edits _ (fun c => nonempty (findall export_pattern c))
           (sub_value export_pattern [TLit "@export var "; TRef 2])
           (fun c => export_message (List.length (findall export_pattern c)))).
  - exact (sub_rule_form export_pattern [TLit "@export var "; TRef 2]
             (fun c => nonempty (findall export_pattern c))
             (fun c => export_message (List.length (findall export_pattern c)))
             eq_refl).
  - intros c. apply export_message_automatic.
  - intros c Hc. apply (sub_changes _ _ "@" 0 1); [reflexivity | discriminate| |].
    + intros adv prv s n g H.
      apply export_match_inv in H
        as (type & ws1 & ws2 & name & -> & -> & At & A1 & A2 & An).
      cbn [expand nth]. unfold declaration. rewrite !count_char_app.
      rewrite (count_char_all is_word "@" type), (count_char_all is_word "@" name),
        (count_char_all is_space "@" ws1), (count_char_all is_space "@" ws2)
        by (assumption || reflexivity).
      cbn. lia.
    + unfold search, findall in *.
      destruct (search_go export_pattern None c) eqn:E; [reflexivity|].
      destruct (search_none_subn export_pattern (fun _ => Returned EmptyString)
                  c None E) as [_ F].
      rewrite F in Hc. discriminate.
Qed.

Lemma rename_node_records_edits (old new : string) (x : ascii) :
  is_advisory (old ++ " → " ++ new) = false ->
  count_char x new = count_char x old + 1 ->
  records_edits (rename_node old new).
Proof.
  intros Hmsg Hx.
  apply (form_records_edits _
           (fun c => contains old c && found (search (whole_word old) c))
           (sub_value (whole_word old) [TLit new])
           (fun _ => old ++ " → " ++ new)).
  - intros [c l].
    unfold rename_node, bind, get_content, when, set_content, append_change, ret.
    cbn [l_content l_changes].
    destruct (contains old c); [|reflexivity]. cbn [andb].
    destruct (found (search (whole_word old) c)); [|reflexivity].
    unfold lift. now rewrite (sub_returns (whole_word old) [TLit new] c eq_refl).
  - auto.
  - intros c Hc. apply andb_true_iff in Hc as [_ Hc].
    apply (sub_changes _ _ x 0 1); [reflexivity | discriminate | | assumption].
    intros adv prv s n g H.
    apply whole_word_match_inv in H as [-> ->].
    cbn [expand]. rewrite app_nil_r. lia.
Qed.

End EditFacts.


(** ** More on [fix_connect_calls] and its [main] *)

Module FixFacts.
Import Re ReFacts TextFacts FixConnect ConnectFacts ConnectCall ConnectContext
  ScanFacts.
Local Open Scope outcome_scope.

Lemma search_connect_literal :
  forall s prv g,
    search_go pattern prv s = Some g -> contains (".connect(" ++ q) s = true.
Proof.
  induction s as [|c s IH]; intros prv g H; cbn [search_go] in H;
    cbn [contains]; unfold startswith.
  - destruct (match_at pattern false prv EmptyString) as [[n g']|] eqn:E;
      [|discriminate].
    now rewrite (connect_match_prefix _ _ _ _ _ E).
  - destruct (match_at pattern false prv (String c s)) as [[n g']|] eqn:E.
    + now rewrite (connect_match_prefix _ _ _ _ _ E).
    + rewrite (IH _ _ H). apply orb_true_r.
Qed.

(** *** The loop of [main] *)

Lemma fix_visit_spec (t : fix_tally) (rel_path content : string) :
  exists t',
    fix_visit t (rel_path, content) = Returned t' /\
    total_fixed t' = total_fixed t + matches_in content /\
    files_modified t'
    = files_modified t + List.length (fixed_files [(rel_path, content)]) /\
    fix_writes t' = (fix_writes t ++ fixed_files [(rel_path, content)])%list.
Proof.
  destruct (fix_connect_spec content) as [H _].
  unfold fix_visit. rewrite H. cbn [obind fixed_files].
  destruct (0 <? matches_in content)%nat eqn:E.
  - eexists. split; [reflexivity|]. cbn [total_fixed files_modified].
    unfold fix_writes. cbn [fix_effects]. rewrite flat_map_app. cbn.
    repeat split.
  - apply Nat.ltb_ge in E. eexists. split; [reflexivity|].
    rewrite List.app_nil_r. cbn. repeat split; lia.
Qed.

Lemma fixed_files_cons (file : string * string) (files : list (string * string)) :
  fixed_files (file :: files) = (fixed_files [file] ++ fixed_files files)%list.
Proof.
  destruct file as [rel_path content]. cbn [fixed_files].
  now destruct (0 <? matches_in content)%nat.
Qed.

Lemma fix_visit_all_spec (files : list (string * string)) :
  forall t,
    exists t',
      fix_visit_all t files = Returned t' /\
      total_fixed t'
      = total_fixed t + list_sum (map (fun file => matches_in (snd file)) files) /\
      files_modified t' = files_modified t + List.length (fixed_files files) /\
      fix_writes t' = (fix_writes t ++ fixed_files files)%list.
Proof.
  induction files as [|[rel_path content] files IH]; intros t;
    cbn [fix_visit_all].
  - eexists. split; [reflexivity|]. cbn. rewrite List.app_nil_r.
    repeat split; lia.
  - destruct (fix_visit_spec t rel_path content) as (t1 & -> & T1 & F1 & W1).
    cbn [obind]. destruct (IH t1) as (t' & -> & T' & F' & W').
    eexists. split; [reflexivity|].
    rewrite (fixed_files_cons (rel_path, content) files), T', T1, F', F1, W', W1.
    rewrite List.length_app, <- List.app_assoc. cbn [map snd list_sum fold_right].
    unfold list_sum. repeat split; lia.
Qed.

(** A file that is written has a new text. *)
Lemma fixed_files_differ (files : list (string * string)) :
  forall rel_path new_text,
    In (rel_path, new_text) (fixed_files files) ->
    exists content,
      In (rel_path, content) files /\ new_text = fixed content /\
      1 <= matches_in content /\ new_text <> content.
Proof.
  induction files as [|[p c] files IH]; intros rel_path new_text H;
    cbn [fixed_files] in H; [destruct H|].
  destruct (0 <? matches_in c)%nat eqn:E.
  - destruct H as [H|H].
    + inversion H; subst. apply Nat.ltb_lt in E.
      exists c. split; [now left|]. split; [reflexivity|]. split; [lia|].
      intros Heq. apply (proj2 (fix_connect_spec c)) in Heq. lia.
    + destruct (IH _ _ H) as (content & Hin & Hrest).
      exists content. split; [now right | exact Hrest].
  - destruct (IH _ _ H) as (content & Hin & Hrest).
    exists content. split; [now right | exact Hrest].
Qed.

End FixFacts.

(** ** Texts on which no rule fires *)

Module QuietFacts.
Import Re ReFacts TextFacts Migrate MigrateFacts ScanFacts ExportFacts.

Lemma matches_demands (x : ascii) (r : regex) (cu cu' : cursor) :
  matches r cu cu' -> demands x r = true ->
  exists w, spans cu w cu' /\ 1 <= count_char x w.
Proof.
  induction 1 as [l cu p s n H|cls min cu w s Hs Hw Hmin|cu H|i r cu cu' H IH
                 |r cu cu' H IH|r cu|r1 r2 cu cu1 cu2 H1 IH1 H2 IH2];
    cbn [demands]; intros D; try discriminate.
  - apply read_lit_spec in H as (Hs & Hn & _). exists l.
    split; [now split|]. apply negb_true_iff, Nat.eqb_neq in D. lia.
  - destruct (IH D) as (w & [Hs Hn] & Hc). exists w. split; [now split | exact Hc].
  - apply orb_true_iff in D as [D|D].
    + destruct (IH1 D) as (w1 & S1 & Hc).
      destruct (matches_span _ _ _ H2) as (w2 & Hs2 & Hn2 & _).
      exists (w1 ++ w2). split; [apply (spans_trans _ cu1); [exact S1 | now split]|].
      rewrite count_char_app. lia.
    + destruct (IH2 D) as (w2 & S2 & Hc).
      destruct (matches_span _ _ _ H1) as (w1 & Hs1 & Hn1 & _).
      exists (w1 ++ w2). split; [apply (spans_trans _ cu1); [now split | exact S2]|].
      rewrite count_char_app. lia.
Qed.

Lemma match_at_demands (x : ascii) (r : regex) (adv : bool)
    (prv : option ascii) (s : string) (n : nat) (g : groups) :
  match_at r adv prv s = Some (n, g) -> demands x r = true ->
  1 <= count_char x s.
Proof.
  intros H D. apply match_at_sound in H as (cu' & Hm & _).
  destruct (matches_demands x _ _ _ Hm D) as (w & [Hs _] & Hc).
  cbn [rest] in Hs. rewrite Hs, count_char_app. lia.
Qed.

(** A text without a character the pattern demands has no match. *)
Lemma search_demands (x : ascii) (r : regex) :
  demands x r = true ->
  forall s prv, count_char x s = 0 -> search_go r prv s = None.
Proof.
  intros D. induction s as [|c s IH]; intros prv Hx; cbn [search_go].
  - destruct (match_at r false prv EmptyString) as [[n g]|] eqn:E;
      [|reflexivity].
    apply (match_at_demands x) in E; [lia | exact D].
  - destruct (match_at r false prv (String c s)) as [[n g]|] eqn:E.
    + apply (match_at_demands x) in E; [lia | exact D].
    + apply IH. cbn [count_char] in Hx. lia.
Qed.

Section Quiet.
Variable c : string.
Hypothesis Hq : quiet c = true.

Lemma quiet_count (x : ascii) : trigger x = true -> count_char x c = 0.
Proof.
  intros Hx. apply (count_char_all (fun a => negb (trigger a))); [|exact Hq].
  now rewrite Hx.
Qed.

Lemma quiet_contains (x : ascii) (old : string) :
  trigger x = true -> 1 <= count_char x old -> contains old c = false.
Proof.
  intros Hx Hold. apply (contains_absent x); [exact Hold | now apply quiet_count].
Qed.

Lemma quiet_search (x : ascii) (r : regex) :
  trigger x = true -> demands x r = true -> found (search r c) = false.
Proof.
  intros Hx D. unfold search.
  now rewrite (search_demands x r D c None (quiet_count x Hx)).
Qed.

Lemma quiet_findall (x : ascii) (r : regex) :
  trigger x = true -> demands x r = true -> findall r c = [].
Proof.
  intros Hx D. unfold findall.
  apply (search_none_subn r (fun _ => Returned EmptyString)).
  apply (search_demands x r D). now apply quiet_count.
Qed.

Ltac absent :=
  first [ rewrite (quiet_contains "(") by (reflexivity || (cbn; lia))
        | rewrite (quiet_contains ".") by (reflexivity || (cbn; lia))
        | rewrite (quiet_contains "B") by (reflexivity || (cbn; lia))
        | rewrite (quiet_contains "K") by (reflexivity || (cbn; lia))
        | rewrite (quiet_contains "S") by (reflexivity || (cbn; lia))
        | rewrite (quiet_contains "F") by (reflexivity || (cbn; lia))
        | rewrite (quiet_contains "T") by (reflexivity || (cbn; lia))
        | rewrite (quiet_search "(") by reflexivity
        | rewrite (quiet_findall "(") by reflexivity ].

(** On a quiet content every step of the catalog leaves the two
    variables as they are. *)
Lemma quiet_step (e : entry) (l : list string) :
  In e catalog -> step e (Locals c l) = Returned (tt, Locals c l).
Proof.
  unfold catalog. intros H.
  repeat (destruct H as [<-|H];
    [cbn [step];
     unfold flag, rule_instance, rule_rand_range, rule_randomize, rule_deg2rad,
       rule_rad2deg, rule_button_left, rule_button_right, rule_button_middle,
       rule_export, rule_export_nodepath, rule_export_packedscene, rename_node,
       rule_get_root, rule_screen_size, rule_var2str, rule_str2var,
       rule_replace, bind, get_content, when, ret;
     cbn [l_content l_changes]; repeat absent; reflexivity|]).
  destruct H.
Qed.

Lemma quiet_run (es : list entry) (l : list string) :
  (forall e, In e es -> In e catalog) ->
  run es (Locals c l) = Returned (tt, Locals c l).
Proof.
  induction es as [|e es IH]; intros Hin; [reflexivity|].
  rewrite run_cons, quiet_step by (apply Hin; now left).
  apply IH. intros e' He'. apply Hin. now right.
Qed.

End Quiet.

End QuietFacts.

(** ** A connect call with its list of parameters *)

Module ConnectParams.
Import Re ReFacts TextFacts FixConnect ConnectFacts ConnectCall.

Lemma exec_opt_take {R : Type} (r : regex) (cu : cursor)
    (k : cursor -> option R) (x : R) :
  exec r cu k = Some x -> exec (Opt r) cu k = Some x.
Proof. intros H. cbn [exec]. now rewrite H. Qed.

Lemma exec_group {R : Type} (i : nat) (r : regex) (cu : cursor)
    (k : cursor -> option R) :
  exec (Group i r) cu k
  = exec r cu (fun cu' =>
      k (Cursor (prev cu') (rest cu') (pos cu')
           (set_group i (take (pos cu' - pos cu) (rest cu)) (caps cu')))).
Proof. reflexivity. Qed.

Lemma call_with_params_app
    (sig ws1 obj ws2 meth ws3 ws4 inner post : string) :
  call_with_params sig ws1 obj ws2 meth ws3 ws4 inner EmptyString ++ post
  = call_with_params sig ws1 obj ws2 meth ws3 ws4 inner post.
Proof.
  unfold call_with_params, q, chr. cbn [append].
  repeat (rewrite app_assoc; cbn [append]). reflexivity.
Qed.

Lemma match_at_call_with_params (prv : option ascii)
    (sig ws1 obj ws2 meth ws3 ws4 inner post : string) :
  sig <> EmptyString -> all (is_not dquote) sig = true ->
  all is_space ws1 = true ->
  obj <> EmptyString -> all is_word obj = true ->
  all is_space ws2 = true ->
  meth <> EmptyString -> all (is_not dquote) meth = true ->
  all is_space ws3 = true -> all is_space ws4 = true ->
  all (is_not "]") inner = true ->
  match_at pattern false prv
    (call_with_params sig ws1 obj ws2 meth ws3 ws4 inner post)
  = Some (String.length
            (call_with_params sig ws1 obj ws2 meth ws3 ws4 inner EmptyString),
          [Some (call_with_params sig ws1 obj ws2 meth ws3 ws4 inner EmptyString);
           Some sig; Some obj; Some meth; Some (params_text ws3 ws4 inner)]).
Proof.
  intros Hsig Asig Aws1 Hobj Aobj Aws2 Hmeth Ameth Aws3 Aws4 Ainner.
  unfold match_at. change (S (ngroups pattern)) with 5. cbn [repeat].
  set (k0 := fun cu : cursor => _).
  unfold pattern. cbn [seq]. unfold call_with_params at 1, q, chr. cbn [append].
  rewrite exec_cat. erewrite exec_lit by reflexivity.
  rewrite exec_cat. apply exec_group_greedy;
    [reflexivity | assumption | now apply nonempty_length |].
  rewrite exec_cat. erewrite exec_lit by reflexivity.
  destruct obj as [|o obj']; [congruence|].
  cbn [all] in Aobj. apply andb_true_iff in Aobj as [Ao Aobj'].
  rewrite exec_cat. apply exec_rep_greedy;
    [apply stops_head; now apply word_not_space | assumption | lia |].
  rewrite exec_cat.
  apply (exec_group_greedy 2 is_word 1 _ (String o obj'));
    [reflexivity | cbn [all]; now rewrite Ao | cbn; lia |].
  rewrite exec_cat. erewrite exec_lit by reflexivity.
  rewrite exec_cat. apply exec_rep_greedy; [reflexivity | assumption | lia |].
  rewrite exec_cat. erewrite exec_lit by reflexivity.
  rewrite exec_cat. apply exec_group_greedy;
    [reflexivity | assumption | now apply nonempty_length |].
  rewrite exec_cat. erewrite exec_lit by reflexivity.
  rewrite exec_cat. apply exec_opt_take. rewrite exec_group.
  rewrite exec_cat. apply exec_rep_greedy; [reflexivity | assumption | lia |].
  rewrite exec_cat. erewrite exec_lit by reflexivity.
  rewrite exec_cat. apply exec_rep_greedy; [reflexivity | assumption | lia |].
  rewrite exec_cat. erewrite exec_lit by reflexivity.
  rewrite exec_cat. apply exec_rep_greedy; [reflexivity | assumption | lia |].
  erewrite exec_lit by reflexivity.
  cbn [prev rest pos caps].
  erewrite exec_lit by reflexivity.
  subst k0. cbv beta. cbn [andb pos caps].
  match goal with
  | |- context [set_group 4 (take ?n ?s)] =>
      replace (take n s) with (params_text ws3 ws4 inner)
  end.
  2: { symmetry.
       rewrite <- (take_app (params_text ws3 ws4 inner) (String ")" post)) at 1.
       f_equal.
       - unfold params_text. cbn [append String.length].
         repeat (rewrite length_app; cbn [String.length]). lia.
       - unfold params_text. cbn [append].
         repeat (rewrite app_assoc; cbn [append]). reflexivity. }
  match goal with
  | |- Some (?n, _) = _ =>
      replace n with
        (String.length
           (call_with_params sig ws1 (String o obj') ws2 meth ws3 ws4 inner
              EmptyString))
  end.
  - rewrite <- (call_with_params_app sig ws1 (String o obj') ws2 meth ws3 ws4
                  inner post), take_app. reflexivity.
  - unfold call_with_params, q, chr. cbn [append String.length].
    repeat (rewrite length_app; cbn [String.length]). lia.
Qed.

Lemma strip_params (ws3 ws4 inner : string) :
  all is_space ws3 = true ->
  drop 1 (strip (params_text ws3 ws4 inner)) = ws4 ++ "[" ++ inner ++ "]".
Proof.
  intros H. unfold strip, params_text. cbn [append].
  rewrite lstrip_spaces by (assumption || reflexivity).
  change (String "," (ws4 ++ String "[" (inner ++ "]")))
    with (String "," (ws4 ++ String "[" (inner ++ chr "]"))).
  replace (String "," (ws4 ++ String "[" (inner ++ chr "]")))
    with ((String "," (ws4 ++ String "[" inner)) ++ chr "]").
  - rewrite rstrip_nonempty by reflexivity. cbn [append drop].
    rewrite app_assoc. reflexivity.
  - cbn [append]. rewrite app_assoc. reflexivity.
Qed.

Lemma replacer_params (whole sig obj meth ws3 ws4 inner : string) :
  all is_space ws3 = true ->
  replacer [Some whole; Some sig; Some obj; Some meth;
            Some (params_text ws3 ws4 inner)]
  = Returned (bound_callable sig obj meth ws4 inner EmptyString).
Proof.
  intros H. unfold replacer, group. cbn [nth_error obind truthy fmt].
  assert (E : exists c t, params_text ws3 ws4 inner = String c t).
  { unfold params_text. destruct ws3; cbn [append]; eauto. }
  destruct E as (c & t & E). rewrite E. cbn [truthy obind fmt].
  rewrite <- E, strip_params by assumption.
  unfold bound_callable, q, chr. cbn [append].
  repeat (rewrite app_assoc; cbn [append]). reflexivity.
Qed.

Lemma bound_callable_app (sig obj meth ws4 inner post : string) :
  bound_callable sig obj meth ws4 inner EmptyString ++ post
  = bound_callable sig obj meth ws4 inner post.
Proof.
  unfold bound_callable, q, chr. cbn [append].
  repeat (rewrite app_assoc; cbn [append]). reflexivity.
Qed.

(** A connect call with a bracketed list of parameters, in a text with
    no other dot: the call becomes
    [.connect("sig", Callable(obj, "method").bind( [...]], the text of
    the list after its comma, and the two closing parentheses the call
    needs are not written; the count is 1. *)
Theorem connect_with_params
    (pre post sig ws1 obj ws2 meth ws3 ws4 inner : string) :
  all (is_not ".") pre = true -> all (is_not ".") post = true ->
  sig <> EmptyString -> all (is_not dquote) sig = true ->
  all is_space ws1 = true ->
  obj <> EmptyString -> all is_word obj = true ->
  all is_space ws2 = true ->
  meth <> EmptyString -> all (is_not dquote) meth = true ->
  all is_space ws3 = true -> all is_space ws4 = true ->
  all (is_not "]") inner = true ->
  fix_connect_calls
    (pre ++ call_with_params sig ws1 obj ws2 meth ws3 ws4 inner post)
  = Returned (pre ++ bound_callable sig obj meth ws4 inner post, 1).
Proof.
  intros Hpre Hpost Hsig Asig Aws1 Hobj Aobj Aws2 Hmeth Ameth Aws3 Aws4 Ainner.
  unfold fix_connect_calls, subn_with.
  rewrite subn_no_dot by assumption.
  pose proof (match_at_call_with_params (last_char pre None) sig ws1 obj ws2
                meth ws3 ws4 inner post
                Hsig Asig Aws1 Hobj Aobj Aws2 Hmeth Ameth Aws3 Aws4 Ainner) as M.
  rewrite <- (call_with_params_app sig ws1 obj ws2 meth ws3 ws4 inner post)
    in M |- *.
  rewrite (subn_go_hit pattern replacer _ _ _ _
             (bound_callable sig obj meth ws4 inner EmptyString) M).
  - rewrite subn_no_dot_end by assumption. cbn [obind fst snd].
    now rewrite bound_callable_app.
  - discriminate.
  - now apply replacer_params.
Qed.

(** The call [timer.connect("timeout", self, "_on_timeout", [1, 2])]. *)
Lemma connect_with_params_witness :
  all (is_not ".") "timer" = true /\ all (is_not ".") "; " = true /\
  "timeout" <> EmptyString /\ all (is_not dquote) "timeout" = true /\
  all is_space " " = true /\
  "self" <> EmptyString /\ all is_word "self" = true /\
  "_on_timeout" <> EmptyString /\ all (is_not dquote) "_on_timeout" = true /\
  all is_space EmptyString = true /\ all (is_not "]") "1, 2" = true /\
  fix_connect_calls
    ("timer" ++ call_with_params "timeout" " " "self" " " "_on_timeout"
                  EmptyString " " "1, 2" "; ")
  = Returned ("timer" ++ bound_callable "timeout" "self" "_on_timeout"
                           " " "1, 2" "; ", 1).
Proof.
  repeat (split; [solve [reflexivity | discriminate]|]).
  apply (connect_with_params "timer" "; " "timeout" " " "self" " "
           "_on_timeout" EmptyString " " "1, 2");
    solve [reflexivity | discriminate].
Defined.

End ConnectParams.

(** ** The renames of functions: [old(] to [new(] *)

Module RenameFacts.
Import Re ReFacts TextFacts Migrate MigrateFacts ExportFacts.

Lemma prefix_segment (x : ascii) :
  forall o v t,
    count_char x o = 0 -> count_char x v = 0 ->
    prefix (o ++ chr x) (v ++ String x t) = String.eqb o v.
Proof.
  induction o as [|a o IH]; intros [|c v] t Ho Hv;
    cbn [append chr prefix String.eqb count_char] in *.
  - destruct (ascii_dec x x) as [_|N]; [now destruct t | now destruct N].
  - destruct (Ascii.eqb_spec c x) as [->|N]; [discriminate|].
    destruct (ascii_dec x c) as [->|_]; [now destruct N | reflexivity].
  - destruct (Ascii.eqb_spec a x) as [->|N]; [discriminate|].
    destruct (ascii_dec a x) as [->|_]; [now destruct N | reflexivity].
  - destruct (Ascii.eqb_spec a x) as [->|Na]; [discriminate|].
    destruct (Ascii.eqb_spec c x) as [->|Nc]; [discriminate|].
    destruct (ascii_dec a c) as [->|N].
    + rewrite Ascii.eqb_refl. now apply IH.
    + destruct (Ascii.eqb_spec a c) as [->|_]; [now destruct N | reflexivity].
Qed.

Lemma split_first (x : ascii) (s : string) :
  count_char x s = 0 \/
  exists v t, s = v ++ String x t /\ count_char x v = 0.
Proof.
  induction s as [|c s IH]; [now left|]. cbn [count_char].
  destruct (Ascii.eqb_spec c x) as [->|N].
  - right. exists EmptyString, s. split; reflexivity.
  - destruct IH as [IH|(v & t & -> & Hv)]; [now left|].
    right. exists (String c v), t. split; [reflexivity|].
    cbn [count_char]. now destruct (Ascii.eqb_spec c x).
Qed.

Lemma old_cons (x : ascii) (o : string) :
  exists a old', o ++ chr x = String a old'.
Proof. destruct o; cbn [append chr]; eexists _, _; reflexivity. Qed.

Lemma eqb_length (a b : string) :
  String.length a <> String.length b -> String.eqb a b = false.
Proof.
  intros H. destruct (String.eqb_spec a b) as [->|_]; [now destruct H | reflexivity].
Qed.

Section Rename.
Variable x : ascii.
Variables o n : string.
Hypothesis Ho : count_char x o = 0.
Hypothesis Hn : count_char x n = 0.
Hypothesis Hlen : String.length o <= String.length n.
Hypothesis Hsuf : ends_with o n = false.

(** Up to the first [x] of the text there is an occurrence of [o ++ x]
    exactly when [o] ends the part before that [x]. *)
Lemma contains_segment :
  forall v t,
    count_char x v = 0 ->
    contains (o ++ chr x) (v ++ String x t)
    = ends_with o v || contains (o ++ chr x) t.
Proof.
  induction v as [|c v IH]; intros t Hv.
  - pose proof (prefix_segment x o EmptyString t Ho eq_refl) as P.
    cbn [append contains ends_with] in P |- *. unfold startswith.
    rewrite P. now rewrite orb_false_r.
  - change (String c v ++ String x t) with (String c (v ++ String x t)).
    cbn [contains ends_with]. unfold startswith.
    change (String c (v ++ String x t)) with (String c v ++ String x t).
    rewrite (prefix_segment x o (String c v) t Ho Hv).
    cbn [count_char] in Hv.
    destruct (Ascii.eqb_spec c x) as [->|N]; [discriminate|].
    rewrite (IH t Hv). now rewrite orb_assoc.
Qed.

(** What [replace] makes of the text up to its first [x]. *)
Lemma replace_segment :
  forall v t,
    count_char x v = 0 ->
    exists v',
      replace_go (o ++ chr x) (n ++ chr x) 0 (v ++ String x t)
      = v' ++ String x (replace_go (o ++ chr x) (n ++ chr x) 0 t) /\
      count_char x v' = 0 /\ ends_with o v' = false /\
      (String.eqb o v' = false) /\
      (v' = v \/ String.length n <= String.length v').
Proof.
  destruct (old_cons x o) as (a & old' & E).
  assert (Hn' : String.eqb o n = false).
  { cbn [ends_with] in Hsuf. destruct n; apply orb_false_iff in Hsuf as [H _];
      exact H. }
  assert (Hit : forall v t,
             o = v ->
             replace_go (o ++ chr x) (n ++ chr x) 0 (v ++ String x t)
             = n ++ String x (replace_go (o ++ chr x) (n ++ chr x) 0 t)).
  { intros v t <-. change (String x t) with (chr x ++ t).
    rewrite <- app_assoc, E, replace_go_hit, app_assoc. reflexivity. }
  induction v as [|c v IH]; intros t Hv.
  - destruct (String.eqb_spec o EmptyString) as [Eo|No].
    + exists n. rewrite (Hit _ t Eo).
      repeat split; try assumption. right. lia.
    + apply String.eqb_neq in No. exists EmptyString.
      pose proof (prefix_segment x o EmptyString t Ho eq_refl) as P.
      cbn [append replace_go] in P |- *. unfold startswith. rewrite P, No.
      repeat split; try reflexivity; try assumption.
      * cbn [ends_with]. now rewrite No.
      * now left.
  - destruct (String.eqb_spec o (String c v)) as [Eo|No].
    + exists n. rewrite (Hit _ t Eo).
      repeat split; try assumption. right. lia.
    + apply String.eqb_neq in No.
      pose proof Hv as Hv0. cbn [count_char] in Hv.
      destruct (Ascii.eqb_spec c x) as [->|N]; [discriminate|].
      destruct (IH t Hv) as (v' & R & C & S & Q & L).
      exists (String c v').
      change (String c v ++ String x t) with (String c (v ++ String x t)).
      cbn [replace_go]. unfold startswith.
      change (String c (v ++ String x t)) with (String c v ++ String x t).
      rewrite (prefix_segment x o (String c v) t Ho Hv0), No.
      rewrite R. cbn [append].
      assert (Q' : String.eqb o (String c v') = false).
      { destruct L as [->|L]; [exact No|].
        apply eqb_length. cbn [String.length]. lia. }
      repeat split.
      * cbn [count_char]. now destruct (Ascii.eqb_spec c x).
      * cbn [ends_with]. now rewrite Q', S.
      * exact Q'.
      * destruct L as [->|L]; [now left | right; cbn [String.length]; lia].
Qed.

(** After the replacement no occurrence of [o ++ x] is left. *)
Lemma replace_go_complete :
  forall k s,
    String.length s <= k ->
    contains (o ++ chr x) (replace_go (o ++ chr x) (n ++ chr x) 0 s) = false.
Proof.
  assert (Hold : 1 <= count_char x (o ++ chr x)).
  { rewrite count_char_app. cbn [chr count_char]. rewrite Ascii.eqb_refl. lia. }
  induction k as [|k IH]; intros s Hk.
  - destruct s; [|cbn in Hk; lia].
    cbn [replace_go]. now apply (contains_absent x).
  - destruct (split_first x s) as [Hs|(v & t & -> & Hv)].
    + pose proof (contains_absent x _ _ Hold Hs) as Hc.
      now rewrite replace_go_absent.
    + destruct (replace_segment v t Hv) as (v' & -> & C & S & _ & _).
      rewrite (contains_segment v' _ C), S. cbn [orb]. apply IH.
      rewrite length_app in Hk. cbn [String.length] in Hk. lia.
Qed.

Lemma replace_complete (s : string) :
  contains (o ++ chr x) (replace (o ++ chr x) (n ++ chr x) s) = false.
Proof.
  destruct (old_cons x o) as (a & old' & E). unfold replace. rewrite E at 2.
  apply (replace_go_complete (String.length s)). lia.
Qed.

(** The rule leaves no occurrence of [o ++ x], and on what it leaves it
    does nothing. *)
Lemma rename_rule_complete (msg : string) (st : locals) :
  exists st',
    rule_replace (o ++ chr x) (n ++ chr x) msg st = Returned (tt, st') /\
    contains (o ++ chr x) (l_content st') = false /\
    rule_replace (o ++ chr x) (n ++ chr x) msg st' = Returned (tt, st').
Proof.
  destruct st as [c l].
  unfold rule_replace, bind, get_content, when, set_content, append_change, ret.
  cbn [l_content l_changes].
  destruct (contains (o ++ chr x) c) eqn:E.
  - eexists. split; [reflexivity|]. cbn [l_content l_changes].
    rewrite replace_complete. split; reflexivity.
  - eexists. split; [reflexivity|]. cbn [l_content l_changes].
    rewrite E. split; reflexivity.
Qed.

End Rename.

End RenameFacts.

(** ** The renames of node types: whole words only *)

Module WholeWordFacts.
Import Re ReFacts TextFacts Migrate MigrateFacts ScanFacts.

Section Search.
Variable r : regex.

(** [search] finds a match where there is one, and only there. *)
Lemma search_go_inv :
  forall s prv g,
    search_go r prv s = Some g ->
    exists pre post n,
      s = pre ++ post /\
      match_at r false (last_char pre prv) post = Some (n, g).
Proof.
  induction s as [|c s IH]; intros prv g H; cbn [search_go] in H.
  - destruct (match_at r false prv EmptyString) as [[n g']|] eqn:E;
      [|discriminate].
    inversion H; subst g'. now exists EmptyString, EmptyString, n.
  - destruct (match_at r false prv (String c s)) as [[n g']|] eqn:E.
    + inversion H; subst g'. now exists EmptyString, (String c s), n.
    + apply IH in H as (pre & post & n & -> & H).
      now exists (String c pre), post, n.
Qed.

Lemma search_go_complete :
  forall pre post prv n g,
    match_at r false (last_char pre prv) post = Some (n, g) ->
    exists g', search_go r prv (pre ++ post) = Some g'.
Proof.
  induction pre as [|c pre IH]; intros post prv n g H;
    cbn [append last_char] in *.
  - exists g. destruct post; cbn [search_go]; now rewrite H.
  - cbn [search_go].
    destruct (match_at r false prv (String c (pre ++ post))) as [[n' g']|];
      [now exists g'|].
    now apply (IH post (Some c) n g).
Qed.

End Search.

Lemma contains_app (old : string) :
  forall pre post, contains old (pre ++ old ++ post) = true.
Proof.
  induction pre as [|c pre IH]; intros post; cbn [append].
  - apply contains_prefix.
  - cbn [contains]. rewrite IH. apply orb_true_r.
Qed.

Lemma all_word_last (w : string) :
  forall c prv, all is_word (String c w) = true ->
    word_at (last_char (String c w) prv) = true.
Proof.
  induction w as [|d w IH]; intros c prv H; cbn [all last_char] in *.
  - now apply andb_true_iff in H as [H _].
  - apply andb_true_iff in H as [_ H]. now apply (IH d (Some c)).
Qed.

Section Word.
Variable old : string.
Hypothesis Hne : old <> EmptyString.
Hypothesis Hword : all is_word old = true.

Lemma word_first (post : string) : word_at (first_char (old ++ post)) = true.
Proof.
  destruct old as [|c w]; [congruence|]. cbn [all] in Hword.
  apply andb_true_iff in Hword as [Hc _]. exact Hc.
Qed.

Lemma word_last (prv : option ascii) : word_at (last_char old prv) = true.
Proof.
  destruct old as [|c w]; [congruence|]. now apply all_word_last.
Qed.

(** The pattern matches at an occurrence with no letter, digit or
    underscore on either side. *)
Lemma match_at_whole_word (prv : option ascii) (post : string) :
  word_at prv = false -> word_at (first_char post) = false ->
  match_at (whole_word old) false prv (old ++ post)
  = Some (String.length old, [Some old]).
Proof.
  intros Hp Hq. unfold match_at, whole_word. cbn [seq].
  change (S (ngroups _)) with 1. cbn [repeat].
  rewrite exec_cat. cbn [exec prev rest pos caps].
  rewrite Hp, word_first. cbn [xorb].
  rewrite read_lit_app. cbn [prev rest pos caps].
  rewrite word_last, Hq. cbn [xorb andb Nat.add set_group].
  now rewrite take_app.
Qed.

(** And it matches nowhere else. *)
Lemma whole_word_inv (adv : bool) (prv : option ascii) (s : string)
    (n : nat) (g : groups) :
  match_at (whole_word old) adv prv s = Some (n, g) ->
  exists post,
    s = old ++ post /\ word_at prv = false /\ word_at (first_char post) = false.
Proof.
  intros H. apply match_at_sound in H as (cu' & Hm & _).
  unfold whole_word in Hm. cbn [seq] in Hm.
  apply matches_cat_inv in Hm as (c1 & H1 & Hm).
  inversion H1 as [| |? B1| | | |]; subst. clear H1.
  apply matches_cat_inv in Hm as (c2 & H2 & Hm).
  inversion H2 as [? ? p s' n' L| | | | | |]; subst. clear H2.
  inversion Hm as [| |? B2| | | |]; subst. clear Hm.
  cbn [prev rest pos caps] in *.
  apply read_lit_spec in L as (-> & _ & ->).
  rewrite word_first in B1. rewrite word_last in B2.
  exists s'. split; [reflexivity|]. split.
  - now destruct (word_at prv).
  - now destruct (word_at (first_char s')).
Qed.

Lemma search_whole_word (c : string) :
  found (search (whole_word old) c) = true <-> standalone old c.
Proof.
  unfold search, standalone. split.
  - destruct (search_go (whole_word old) None c) as [g|] eqn:E;
      [intros _ | discriminate].
    apply search_go_inv in E as (pre & s & n & -> & E).
    apply whole_word_inv in E as (post & -> & Hp & Hq).
    now exists pre, post.
  - intros (pre & post & -> & Hp & Hq).
    destruct (search_go_complete (whole_word old) pre (old ++ post) None _ _
                (match_at_whole_word _ post Hp Hq)) as [g ->].
    reflexivity.
Qed.

End Word.

End WholeWordFacts.

(** ** A call that has been fixed is left alone *)

Module ConnectFixed.
Import Re ReFacts TextFacts FixConnect ConnectFacts ConnectCall ConnectContext.

Lemma split_unique (cls : ascii -> bool) :
  forall a1 a2 c1 c2 r1 r2,
    all cls a1 = true -> all cls a2 = true ->
    cls c1 = false -> cls c2 = false ->
    a1 ++ String c1 r1 = a2 ++ String c2 r2 ->
    a1 = a2 /\ c1 = c2 /\ r1 = r2.
Proof.
  induction a1 as [|x a1 IH]; intros [|y a2] c1 c2 r1 r2 H1 H2 N1 N2 E;
    cbn [append all] in *.
  - now inversion E.
  - inversion E; subst. apply andb_true_iff in H2 as [H2 _]. congruence.
  - inversion E; subst. apply andb_true_iff in H1 as [H1 _]. congruence.
  - inversion E; subst.
    apply andb_true_iff in H1 as [_ H1]. apply andb_true_iff in H2 as [_ H2].
    destruct (IH _ _ _ _ _ H1 H2 N1 N2 H3) as (-> & -> & ->). auto.
Qed.

Lemma app_inv_head (l a b : string) : l ++ a = l ++ b -> a = b.
Proof. induction l as [|c l IH]; cbn [append]; intros H; [exact H|]. inversion H; auto. Qed.

(** How a text goes on where the pattern matches. *)
Lemma connect_head_inv (adv : bool) (prv : option ascii) (s : string)
    (n : nat) (g : groups) :
  match_at pattern adv prv s = Some (n, g) ->
  exists sig ws1 obj tail,
    s = (".connect(" ++ q) ++ sig ++ (q ++ ",") ++ ws1 ++ obj ++ "," ++ tail /\
    all (is_not dquote) sig = true /\
    all is_space ws1 = true /\ all is_word obj = true.
Proof.
  intros H. apply match_at_sound in H as (cu' & Hm & _).
  unfold pattern in Hm. cbn [seq] in Hm.
  apply matches_cat_inv in Hm as (c1 & H1 & Hm).
  apply matches_lit_inv in H1 as [S1 _].
  apply matches_cat_inv in Hm as (c2 & H2 & Hm).
  apply matches_group_rep_inv in H2 as (sig & S2 & _ & A2 & _).
  apply matches_cat_inv in Hm as (c3 & H3 & Hm).
  apply matches_lit_inv in H3 as [S3 _].
  apply matches_cat_inv in Hm as (c4 & H4 & Hm).
  apply matches_rep_inv in H4 as (ws1 & S4 & _ & A4 & _).
  apply matches_cat_inv in Hm as (c5 & H5 & Hm).
  apply matches_group_rep_inv in H5 as (obj & S5 & _ & A5 & _).
  apply matches_cat_inv in Hm as (c6 & H6 & Hm).
  apply matches_lit_inv in H6 as [S6 _].
  pose proof (spans_trans _ _ _ _ _ S1 (spans_trans _ _ _ _ _ S2
               (spans_trans _ _ _ _ _ S3 (spans_trans _ _ _ _ _ S4
                 (spans_trans _ _ _ _ _ S5 S6))))) as [Sall _].
  cbn [rest] in Sall.
  exists sig, ws1, obj, (rest c6). split; [|auto].
  rewrite Sall. repeat (rewrite app_assoc; cbn [append]). reflexivity.
Qed.

(** The pattern does not match at a call that has been fixed: after the
    signal comes [Callable(], and no comma follows that word. *)
Lemma match_at_callable (adv : bool) (prv : option ascii)
    (sig obj meth post : string) :
  all (is_not dquote) sig = true ->
  match_at pattern adv prv (callable sig obj meth post) = None.
Proof.
  intros Asig.
  destruct (match_at pattern adv prv (callable sig obj meth post))
    as [[n g]|] eqn:E; [exfalso | reflexivity].
  apply connect_head_inv in E as (sig' & ws1 & obj' & tail & E & A1 & A2 & A3).
  unfold callable in E. rewrite <- (app_assoc ".connect(" q) in E.
  apply app_inv_head in E. unfold q, chr in E. cbn [append] in E.
  apply (split_unique (is_not dquote)) in E as (_ & _ & E);
    try assumption; try reflexivity.
  injection E as E. rewrite <- (app_assoc ws1 obj') in E.
  apply (split_unique (fun c => is_space c || is_word c)
           " Callable" (ws1 ++ obj') "(" "," _ tail) in E as (_ & E & _);
    try reflexivity.
  - discriminate.
  - rewrite all_app. apply andb_true_iff. split.
    + clear - A2. induction ws1 as [|c w IH]; [reflexivity|].
      cbn [all] in *. apply andb_true_iff in A2 as [-> A2]. now rewrite IH.
    + clear - A3. induction obj' as [|c w IH]; [reflexivity|].
      cbn [all] in *. apply andb_true_iff in A3 as [-> A3].
      rewrite orb_true_r. now rewrite IH.
Qed.

Lemma fixed_call_stays (pre post sig obj meth : string) :
  all (is_not ".") pre = true -> all (is_not ".") post = true ->
  all (is_not dquote) sig = true -> all (is_not ".") sig = true ->
  all (is_not ".") obj = true -> all (is_not ".") meth = true ->
  subn_go pattern replacer 0 None (pre ++ callable sig obj meth post)
  = Returned (pre ++ callable sig obj meth post, 0).
Proof.
  intros Hpre Hpost Asig Dsig Dobj Dmeth.
  rewrite subn_no_dot by assumption.
  pose proof (match_at_callable false (last_char pre None) sig obj meth post
                Asig) as M.
  pose (t := "connect(" ++ q ++ sig ++ q ++ ", Callable(" ++ obj ++ ", "
             ++ q ++ meth ++ q ++ "))" ++ post).
  assert (Ht : all (is_not ".") t = true).
  { subst t. rewrite !all_app, Dsig, Dobj, Dmeth, Hpost. reflexivity. }
  change (callable sig obj meth post) with (String "." t) in *.
  clearbody t. rewrite (subn_go_miss _ _ _ M).
  rewrite subn_no_dot_end by exact Ht. reflexivity.
Qed.

End ConnectFixed.

(** ** What is left of the old calls at the end of [migrate_file] *)

Module PipelineFacts.
Import Re ReFacts TextFacts Migrate MigrateFacts ExportFacts RenameFacts.

Lemma ends_with_refl (n : string) : ends_with n n = true.
Proof. destruct n; cbn [ends_with]; now rewrite String.eqb_refl. Qed.

Lemma ends_with_app_self (n : string) :
  forall w, ends_with n (w ++ n) = true.
Proof.
  induction w as [|c w IH]; cbn [append]; [apply ends_with_refl|].
  cbn [ends_with]. rewrite IH. apply orb_true_r.
Qed.

Lemma ends_with_app (a n : string) :
  ends_with a n = false -> ends_with n a = false ->
  forall u, ends_with a (u ++ n) = false.
Proof.
  intros Han Hna. induction u as [|c u IH]; cbn [append]; [exact Han|].
  cbn [ends_with]. rewrite IH, orb_false_r.
  destruct (String.eqb_spec a (String c (u ++ n))) as [E|_]; [|reflexivity].
  change (String c (u ++ n)) with (String c u ++ n) in E.
  rewrite E, ends_with_app_self in Hna. discriminate.
Qed.

Section Preserve.
Variable x : ascii.
Variables a o n : string.
Hypothesis Ha : count_char x a = 0.
Hypothesis Ho : count_char x o = 0.
Hypothesis Hn : count_char x n = 0.
Hypothesis Han : ends_with a n = false.
Hypothesis Hna : ends_with n a = false.

(** The part of the text before its first [x], after the replacement:
    as it was, or with [n] at its end. *)
Lemma replace_segment_shape :
  forall v t,
    count_char x v = 0 ->
    exists v',
      replace_go (o ++ chr x) (n ++ chr x) 0 (v ++ String x t)
      = v' ++ String x (replace_go (o ++ chr x) (n ++ chr x) 0 t) /\
      count_char x v' = 0 /\
      (v' = v \/ exists u, v' = u ++ n).
Proof.
  destruct (old_cons x o) as (b & old' & E).
  assert (Hit : forall v t,
             o = v ->
             replace_go (o ++ chr x) (n ++ chr x) 0 (v ++ String x t)
             = n ++ String x (replace_go (o ++ chr x) (n ++ chr x) 0 t)).
  { intros v t <-. change (String x t) with (chr x ++ t).
    rewrite <- app_assoc, E, replace_go_hit, app_assoc. reflexivity. }
  induction v as [|c v IH]; intros t Hv.
  - destruct (String.eqb_spec o EmptyString) as [Eo|No].
    + exists n. rewrite (Hit _ t Eo). repeat split; [assumption|].
      right. now exists EmptyString.
    + apply String.eqb_neq in No. exists EmptyString.
      pose proof (prefix_segment x o EmptyString t Ho eq_refl) as P.
      cbn [append replace_go] in P |- *. unfold startswith. rewrite P, No.
      repeat split. now left.
  - destruct (String.eqb_spec o (String c v)) as [Eo|No].
    + exists n. rewrite (Hit _ t Eo). repeat split; [assumption|].
      right. now exists EmptyString.
    + apply String.eqb_neq in No.
      pose proof Hv as Hv0. cbn [count_char] in Hv.
      destruct (Ascii.eqb_spec c x) as [->|N]; [discriminate|].
      destruct (IH t Hv) as (v' & R & C & L).
      exists (String c v').
      change (String c v ++ String x t) with (String c (v ++ String x t)).
      cbn [replace_go]. unfold startswith.
      change (String c (v ++ String x t)) with (String c v ++ String x t).
      rewrite (prefix_segment x o (String c v) t Ho Hv0), No.
      rewrite R. cbn [append]. repeat split.
      * cbn [count_char]. now destruct (Ascii.eqb_spec c x).
      * destruct L as [->|[u ->]]; [now left | right].
        now exists (String c u).
Qed.

(** A replacement of [o ++ x] by [n ++ x] brings no occurrence of
    [a ++ x] into a text that has none. *)
Lemma replace_go_preserves :
  forall k s,
    String.length s <= k ->
    contains (a ++ chr x) s = false ->
    contains (a ++ chr x) (replace_go (o ++ chr x) (n ++ chr x) 0 s) = false.
Proof.
  assert (Hold : 1 <= count_char x (o ++ chr x)).
  { rewrite count_char_app. cbn [chr count_char]. rewrite Ascii.eqb_refl. lia. }
  induction k as [|k IH]; intros s Hk Hs.
  - destruct s; [|cbn in Hk; lia]. exact Hs.
  - destruct (split_first x s) as [Hx|(v & t & -> & Hv)].
    + pose proof (contains_absent x _ _ Hold Hx) as Hc.
      now rewrite replace_go_absent.
    + rewrite (contains_segment x a Ha v t Hv) in Hs.
      apply orb_false_iff in Hs as [Hv' Ht].
      destruct (replace_segment_shape v t Hv) as (v' & -> & C & L).
      rewrite (contains_segment x a Ha v' _ C).
      apply orb_false_iff. split.
      * destruct L as [->|[u ->]]; [exact Hv' | now apply ends_with_app].
      * apply IH; [|exact Ht].
        rewrite length_app in Hk. cbn [String.length] in Hk. lia.
Qed.

Lemma replace_preserves (s : string) :
  contains (a ++ chr x) s = false ->
  contains (a ++ chr x) (replace (o ++ chr x) (n ++ chr x) s) = false.
Proof.
  destruct (old_cons x o) as (b & old' & E). unfold replace. rewrite E at 1.
  apply (replace_go_preserves (String.length s)). lia.
Qed.

End Preserve.

Lemma rule_replace_replaced (old new msg c : string) (l : list string) :
  exists l',
    rule_replace old new msg (Locals c l) = Returned (tt, Locals (replaced old new c) l').
Proof.
  unfold rule_replace, bind, get_content, when, set_content, append_change,
    ret, replaced. cbn [l_content l_changes].
  destruct (contains old c); eexists; reflexivity.
Qed.

Lemma flag_pass (detect : string -> bool) (msg c : string) (l : list string) :
  exists l', flag detect msg (Locals c l) = Returned (tt, Locals c l').
Proof.
  unfold flag, bind, get_content, when, append_change, ret.
  cbn [l_content l_changes]. destruct (detect c); eexists; reflexivity.
Qed.

Section Replaced.
Variable x : ascii.
Variables a o n : string.
Hypothesis Ha : count_char x a = 0.
Hypothesis Ho : count_char x o = 0.
Hypothesis Hn : count_char x n = 0.

Lemma replaced_preserves (c : string) :
  ends_with a n = false -> ends_with n a = false ->
  contains (a ++ chr x) c = false ->
  contains (a ++ chr x) (replaced (o ++ chr x) (n ++ chr x) c) = false.
Proof.
  intros Han Hna Hc. unfold replaced.
  destruct (contains (o ++ chr x) c); [|exact Hc].
  now apply replace_preserves.
Qed.

Lemma replaced_complete (c : string) :
  String.length o <= String.length n -> ends_with o n = false ->
  contains (o ++ chr x) (replaced (o ++ chr x) (n ++ chr x) c) = false.
Proof.
  intros Hlen Hsuf. unfold replaced.
  destruct (contains (o ++ chr x) c) eqn:E; [|exact E].
  now apply replace_complete.
Qed.

End Replaced.

Lemma run_app (es1 es2 : list entry) :
  forall st,
    run (es1 ++ es2) st
    = match run es1 st with
      | Returned (_, st1) => run es2 st1
      | Raised e => Raised e
      end.
Proof.
  induction es1 as [|e es1 IH]; intros st; [reflexivity|].
  cbn [List.app]. rewrite !run_cons.
  destruct (step e st) as [[[] st1]|x]; [apply IH | reflexivity].
Qed.

End PipelineFacts.

(** ** Calls of [instance] and of [move_and_slide] *)

Module CallFacts.
Import Re ReFacts TextFacts Migrate MigrateFacts ScanFacts PatternFacts QuietFacts
  WholeWordFacts.

Lemma exec_bound {R : Type} (cu : cursor) (k : cursor -> option R) :
  xorb (word_at (prev cu)) (word_at (first_char (rest cu))) = true ->
  exec Bound cu k = k cu.
Proof. intros H. cbn [exec]. now rewrite H. Qed.

Lemma first_dot (a1 a2 r1 r2 : string) :
  all (is_not ".") a1 = true -> all (is_not ".") a2 = true ->
  a1 ++ String "." r1 = a2 ++ String "." r2 -> a1 = a2.
Proof.
  revert a2. induction a1 as [|x a1 IH]; intros [|y a2] H1 H2 E;
    cbn [append all] in *.
  - reflexivity.
  - inversion E; subst. apply andb_true_iff in H2 as [H2 _]. discriminate.
  - inversion E; subst. apply andb_true_iff in H1 as [H1 _]. discriminate.
  - inversion E; subst.
    apply andb_true_iff in H1 as [_ H1]. apply andb_true_iff in H2 as [_ H2].
    now rewrite (IH a2 H1 H2).
Qed.

Lemma word_no_dot (w : string) :
  all is_word w = true -> all (is_not ".") w = true.
Proof.
  induction w as [|c w IH]; [reflexivity|]. cbn [all]. intros H.
  apply andb_true_iff in H as [Hc H]. rewrite (IH H), andb_true_r.
  destruct c as [[] [] [] [] [] [] [] []]; vm_compute in Hc |- *; congruence.
Qed.

Section Copy.
Variable r : regex.
Variable repl : groups -> outcome string.

(** No match at the position: the character is copied. *)
Lemma subn_go_copy (c : ascii) (s : string) (prv : option ascii) :
  match_at r false prv (String c s) = None ->
  subn_go r repl 0 prv (String c s)
  = obind (subn_go r repl 0 (Some c) s)
      (fun res => Returned (String c (fst res), snd res)).
Proof.
  intros H. cbn [subn_go]. rewrite H.
  now destruct (subn_go r repl 0 (Some c) s) as [[out n]|e].
Qed.

End Copy.

(** *** [\b(\w+)\.instance\(] *)

Section Instance.
Variables name post : string.
Hypothesis Hne : name <> EmptyString.
Hypothesis Hword : all is_word name = true.

(** Before the receiver of the call the pattern does not match: the
    word it would take ends where the receiver ends, and begins where
    the receiver begins. *)
Lemma instance_miss (c : ascii) (w : string) (adv : bool) (prv : option ascii) :
  all (is_not ".") (String c w) = true ->
  word_at (last_char (String c w) prv) = false ->
  match_at instance_pattern adv prv
    (String c w ++ name ++ ".instance(" ++ post) = None.
Proof.
  intros Hd Hl.
  destruct (match_at instance_pattern adv prv
              (String c w ++ name ++ ".instance(" ++ post))
    as [[n g]|] eqn:E; [exfalso | reflexivity].
  pose proof (take_drop n (String c w ++ name ++ ".instance(" ++ post)) as T.
  apply instance_match_inv in E as (nm & Ht & _ & Aw & _).
  rewrite Ht in T.
  rewrite <- (app_assoc (String c w) name) in T.
  rewrite (app_assoc nm ".instance(") in T.
  change (".instance(" ++ ?t) with (String "." ("instance(" ++ t)) in T.
  apply first_dot in T.
  - rewrite T, all_app in Aw. apply andb_true_iff in Aw as [Aw _].
    rewrite (all_word_last w c prv Aw) in Hl. discriminate.
  - now apply word_no_dot.
  - rewrite all_app, Hd. now apply word_no_dot.
Qed.

Lemma subn_instance_pre (repl : groups -> outcome string) :
  forall pre prv,
    all (is_not ".") pre = true ->
    word_at (last_char pre prv) = false ->
    subn_go instance_pattern repl 0 prv (pre ++ name ++ ".instance(" ++ post)
    = obind (subn_go instance_pattern repl 0 (last_char pre prv)
               (name ++ ".instance(" ++ post))
        (fun res => Returned (pre ++ fst res, snd res)).
Proof.
  induction pre as [|c pre IH]; intros prv Hd Hl.
  - change (EmptyString ++ name ++ ".instance(" ++ post)
      with (name ++ ".instance(" ++ post).
    cbn [last_char].
    destruct (subn_go instance_pattern repl 0 prv
                (name ++ ".instance(" ++ post)) as [[out n]|e]; reflexivity.
  - change (String c pre ++ name ++ ".instance(" ++ post)
      with (String c (pre ++ name ++ ".instance(" ++ post)).
    rewrite (subn_go_copy instance_pattern repl c
               (pre ++ name ++ ".instance(" ++ post) prv
               (instance_miss c pre false prv Hd Hl)).
    cbn [all] in Hd. apply andb_true_iff in Hd as [_ Hd].
    cbn [last_char] in Hl |- *. rewrite (IH (Some c) Hd Hl).
    destruct (subn_go instance_pattern repl 0 (last_char pre (Some c))
                (name ++ ".instance(" ++ post)) as [[out n]|e]; reflexivity.
Qed.

Lemma match_at_instance (prv : option ascii) :
  word_at prv = false ->
  match_at instance_pattern false prv ((name ++ ".instance(") ++ post)
  = Some (String.length (name ++ ".instance("),
          [Some (name ++ ".instance("); Some name]).
Proof.
  intros Hp. rewrite app_assoc.
  unfold match_at, instance_pattern. cbn [seq].
  change (S (ngroups _)) with 2. cbn [repeat].
  rewrite exec_cat, exec_bound.
  2: { cbn [prev rest]. now rewrite Hp, (word_first name Hne Hword). }
  rewrite exec_cat. apply exec_group_greedy;
    [reflexivity | assumption | now apply nonempty_length |].
  erewrite exec_lit by reflexivity.
  cbv beta. cbn [andb pos caps set_group].
  match goal with
  | |- Some (?n, _) = _ =>
      replace n with (String.length (name ++ ".instance("))
  end.
  - rewrite <- (app_assoc name ".instance(" post), take_app. reflexivity.
  - rewrite length_app. cbn [String.length]. lia.
Qed.

End Instance.

(** *** [move_and_slide\([^)]+\)] *)

Lemma match_at_move_and_slide (prv : option ascii) (args post : string) :
  args <> EmptyString -> all (is_not ")") args = true ->
  exists n g,
    match_at move_and_slide_pattern false prv
      ("move_and_slide(" ++ args ++ ")" ++ post) = Some (n, g).
Proof.
  intros Hne Ha. unfold match_at, move_and_slide_pattern. cbn [seq].
  eexists _, _.
  rewrite exec_cat. erewrite exec_lit by reflexivity.
  rewrite exec_cat. apply exec_rep_greedy;
    [reflexivity | assumption | now apply nonempty_length |].
  erewrite exec_lit by reflexivity.
  cbv beta. cbn [andb]. reflexivity.
Qed.

Lemma move_and_slide_inv (adv : bool) (prv : option ascii) (s : string)
    (n : nat) (g : groups) :
  match_at move_and_slide_pattern adv prv s = Some (n, g) ->
  exists args post,
    s = "move_and_slide(" ++ args ++ ")" ++ post /\
    args <> EmptyString /\ all (is_not ")") args = true.
Proof.
  intros H. apply match_at_sound in H as (cu' & Hm & _).
  unfold move_and_slide_pattern in Hm. cbn [seq] in Hm.
  apply matches_cat_inv in Hm as (c1 & H1 & Hm).
  apply matches_lit_inv in H1 as [S1 _].
  apply matches_cat_inv in Hm as (c2 & H2 & Hm).
  apply matches_rep_inv in H2 as (args & S2 & _ & A2 & L2).
  apply matches_lit_inv in Hm as [S3 _].
  pose proof (spans_trans _ _ _ _ _ S1 (spans_trans _ _ _ _ _ S2 S3))
    as [Sall _].
  cbn [rest] in Sall. exists args, (rest cu'). split; [|split].
  - rewrite Sall. repeat (rewrite app_assoc; cbn [append]). reflexivity.
  - intros ->. cbn in L2. lia.
  - exact A2.
Qed.

End CallFacts.

(** ** Properties of [migrate_godot3_to_4.py] beyond the claims *)

Module MigrateProperties.
Import Re ReFacts TextFacts Migrate MigrateFacts DirectoryFacts ScanFacts
  EditFacts WriteFacts QuietFacts RenameFacts WholeWordFacts PipelineFacts
  CallFacts.

(** X1. Every step of [migrate_file], flag or rule, changes the content
    exactly when it records one change without the warning sign: no
    rule edits the text silently, and none records an edit it has not
    made. *)
Theorem steps_record_edits :
  Forall (fun e => records_edits (step e)) catalog.
Proof.
  unfold catalog.
  repeat (apply Forall_cons;
          [first [ apply flag_records_edits; reflexivity
                 | apply rule_replace_records_edits;
                   [reflexivity | discriminate | discriminate]
                 | apply rule_instance_records_edits
                 | apply rule_randomize_records_edits
                 | apply rule_export_records_edits
                 | apply (rename_node_records_edits _ _ "C"); reflexivity
                 | apply (rename_node_records_edits _ _ "N"); reflexivity ]|]).
  apply Forall_nil.
Qed.

(** X2. A text with none of the characters [( . B K S F T] is returned
    as it is: no new content and no change, not even a flag. *)
Theorem quiet_text_untouched (text : string) :
  quiet text = true -> migrate_file text = Returned (None, []).
Proof.
  intros H. unfold migrate_file.
  rewrite rules_catalog, (quiet_run text H catalog [] (fun e He => He)).
  cbn [l_content l_changes]. now rewrite String.eqb_refl.
Qed.

Lemma quiet_text_untouched_witness :
  quiet "extends Node2D" = true /\
  migrate_file "extends Node2D" = Returned (None, []).
Proof.
  split; [reflexivity|]. apply (quiet_text_untouched "extends Node2D").
  reflexivity.
Defined.

(** X3. A dry run of [migrate_directory] and a run that applies return
    on every listing; the dry run writes no file, the other writes the
    files whose content [migrate_file] has changed, each once, in the
    order of the listing, with a text that differs from the one read;
    both count the same files as modified and the same automatic
    changes, and never more files modified than files scanned. *)
Theorem directory_dry_and_applied (gd_files : list (string * string)) :
  exists dry applied,
    migrate_directory gd_files true = Returned dry /\
    migrate_directory gd_files false = Returned applied /\
    writes dry = [] /\
    writes applied = rewritten gd_files /\
    files_changed dry = List.length (writes applied) /\
    files_changed applied = List.length (writes applied) /\
    total_changes applied = total_changes dry /\
    files_changed applied <= List.length gd_files /\
    (forall path new_text,
        In (path, new_text) (writes applied) ->
        exists text,
          In (path, text) gd_files /\
          migrated text = new_text /\ new_text <> text).
Proof.
  destruct (migrate_directory_spec gd_files true) as (dry & Hd & Wd & Fd & Td).
  destruct (migrate_directory_spec gd_files false) as (app & Ha & Wa & Fa & Ta).
  exists dry, app. rewrite Wa, Fd, Fa, Td, Ta.
  repeat split; try assumption.
  - apply rewritten_length.
  - intros path new_text H.
    destruct (rewritten_in _ _ _ H) as (text & Hin & E & N).
    exists text. unfold migrated. rewrite E. auto.
Qed.

(** X4. For each pair of [node_renames] and every content of ASCII
    characters, the rename fires on the occurrences of the old name
    that stand alone, with no letter, digit or underscore next to
    them, and on no other: where there is one the content is rewritten
    and the change recorded, and where there is none, the name being
    part of longer identifiers only, content and changes stay as they
    are. *)
Theorem rename_node_whole_words (old new c : string) (l : list string) :
  In (old, new) node_renames -> ascii_text c = true ->
  (standalone old c /\
   rename_node old new (Locals c l)
   = Returned (tt, Locals (sub_value (whole_word old) [TLit new] c)
                     (l ++ [(old ++ " → " ++ new)%string])%list)) \/
  (~ standalone old c /\
   rename_node old new (Locals c l) = Returned (tt, Locals c l)).
Proof.
  intros Hin _.
  assert (Hne : old <> EmptyString /\ all is_word old = true).
  { unfold node_renames in Hin. cbn [In] in Hin.
    destruct Hin as [E|[E|[E|[]]]]; inversion E; subst;
      (split; [discriminate | reflexivity]). }
  destruct Hne as [Hne Hw].
  unfold rename_node, bind, get_content, when, set_content, append_change,
    ret, lift. cbn [l_content l_changes].
  destruct (found (search (whole_word old) c)) eqn:E.
  - left. pose proof (proj1 (search_whole_word old Hne Hw c) E) as S.
    split; [exact S|].
    destruct S as (pre & post & -> & _ & _). rewrite contains_app.
    now rewrite (sub_returns (whole_word old) [TLit new] _ eq_refl).
  - right. split.
    + intros S. apply (search_whole_word old Hne Hw) in S. congruence.
    + now destruct (contains old c).
Qed.

Lemma rename_node_whole_words_witness :
  In ("KinematicBody", "CharacterBody3D") node_renames /\
  ascii_text "extends KinematicBody2D" = true /\
  ((standalone "KinematicBody" "extends KinematicBody2D" /\
    rename_node "KinematicBody" "CharacterBody3D"
      (Locals "extends KinematicBody2D" [])
    = Returned (tt, Locals (sub_value (whole_word "KinematicBody")
                              [TLit "CharacterBody3D"]
                              "extends KinematicBody2D")
                      ([] ++ [("KinematicBody" ++ " → " ++ "CharacterBody3D")%string])%list)) \/
   (~ standalone "KinematicBody" "extends KinematicBody2D" /\
    rename_node "KinematicBody" "CharacterBody3D"
      (Locals "extends KinematicBody2D" [])
    = Returned (tt, Locals "extends KinematicBody2D" []))).
Proof.
  split; [right; left; reflexivity|]. split; [reflexivity|].
  apply (rename_node_whole_words "KinematicBody" "CharacterBody3D"
           "extends KinematicBody2D" []); [right; left; reflexivity | reflexivity].
Defined.

(** X5. Each of the six rules that rename a function is a step of
    [migrate_file]; it returns on every state, what it leaves has no
    occurrence of the old name with its parenthesis, and run again on
    what it leaves it changes neither the content nor the changes. *)
Theorem function_renames_complete :
  Forall (fun '(old, new, msg) =>
            In (Mechanical (rule_replace old new msg)) catalog /\
            forall st,
              exists st',
                rule_replace old new msg st = Returned (tt, st') /\
                contains old (l_content st') = false /\
                rule_replace old new msg st' = Returned (tt, st'))
    function_renames.
Proof.
  unfold function_renames.
  repeat (apply Forall_cons;
          [split;
           [unfold catalog; cbn [In];
            repeat first [left; reflexivity | right]|]|]);
    try apply Forall_nil.
  - apply (rename_rule_complete "(" "rand_range" "randf_range");
      solve [reflexivity | cbn; lia].
  - apply (rename_rule_complete "(" "deg2rad" "deg_to_rad");
      solve [reflexivity | cbn; lia].
  - apply (rename_rule_complete "(" "rad2deg" "rad_to_deg");
      solve [reflexivity | cbn; lia].
  - apply (rename_rule_complete "(" "OS.get_screen_size"
             "DisplayServer.screen_get_size");
      solve [reflexivity | cbn; lia].
  - apply (rename_rule_complete "(" "var2str" "var_to_str");
      solve [reflexivity | cbn; lia].
  - apply (rename_rule_complete "(" "str2var" "str_to_var");
      solve [reflexivity | cbn; lia].
Qed.

Lemma catalog_tail :
  catalog
  = (firstn 21 catalog
     ++ [ Mechanical (rule_replace "OS.get_screen_size("
                        "DisplayServer.screen_get_size("
                        "OS.get_screen_size() → DisplayServer.screen_get_size()");
          Advisory (fun content => contains "yield(" content)
            "⚠️  MANUAL: yield() → await (syntax change required)";
          Advisory (fun content => contains "weakref(" content)
            "⚠️  MANUAL: WeakRef.get_ref() → WeakRef.get()";
          Mechanical (rule_replace "var2str(" "var_to_str("
                        "var2str() → var_to_str()");
          Mechanical (rule_replace "str2var(" "str_to_var("
                        "str2var() → str_to_var()");
          Advisory (fun content => contains ".extents" content)
            "⚠️  MANUAL: .extents → .size (and multiply by 2 for collision shapes)" ])%list.
Proof. reflexivity. Qed.

Lemma migrated_run (text : string) (st : locals) :
  run catalog (Locals text []) = Returned (tt, st) ->
  migrated text = l_content st.
Proof.
  intros H. unfold migrated, new_content_of.
  destruct (migrate_file_run text) as (st' & H' & ->).
  rewrite H in H'. inversion H'; subst st'.
  now destruct (String.eqb_spec (l_content st) text).
Qed.

(** The content at the end of [migrate_file], from the one at the rule
    for [OS.get_screen_size(]. *)
Lemma migrated_tail (text : string) :
  exists c,
    migrated text
    = replaced "str2var(" "str_to_var("
        (replaced "var2str(" "var_to_str("
           (replaced "OS.get_screen_size(" "DisplayServer.screen_get_size(" c)).
Proof.
  destruct (run_total catalog catalog_well_formed (Locals text [])) as [st H].
  rewrite (migrated_run text st H).
  rewrite catalog_tail, run_app in H.
  destruct (run (firstn 21 catalog) (Locals text [])) as [[[] [c l]]|e];
    [|discriminate].
  exists c.
  rewrite run_cons in H. cbn [step] in H.
  destruct (rule_replace_replaced "OS.get_screen_size("
              "DisplayServer.screen_get_size("
              "OS.get_screen_size() → DisplayServer.screen_get_size()" c l)
    as [l1 E1]. rewrite E1 in H. cbv beta iota in H.
  rewrite run_cons in H. cbn [step] in H.
  match type of H with
  | context [flag ?d ?m (Locals ?c1 l1)] =>
      destruct (flag_pass d m c1 l1) as [l2 E2]; rewrite E2 in H
  end.
  cbv beta iota in H. rewrite run_cons in H. cbn [step] in H.
  match type of H with
  | context [flag ?d ?m (Locals ?c1 l2)] =>
      destruct (flag_pass d m c1 l2) as [l3 E3]; rewrite E3 in H
  end.
  cbv beta iota in H. rewrite run_cons in H. cbn [step] in H.
  match type of H with
  | context [rule_replace ?o ?n ?m (Locals ?c1 l3)] =>
      destruct (rule_replace_replaced o n m c1 l3) as [l4 E4]; rewrite E4 in H
  end.
  cbv beta iota in H. rewrite run_cons in H. cbn [step] in H.
  match type of H with
  | context [rule_replace ?o ?n ?m (Locals ?c1 l4)] =>
      destruct (rule_replace_replaced o n m c1 l4) as [l5 E5]; rewrite E5 in H
  end.
  cbv beta iota in H. rewrite run_cons in H. cbn [step] in H.
  match type of H with
  | context [flag ?d ?m (Locals ?c1 l5)] =>
      destruct (flag_pass d m c1 l5) as [l6 E6]; rewrite E6 in H
  end.
  cbv beta iota in H.
  cbn [run ret] in H. inversion H. reflexivity.
Qed.

(** X6. Whatever the text, what [migrate_file] leaves of it, new content
    or text unchanged, has no [OS.get_screen_size(], no [var2str(] and
    no [str2var(] in it: the rules that come after these renames bring
    none of them back. *)
Theorem last_renames_hold (text : string) :
  contains "OS.get_screen_size(" (migrated text) = false /\
  contains "var2str(" (migrated text) = false /\
  contains "str2var(" (migrated text) = false.
Proof.
  destruct (migrated_tail text) as [c ->].
  split; [|split].
  - apply (replaced_preserves "(" "OS.get_screen_size" "str2var" "str_to_var");
      try reflexivity.
    apply (replaced_preserves "(" "OS.get_screen_size" "var2str" "var_to_str");
      try reflexivity.
    apply (replaced_complete "(" "OS.get_screen_size"
             "DisplayServer.screen_get_size");
      solve [reflexivity | cbn; lia].
  - apply (replaced_preserves "(" "var2str" "str2var" "str_to_var");
      try reflexivity.
    apply (replaced_complete "(" "var2str" "var_to_str");
      solve [reflexivity | cbn; lia].
  - apply (replaced_complete "(" "str2var" "str_to_var");
      solve [reflexivity | cbn; lia].
Qed.

(** X11. A call [name.instance(] whose receiver is a name of letters,
    digits and underscores, in a text with no other dot and with no
    such character right before the name: the rule for [instance]
    rewrites the call to [name.instantiate(], keeps the receiver and
    the rest of the text as they are, and records its change. *)
Theorem instance_call (pre name post : string) (l : list string) :
  all (is_not ".") pre = true -> word_at (last_char pre None) = false ->
  name <> EmptyString -> all is_word name = true ->
  all (is_not ".") post = true ->
  rule_instance (Locals (pre ++ name ++ ".instance(" ++ post) l)
  = Returned (tt, Locals (pre ++ name ++ ".instantiate(" ++ post)
                    (l ++ ["instance() → instantiate()"])%list).
Proof.
  intros Hpre Hlast Hne Hword Hpost.
  pose proof (match_at_instance name post Hne Hword (last_char pre None) Hlast)
    as M.
  destruct (search_go_complete instance_pattern pre
              ((name ++ ".instance(") ++ post) None _ _ M) as [g Hs].
  rewrite app_assoc in Hs.
  unfold rule_instance, bind, get_content, when, lift, set_content,
    append_change, ret. cbn [l_content l_changes].
  unfold search. rewrite Hs. cbn [found].
  unfold sub, subn.
  change (template_ok instance_pattern [TRef 1; TLit ".instantiate("])
    with true. cbv iota. unfold subn_with.
  rewrite (subn_instance_pre name post Hword _ pre None Hpre Hlast).
  rewrite <- (app_assoc name ".instance(" post).
  rewrite (subn_go_hit instance_pattern _ _ _ _ _ (name ++ ".instantiate(") M).
  - assert (Hc : count_char "." post = 0)
      by (now apply (count_char_all (is_not "."))).
    destruct (search_none_subn instance_pattern
                (fun g => Returned (expand [TRef 1; TLit ".instantiate("] g))
                post (last_char (name ++ ".instance(") (last_char pre None))
                (search_demands "." instance_pattern eq_refl post _ Hc))
      as [-> _].
    cbn [obind fst snd]. now rewrite (app_assoc name ".instantiate(" post).
  - destruct name; [congruence | discriminate].
  - reflexivity.
Qed.

(** The line [var enemy = scene.instance()]. *)
Lemma instance_call_witness :
  all (is_not ".") "var enemy = " = true /\
  word_at (last_char "var enemy = " None) = false /\
  "scene" <> EmptyString /\ all is_word "scene" = true /\
  all (is_not ".") ")" = true /\
  rule_instance (Locals ("var enemy = " ++ "scene" ++ ".instance(" ++ ")") [])
  = Returned (tt, Locals ("var enemy = " ++ "scene" ++ ".instantiate(" ++ ")")
                    ([] ++ ["instance() → instantiate()"])%list).
Proof.
  repeat (split; [solve [reflexivity | discriminate]|]).
  apply (instance_call "var enemy = " "scene" ")" []);
    solve [reflexivity | discriminate].
Defined.

(** X12. The flag for [move_and_slide] is raised exactly on the
    contents with a call of [move_and_slide] that has something
    between its parentheses; a content whose calls are all
    [move_and_slide()], as Godot 4 wants them, is not flagged.  The
    content is never changed. *)
Theorem move_and_slide_flag (c : string) (l : list string) :
  (with_arguments c /\
   flag_move_and_slide (Locals c l)
   = Returned (tt, Locals c
       (l ++ ["⚠️  MANUAL: move_and_slide() API changed - now uses velocity property"])%list))
  \/
  (~ with_arguments c /\
   flag_move_and_slide (Locals c l) = Returned (tt, Locals c l)).
Proof.
  unfold flag_move_and_slide, bind, get_content, when, append_change, ret.
  cbn [l_content l_changes].
  destruct (found (search move_and_slide_pattern c)) eqn:E.
  - left. split; [|reflexivity]. unfold search in E.
    destruct (search_go move_and_slide_pattern None c) as [g|] eqn:E';
      [|discriminate].
    apply search_go_inv in E' as (pre & s & n & -> & M).
    apply move_and_slide_inv in M as (args & post & -> & Hne & Ha).
    now exists pre, args, post.
  - right. split; [|reflexivity].
    intros (pre & args & post & -> & Hne & Ha).
    destruct (match_at_move_and_slide (last_char pre None) args post Hne Ha)
      as (n & g & M).
    destruct (search_go_complete move_and_slide_pattern pre _ None n g M)
      as [g' Hs].
    unfold search in E. rewrite Hs in E. discriminate.
Qed.

End MigrateProperties.

(** ** Properties of [fix_connect_calls.py] beyond the claims *)

Module ConnectProperties.
Import Re ReFacts TextFacts FixConnect ConnectFacts ConnectCall ConnectContext
  ScanFacts FixFacts ConnectFixed.

(** X7. A text in which [.connect(] is nowhere followed by a double
    quote comes back as it is, with the count 0. *)
Theorem no_connect_literal (content : string) :
  contains (".connect(" ++ q) content = false ->
  fix_connect_calls content = Returned (content, 0).
Proof.
  intros H. unfold fix_connect_calls, subn_with.
  destruct (search_go pattern None content) as [g|] eqn:E.
  - apply search_connect_literal in E. congruence.
  - destruct (search_none_subn pattern replacer content None E) as [-> _].
    reflexivity.
Qed.

Lemma no_connect_literal_witness :
  contains (".connect(" ++ q) "button.connect(signal, self)" = false /\
  fix_connect_calls "button.connect(signal, self)"
  = Returned ("button.connect(signal, self)", 0).
Proof.
  split; [reflexivity|].
  apply (no_connect_literal "button.connect(signal, self)"). reflexivity.
Defined.

(** X8. The loop of [main] returns on every listing; it writes the
    files with a match, and only them, each once and in the order of
    the listing, every one with a text that differs from the one read;
    the total it reports is the number of matches over all the files,
    and the number of files the number of files written. *)
Theorem fix_main_writes (gd_files : list (string * string)) :
  exists t,
    fix_main gd_files = Returned t /\
    fix_writes t = fixed_files gd_files /\
    total_fixed t = list_sum (map (fun file => matches_in (snd file)) gd_files) /\
    files_modified t = List.length (fix_writes t) /\
    (forall rel_path new_text,
        In (rel_path, new_text) (fix_writes t) ->
        exists content,
          In (rel_path, content) gd_files /\
          fix_connect_calls content = Returned (new_text, matches_in content) /\
          1 <= matches_in content /\ new_text <> content).
Proof.
  unfold fix_main.
  destruct (fix_visit_all_spec gd_files (FixTally 0 0 []))
    as (t & -> & T & F & W).
  cbn [obind]. eexists. split; [reflexivity|].
  cbn [total_fixed files_modified fix_writes fix_effects] in *.
  assert (Hw : flat_map
                 (fun e => match e with
                           | Migrate.Written path text => [(path, text)]
                           | Migrate.Printed _ => []
                           end)
                 (fix_effects t ++ [Migrate.Printed
                    (chr newline ++ "📊 Summary: " ++ str_of_nat (total_fixed t)
                     ++ " calls fixed in " ++ str_of_nat (files_modified t)
                     ++ " files")])%list
               = fixed_files gd_files).
  { rewrite flat_map_app. cbn [flat_map List.app]. rewrite List.app_nil_r.
    exact W. }
  unfold fix_writes. cbn [fix_effects]. rewrite Hw.
  split; [reflexivity|]. split; [exact T|]. split; [exact F|].
  intros rel_path new_text H.
  destruct (fixed_files_differ _ _ _ H) as (content & Hin & -> & Hn & Hd).
  exists content. split; [exact Hin|]. split; [|split; assumption].
  apply fix_connect_spec.
Qed.

(** X9. A call that has been fixed is not fixed again: on a text
    whose only dot is the one of a call of the form
    [.connect("sig", Callable(obj, "method"))], [fix_connect_calls]
    returns the text as it is, with the count 0. *)
Theorem fixed_call_untouched (pre post sig obj meth : string) :
  all (is_not ".") pre = true -> all (is_not ".") post = true ->
  all (is_not dquote) sig = true -> all (is_not ".") sig = true ->
  all (is_not ".") obj = true -> all (is_not ".") meth = true ->
  fix_connect_calls (pre ++ callable sig obj meth post)
  = Returned (pre ++ callable sig obj meth post, 0).
Proof.
  intros Hpre Hpost Asig Dsig Dobj Dmeth.
  unfold fix_connect_calls, subn_with.
  now rewrite fixed_call_stays.
Qed.

Lemma fixed_call_untouched_witness :
  all (is_not ".") "button" = true /\ all (is_not ".") "; " = true /\
  all (is_not dquote) "pressed" = true /\ all (is_not ".") "pressed" = true /\
  all (is_not ".") "self" = true /\ all (is_not ".") "_on_pressed" = true /\
  fix_connect_calls ("button" ++ callable "pressed" "self" "_on_pressed" "; ")
  = Returned ("button" ++ callable "pressed" "self" "_on_pressed" "; ", 0).
Proof.
  repeat (split; [reflexivity|]).
  apply (fixed_call_untouched "button" "; " "pressed" "self" "_on_pressed");
    reflexivity.
Defined.

End ConnectProperties.
